(** * Meelode level generation and solvability: a shallow embedding

    The TypeScript modules [types.ts], [levelParser.ts], [markovGenerator.ts],
    [solvabilityChecker.ts] and [levelGenerator.ts], and the training loops
    of the two offline training scripts, are embedded as Rocq functions.  Grid coordinates are JavaScript numbers that only ever hold
    integers here, so they are [Z]; string keys such as [`${x},${y}`] are
    built as real strings; a JavaScript [Set<string>] is an insertion-ordered
    duplicate-free list of strings; a thrown [TypeError] is the [Throw]
    outcome of an error monad. *)

From Stdlib Require Import ZArith List String Ascii Bool Lia QArith Qround.
From Stdlib Require Import DecimalString Permutation.
Import ListNotations.
Open Scope Z_scope.

Set Implicit Arguments.

(* ------------------------------------------------------------------ *)
(** ** types.ts *)

(** [TILES]: the tile alphabet of the VGLC format. *)
Inductive TileChar : Type :=
| EMPTY | BRICK | SOLID | LADDER | ROPE | GOLD | ENEMY | SPAWN.

Definition tile_eqb (a b : TileChar) : bool :=
  match a, b with
  | EMPTY, EMPTY | BRICK, BRICK | SOLID, SOLID | LADDER, LADDER
  | ROPE, ROPE | GOLD, GOLD | ENEMY, ENEMY | SPAWN, SPAWN => true
  | _, _ => false
  end.

Lemma tile_eqb_eq (a b : TileChar) : tile_eqb a b = true <-> a = b.
Proof. destruct a, b; simpl; split; intro H; congruence. Qed.

Lemma tile_eqb_refl (a : TileChar) : tile_eqb a a = true.
Proof. now destruct a. Qed.

(** The character of each tile (['.'], ['b'], ['B'], ['#'], ['-'], ['G'],
    ['E'], ['M']). *)
Definition tile_char (t : TileChar) : ascii :=
  match t with
  | EMPTY => "."%char | BRICK => "b"%char | SOLID => "B"%char
  | LADDER => "#"%char | ROPE => "-"%char | GOLD => "G"%char
  | ENEMY => "E"%char | SPAWN => "M"%char
  end.

Record TileProperties : Type := mkProps {
  solid : bool; passable : bool; climbable : bool;
  diggable : bool; ground : bool }.

Definition TILE_PROPERTIES (t : TileChar) : TileProperties :=
  match t with
  | EMPTY  => mkProps false true  false false false
  | BRICK  => mkProps true  false false true  true
  | SOLID  => mkProps true  false false false true
  | LADDER => mkProps false true  true  false false
  | ROPE   => mkProps false true  true  false false
  | GOLD   => mkProps false true  false false false
  | ENEMY  => mkProps false true  false false false
  | SPAWN  => mkProps false true  false false false
  end.

Definition LEVEL_WIDTH : Z := 28.
Definition LEVEL_HEIGHT : Z := 16.

Definition Level : Type := list (list TileChar).

Record Position : Type := mkPos { px : Z; py : Z }.

(** [=== tile] on a possibly-null tile. *)
Definition is_tile (o : option TileChar) (t : TileChar) : bool :=
  match o with Some u => tile_eqb u t | None => false end.

(* ------------------------------------------------------------------ *)
(** ** JavaScript strings and string sets *)

(** [`${z}`] for an integer-valued number: its decimal digits.  (From
    [10^21] on a JavaScript number prints in exponent notation; grid
    coordinates are array indices and stay far below that.) *)
Definition zstr (z : Z) : string := NilZero.string_of_int (Z.to_int z).

(** [`${x},${y}`] *)
Definition posKey (x y : Z) : string := (zstr x ++ "," ++ zstr y)%string.

Definition StrSet : Type := list string.

Definition has (k : string) (s : StrSet) : bool := existsb (String.eqb k) s.

Definition add (k : string) (s : StrSet) : StrSet :=
  if has k s then s else s ++ [k].

Lemma has_add_same (k : string) (s : StrSet) : has k (add k s) = true.
Proof.
  unfold add. destruct (has k s) eqn:E; [exact E|].
  unfold has. rewrite existsb_app. simpl. rewrite String.eqb_refl.
  now rewrite orb_true_r.
Qed.

Lemma has_add_mono (k j : string) (s : StrSet) :
  has k s = true -> has k (add j s) = true.
Proof.
  intro H. unfold add. destruct (has j s); [exact H|].
  unfold has in *. rewrite existsb_app, H. reflexivity.
Qed.

(* ------------------------------------------------------------------ *)
(** ** levelParser.ts *)

Definition len {A : Type} (l : list A) : Z := Z.of_nat (List.length l).

(** [level[y]] for an integer index: [undefined] outside the array. *)
Definition rowAt (level : Level) (y : Z) : option (list TileChar) :=
  if y <? 0 then None else nth_error level (Z.to_nat y).

(** [row[x]] *)
Definition cellAt (r : list TileChar) (x : Z) : option TileChar :=
  if x <? 0 then None else nth_error r (Z.to_nat x).

(** [getTile]: the bounds-checked read. *)
Definition getTile (level : Level) (x y : Z) : option TileChar :=
  if (y <? 0) || (y >=? len level) then None
  else match rowAt level y with
       | None => None
       | Some r => if (x <? 0) || (x >=? len r) then None else cellAt r x
       end.

(** [level[0]?.length || 0] *)
Definition widthOf (level : Level) : Z :=
  match level with [] => 0 | r :: _ => len r end.

(** The indices [x, x+1, ..., x+n-1] of a [for] loop. *)
Fixpoint columns (n : nat) (x : Z) : list Z :=
  match n with O => [] | S k => x :: columns k (x + 1) end.

(** [findTiles]: the two [for] loops, over [y < level.length] and
    [x < level[y].length]. *)
Definition findTiles (level : Level) (tile : TileChar) : list Position :=
  flat_map
    (fun y =>
       match rowAt level y with
       | None => []
       | Some r =>
           flat_map
             (fun x => if is_tile (cellAt r x) tile then [mkPos x y] else [])
             (columns (Z.to_nat (len r)) 0)
       end)
    (columns (Z.to_nat (len level)) 0).

Definition getSpawnPosition (level : Level) : option Position :=
  match findTiles level SPAWN with [] => None | p :: _ => Some p end.

Definition getGoldPositions (level : Level) : list Position :=
  findTiles level GOLD.

(** [createEmptyLevel(width, height)]: [Array(n)] with [n] a natural number. *)
Definition createEmptyLevel (width height : nat) : Level :=
  repeat (repeat EMPTY width) height.

Definition cloneLevel (level : Level) : Level := map (fun r => r) level.

(** [normalizeLevel]: strip the entities. *)
Definition normalizeTile (t : TileChar) : TileChar :=
  match t with GOLD | ENEMY | SPAWN => EMPTY | _ => t end.

Definition normalizeLevel (level : Level) : Level :=
  map (map normalizeTile) level.

(* ------------------------------------------------------------------ *)
(** ** solvabilityChecker.ts: the movement model *)

Definition hasGroundSupport (level : Level) (x y : Z) : bool :=
  let below := getTile level x (y + 1) in
  let current := getTile level x y in
  if is_tile current LADDER || is_tile current ROPE then true
  else if match below with Some b => ground (TILE_PROPERTIES b) | None => false end
  then true
  else if is_tile below LADDER then true
  else false.

Definition isPassable (level : Level) (x y : Z) (dugPositions : StrSet) : bool :=
  match getTile level x y with
  | None => false
  | Some tile =>
      if has (posKey x y) dugPositions then true
      else passable (TILE_PROPERTIES tile)
  end.

Definition canDig (level : Level) (x y : Z) : bool :=
  is_tile (getTile level x y) BRICK.

Record Move : Type := mkMove { mx : Z; my : Z; dig : option Position }.

(** The falling scan of [getValidMoves]: [while (landY < height)].  The
    recursion is on the number of rows left below, [height - landY]. *)
Fixpoint fallScan (level : Level) (x : Z) (dugPositions : StrSet)
    (height : Z) (rowsLeft : nat) (landY : Z) : list Move :=
  match rowsLeft with
  | O => []
  | S n =>
      if landY <? height then
        let below := getTile level x landY in
        if negb (isPassable level x landY dugPositions)
        then [mkMove x (landY - 1) None]
        else if is_tile below LADDER || is_tile below ROPE
        then [mkMove x landY None]
        else fallScan level x dugPositions height n (landY + 1)
      else []
  end.

Definition getValidMoves (level : Level) (x y : Z) (dugPositions : StrSet)
  : list Move :=
  let current := getTile level x y in
  let height := len level in
  let width := widthOf level in
  let onClimbable := is_tile current LADDER || is_tile current ROPE in
  let hasSupport := hasGroundSupport level x y in
  if negb hasSupport && negb onClimbable then
    fallScan level x dugPositions height (Z.to_nat (height - (y + 1))) (y + 1)
  else
    (if (x >? 0) && isPassable level (x - 1) y dugPositions
     then [mkMove (x - 1) y None] else [])
    ++ (if (x <? width - 1) && isPassable level (x + 1) y dugPositions
        then [mkMove (x + 1) y None] else [])
    ++ (if is_tile current LADDER && (y >? 0)
           && isPassable level x (y - 1) dugPositions
        then [mkMove x (y - 1) None] else [])
    ++ (if y <? height - 1 then
          let below := getTile level x (y + 1) in
          if is_tile below LADDER || has (posKey x (y + 1)) dugPositions
          then [mkMove x (y + 1) None]
          else if is_tile current LADDER
                  && isPassable level x (y + 1) dugPositions
          then [mkMove x (y + 1) None] else []
        else [])
    ++ (if hasSupport && (x >? 0) then
          let digX := x - 1 in let digY := y + 1 in
          if (digY <? height) && canDig level digX digY
             && negb (has (posKey digX digY) dugPositions)
          then [mkMove (x - 1) y (Some (mkPos digX digY))] else []
        else [])
    ++ (if hasSupport && (x <? width - 1) then
          let digX := x + 1 in let digY := y + 1 in
          if (digY <? height) && canDig level digX digY
             && negb (has (posKey digX digY) dugPositions)
          then [mkMove (x + 1) y (Some (mkPos digX digY))] else []
        else []).

(** A concrete level used by the examples: a ladder on the right, a pit on
    the left.
<<
    .#
    M#
    G#
    BB
>> *)
Definition pitLevel : Level :=
  [ [EMPTY; LADDER]; [SPAWN; LADDER]; [GOLD; LADDER]; [SOLID; SOLID] ].

Example pit_fall : getValidMoves pitLevel 0 1 [] = [mkMove 0 2 None].
Proof. reflexivity. Qed.

Example pit_floor_moves :
  getValidMoves pitLevel 0 2 [] = [mkMove 1 2 None].
Proof. reflexivity. Qed.

(* ------------------------------------------------------------------ *)
(** ** The falling rule *)

(** What one fall from row [y] in column [x] may return: the first row
    [landY] below [y] that is either not passable (the entity lands one row
    above it) or holds a ladder or rope (the entity grabs it), every row
    strictly between being passable and neither ladder nor rope. *)
Definition fallTarget (level : Level) (x y : Z) (dugPositions : StrSet)
    (m : Move) : Prop :=
  mx m = x /\ dig m = None /\
  exists landY : Z,
    y < landY < len level /\
    (forall j, y < j < landY ->
       isPassable level x j dugPositions = true /\
       is_tile (getTile level x j) LADDER = false /\
       is_tile (getTile level x j) ROPE = false) /\
    ((isPassable level x landY dugPositions = false /\ my m = landY - 1) \/
     (isPassable level x landY dugPositions = true /\
      (is_tile (getTile level x landY) LADDER = true \/
       is_tile (getTile level x landY) ROPE = true) /\
      my m = landY)).

Lemma fallScan_spec (level : Level) (x : Z) (dugPositions : StrSet) (y : Z) :
  forall (rowsLeft : nat) (landY : Z),
    y < landY ->
    (forall j, y < j < landY ->
       isPassable level x j dugPositions = true /\
       is_tile (getTile level x j) LADDER = false /\
       is_tile (getTile level x j) ROPE = false) ->
    (fallScan level x dugPositions (len level) rowsLeft landY = [] \/
     exists m, fallScan level x dugPositions (len level) rowsLeft landY = [m]
               /\ fallTarget level x y dugPositions m).
Proof.
  induction rowsLeft as [|n IH]; intros landY Hlt Hbetween; simpl.
  - now left.
  - destruct (landY <? len level) eqn:Hh; [|now left].
    apply Z.ltb_lt in Hh.
    destruct (isPassable level x landY dugPositions) eqn:Hp; simpl.
    + destruct (is_tile (getTile level x landY) LADDER
                || is_tile (getTile level x landY) ROPE) eqn:Hc.
      * right. eexists; split; [reflexivity|].
        repeat split; simpl. exists landY. repeat split; try lia.
        -- apply Hbetween; lia.
        -- apply Hbetween; lia.
        -- apply Hbetween; lia.
        -- right. apply orb_true_iff in Hc. tauto.
      * apply orb_false_iff in Hc. destruct Hc as [Hl Hr].
        apply IH; [lia|].
        intros j Hj. destruct (Z.eq_dec j landY) as [->|Hne].
        -- tauto.
        -- apply Hbetween; lia.
    + right. eexists; split; [reflexivity|].
      repeat split; simpl. exists landY. repeat split; try lia.
      * apply Hbetween; lia.
      * apply Hbetween; lia.
      * apply Hbetween; lia.
      * now left.
Qed.

(** The scan is given exactly the rows below [y]: it never stops for want
    of rows while [landY < height]. *)
Lemma fallScan_rows_enough (level : Level) (x : Z) (dugPositions : StrSet)
    (height : Z) :
  forall (rowsLeft : nat) (landY : Z),
    height - landY <= Z.of_nat rowsLeft ->
    fallScan level x dugPositions height rowsLeft landY = [] ->
    forall j, landY <= j < height ->
      isPassable level x j dugPositions = true /\
      is_tile (getTile level x j) LADDER = false /\
      is_tile (getTile level x j) ROPE = false.
Proof.
  induction rowsLeft as [|n IH]; intros landY Hfuel Hnil j Hj.
  - simpl in Hfuel. lia.
  - simpl in Hnil. destruct (landY <? height) eqn:Hh.
    2:{ apply Z.ltb_ge in Hh. lia. }
    destruct (isPassable level x landY dugPositions) eqn:Hp; simpl in Hnil;
      [|discriminate].
    destruct (is_tile (getTile level x landY) LADDER
              || is_tile (getTile level x landY) ROPE) eqn:Hc; [discriminate|].
    apply orb_false_iff in Hc.
    destruct (Z.eq_dec j landY) as [->|Hne]; [tauto|].
    apply (IH (landY + 1)); [lia|assumption|lia].
Qed.

(** C7. From a position without ground support (which, by
    [hasGroundSupport], is in particular not on a ladder or rope),
    [getValidMoves] returns at most one move, and that move is a fall in
    the same column without digging: it lands one row above the first
    non-passable tile below, or grabs the first ladder or rope below.  No
    horizontal step, climb or dig is returned. *)
Theorem getValidMoves_falling (level : Level) (x y : Z) (dugPositions : StrSet) :
  hasGroundSupport level x y = false ->
  (getValidMoves level x y dugPositions = [] \/
   exists m, getValidMoves level x y dugPositions = [m]) /\
  forall m, In m (getValidMoves level x y dugPositions) ->
            fallTarget level x y dugPositions m.
Proof.
  intro Hs.
  assert (Hc : is_tile (getTile level x y) LADDER
               || is_tile (getTile level x y) ROPE = false).
  { unfold hasGroundSupport in Hs.
    destruct (is_tile (getTile level x y) LADDER
              || is_tile (getTile level x y) ROPE); [discriminate|reflexivity]. }
  unfold getValidMoves. rewrite Hs, Hc. simpl.
  destruct (fallScan_spec level x dugPositions (y := y)
              (Z.to_nat (len level - (y + 1))) (landY := y + 1)) as [E|[m [E Hm]]].
  - lia.
  - intros j Hj. lia.
  - rewrite E. split; [now left|]. intros m [].
  - rewrite E. split; [right; now exists m|].
    intros m' [<-|[]]. exact Hm.
Qed.

(** When a falling position yields no move at all, the entity fell through
    passable, non-climbable cells down to the last row. *)
Lemma getValidMoves_falling_none (level : Level) (x y : Z) (dugPositions : StrSet) :
  hasGroundSupport level x y = false ->
  getValidMoves level x y dugPositions = [] ->
  forall j, y < j < len level ->
    isPassable level x j dugPositions = true /\
    is_tile (getTile level x j) LADDER = false /\
    is_tile (getTile level x j) ROPE = false.
Proof.
  intros Hs Hnil j Hj.
  assert (Hc : is_tile (getTile level x y) LADDER
               || is_tile (getTile level x y) ROPE = false).
  { unfold hasGroundSupport in Hs.
    destruct (is_tile (getTile level x y) LADDER
              || is_tile (getTile level x y) ROPE); [discriminate|reflexivity]. }
  unfold getValidMoves in Hnil. rewrite Hs, Hc in Hnil. simpl in Hnil.
  eapply fallScan_rows_enough; [|exact Hnil|]; lia.
Qed.

Lemma getValidMoves_falling_witness :
  hasGroundSupport pitLevel 0 1 = false /\
  fallTarget pitLevel 0 1 [] (mkMove 0 2 None).
Proof.
  split; [reflexivity|].
  apply (proj2 (getValidMoves_falling pitLevel 0 1 [] eq_refl)).
  left. reflexivity.
Defined.

(* ------------------------------------------------------------------ *)
(** ** Basic reachability: [getReachablePositions] *)

(** A queue entry [{x, y, dugPositions}]. *)
Record QState : Type := mkQ { qx : Z; qy : Z; qdug : StrSet }.

Record BfsState : Type := mkBfs {
  queue : list QState; visited : StrSet; reachable : StrSet }.

(** [new Set(current.dugPositions)] followed by the optional [add]. *)
Definition newDugPositions (dugPositions : StrSet) (move : Move) : StrSet :=
  match dig move with
  | Some d => add (posKey (px d) (py d)) dugPositions
  | None => dugPositions
  end.

(** The [for (const move of moves)] loop of the breadth-first search. *)
Definition pushMoves (visited : StrSet) (dugPositions : StrSet)
    (moves : list Move) (queue : list QState) : list QState :=
  fold_left
    (fun q move =>
       if negb (has (posKey (mx move) (my move)) visited)
       then q ++ [mkQ (mx move) (my move) (newDugPositions dugPositions move)]
       else q)
    moves queue.

(** One iteration of the [while] loop (the queue is not empty). *)
Definition bfsBody (level : Level) (st : BfsState) : BfsState :=
  match queue st with
  | [] => st
  | current :: rest =>
      let key := posKey (qx current) (qy current) in
      if has key (visited st) then mkBfs rest (visited st) (reachable st)
      else
        let visited' := add key (visited st) in
        let reachable' := add key (reachable st) in
        let moves :=
          getValidMoves level (qx current) (qy current) (qdug current) in
        mkBfs (pushMoves visited' (qdug current) moves rest) visited' reachable'
  end.

(** [while (queue.length > 0 && iterations < maxIterations)]: the recursion
    is on the iterations left. *)
Fixpoint bfsLoop (level : Level) (iterationsLeft : nat) (st : BfsState)
  : BfsState :=
  match iterationsLeft with
  | O => st
  | S n =>
      match queue st with
      | [] => st
      | _ :: _ => bfsLoop level n (bfsBody level st)
      end
  end.

Definition bfsInit (startX startY : Z) : BfsState :=
  mkBfs [mkQ startX startY []] [] [].

Definition getReachablePositionsWithin (level : Level) (startX startY : Z)
    (maxIterations : Z) : StrSet :=
  reachable (bfsLoop level (Z.to_nat maxIterations) (bfsInit startX startY)).

(** The default [maxIterations = 50000]. *)
Definition getReachablePositions (level : Level) (startX startY : Z) : StrSet :=
  getReachablePositionsWithin level startX startY 50000.

Example pit_reachable :
  getReachablePositions pitLevel 0 1
  = ["0,1"; "0,2"; "1,2"; "1,1"; "1,0"; "0,0"]%string.
Proof. vm_compute. reflexivity. Qed.

(* ------------------------------------------------------------------ *)
(** ** Basic validation: [validateLevel] *)

Record ValidationResult : Type := mkValidation {
  valid : bool;
  reachableGold : list Position;
  unreachableGold : list Position;
  spawnPosition : option Position;
  issues : list string }.

Definition spawnIssue (spawn : Position) : string :=
  ("Spawn position (" ++ zstr (px spawn) ++ ", " ++ zstr (py spawn)
   ++ ") has no ground support")%string.

Definition goldIssue (gold : Position) : string :=
  ("Gold at (" ++ zstr (px gold) ++ ", " ++ zstr (py gold)
   ++ ") is unreachable")%string.

(** The gold partition loop; the accumulator is
    [(reachableGold, unreachableGold, issues)]. *)
Definition partitionGold (reachable : StrSet) (goldPositions : list Position)
    (issues : list string)
  : list Position * list Position * list string :=
  fold_left
    (fun acc gold =>
       let '(rg, ug, iss) := acc in
       if has (posKey (px gold) (py gold)) reachable
       then (rg ++ [gold], ug, iss)
       else (rg, ug ++ [gold], iss ++ [goldIssue gold]))
    goldPositions ([], [], issues).

Definition validateLevel (level : Level) : ValidationResult :=
  let goldPositions := getGoldPositions level in
  match getSpawnPosition level with
  | None =>
      mkValidation false [] goldPositions None
        ["No spawn position (M) found in level"%string]
  | Some spawn =>
      let issues1 :=
        if negb (hasGroundSupport level (px spawn) (py spawn)) then
          let onClimbable :=
            is_tile (getTile level (px spawn) (py spawn)) LADDER
            || is_tile (getTile level (px spawn) (py spawn)) ROPE in
          if negb onClimbable then [spawnIssue spawn] else []
        else [] in
      let issues2 :=
        if (len goldPositions =? 0)
        then issues1 ++ ["No gold (G) found in level"%string] else issues1 in
      let reachable := getReachablePositions level (px spawn) (py spawn) in
      let '(rg, ug, issues3) := partitionGold reachable goldPositions issues2 in
      mkValidation ((len ug =? 0) && (len issues3 =? 0)) rg ug (Some spawn) issues3
  end.

Definition isSolvable (level : Level) : bool := valid (validateLevel level).

(* ------------------------------------------------------------------ *)
(** ** Full solvability: [canSolveLevel] *)

(** 32-bit signed wrap-around of the bit operators. *)
Definition toInt32 (z : Z) : Z :=
  let m := z mod 4294967296 in
  if m >=? 2147483648 then m - 4294967296 else m.

(** [1 << i] *)
Definition shl1 (i : Z) : Z := toInt32 (Z.shiftl 1 (Z.land i 31)).

Record FullNode : Type := mkNode {
  nx : Z; ny : Z;
  collectedGold : Z;
  ndug : StrSet;
  g : Z; h : Z; f : Z }.

(** [stateKey]: [`${state.x},${state.y},${state.collectedGold}`]. *)
Definition stateKey (x y collected : Z) : string :=
  (zstr x ++ "," ++ zstr y ++ "," ++ zstr collected)%string.

Definition nodeKey (n : FullNode) : string :=
  stateKey (nx n) (ny n) (collectedGold n).

(** [Math.min] over a running minimum that starts at [Infinity] ([None]). *)
Definition minInf (m : option Z) (d : Z) : option Z :=
  match m with None => Some d | Some v => Some (Z.min v d) end.

Definition manhattan (x1 y1 x2 y2 : Z) : Z := Z.abs (x1 - x2) + Z.abs (y1 - y2).

(** Indexed gold positions [(i, goldPositions[i])]. *)
Fixpoint indexed {A : Type} (i : Z) (l : list A) : list (Z * A) :=
  match l with [] => [] | a :: l' => (i, a) :: indexed (i + 1) l' end.

Definition uncollected (collected : Z) (i : Z) : bool :=
  Z.land collected (shl1 i) =? 0.

Definition fullHeuristic (x y collected : Z) (goldPositions : list Position)
    (escapePositions : list Position) : Z :=
  if collected =? shl1 (len goldPositions) - 1 then
    match fold_left
            (fun m e => minInf m (manhattan x y (px e) (py e)))
            escapePositions None with
    | None => 0
    | Some d => d
    end
  else
    (* nearest uncollected gold: strict [<] keeps the first minimum *)
    let nearest :=
      fold_left
        (fun (m : option Z) ig =>
           if uncollected collected (fst ig) then
             let dist := manhattan x y (px (snd ig)) (py (snd ig)) in
             match m with
             | None => Some dist
             | Some v => if dist <? v then Some dist else m
             end
           else m)
        (indexed 0 goldPositions) None in
    match nearest with
    | None => 0
    | Some minGoldDist =>
        let minEscapeDist :=
          fold_left
            (fun m e =>
               fold_left
                 (fun m' ig =>
                    if uncollected collected (fst ig)
                    then minInf m' (manhattan (px (snd ig)) (py (snd ig))
                                              (px e) (py e))
                    else m')
                 (indexed 0 goldPositions) m)
            escapePositions None in
        minGoldDist + match minEscapeDist with None => 0 | Some d => d end
    end.

(** [findEscapePositions] *)
Definition findEscapePositions (level : Level) : list Position :=
  let width := widthOf level in
  let cols := columns (Z.to_nat width) 0 in
  let escapes :=
    flat_map
      (fun x =>
         if is_tile (getTile level x 0) LADDER then [mkPos x 0]
         else if is_tile (getTile level x 0) EMPTY
                 && is_tile (getTile level x 1) LADDER
         then [mkPos x 0] else [])
      cols in
  if len escapes =? 0 then
    flat_map
      (fun x =>
         let tile := getTile level x 0 in
         if is_tile tile EMPTY || is_tile tile ROPE || is_tile tile LADDER
         then [mkPos x 0] else [])
      cols
  else escapes.

(** [Map<string, number>] as an association list; [set] overwrites. *)
Fixpoint mapSet (k : string) (v : Z) (m : list (string * Z))
  : list (string * Z) :=
  match m with
  | [] => [(k, v)]
  | (k', v') :: m' =>
      if String.eqb k k' then (k, v) :: m' else (k', v') :: mapSet k v m'
  end.

Fixpoint mapGet (k : string) (m : list (string * Z)) : option Z :=
  match m with
  | [] => None
  | (k', v) :: m' => if String.eqb k k' then Some v else mapGet k m'
  end.

Definition goldLookup (goldPositions : list Position) : list (string * Z) :=
  fold_left
    (fun m ig => mapSet (posKey (px (snd ig)) (py (snd ig))) (fst ig) m)
    (indexed 0 goldPositions) [].

(** [openSet.sort((a, b) => a.f - b.f)]: the comparator is consistent, so
    the result is the stable sort by [f]. *)
Fixpoint insertByF (n : FullNode) (l : list FullNode) : list FullNode :=
  match l with
  | [] => [n]
  | m :: l' => if f n <? f m then n :: l else m :: insertByF n l'
  end.

Definition sortByF (l : list FullNode) : list FullNode :=
  fold_left (fun acc n => insertByF n acc) l [].

Record SolveResult : Type := mkSolve { solvable : bool; reason : option string }.

(** [`Search exceeded ${maxIterations} iterations`] *)
Definition exceededReason (maxIterations : Z) : string :=
  ("Search exceeded " ++ zstr maxIterations ++ " iterations")%string.

Record AStarState : Type := mkAStar {
  openSet : list FullNode; avisited : StrSet }.

Section FullSolver.

Variable level : Level.
Variable goldPositions escapePositions : list Position.

Let allGoldMask : Z := shl1 (len goldPositions) - 1.
Let goldAtPosition := goldLookup goldPositions.
Let escapeSet : StrSet :=
  fold_left (fun s e => add (posKey (px e) (py e)) s) escapePositions [].

(** The [for (const move of moves)] loop of the solver. *)
Definition expandNode (visited : StrSet) (current : FullNode)
    (moves : list Move) (open : list FullNode) : list FullNode :=
  fold_left
    (fun o move =>
       let newCollected :=
         match mapGet (posKey (mx move) (my move)) goldAtPosition with
         | Some goldIdx => Z.lor (collectedGold current) (shl1 goldIdx)
         | None => collectedGold current
         end in
       let dug' := newDugPositions (ndug current) move in
       if has (stateKey (mx move) (my move) newCollected) visited then o
       else
         let g' := g current + 1 in
         let h' := fullHeuristic (mx move) (my move) newCollected
                     goldPositions escapePositions in
         o ++ [mkNode (mx move) (my move) newCollected dug' g' h' (g' + h')])
    moves open.

(** One iteration of the solver loop: [inl tt] is [return {solvable:
    true}], [inr st] continues. *)
Definition astarBody (st : AStarState) : unit + AStarState :=
  match sortByF (openSet st) with
  | [] => inr st
  | current :: rest =>
      if (collectedGold current =? allGoldMask)
         && has (posKey (nx current) (ny current)) escapeSet
      then inl tt
      else if has (nodeKey current) (avisited st)
      then inr (mkAStar rest (avisited st))
      else
        let visited' := add (nodeKey current) (avisited st) in
        let moves :=
          getValidMoves level (nx current) (ny current) (ndug current) in
        inr (mkAStar (expandNode visited' current moves rest) visited')
  end.

(** How the loop ends: a winning state was popped, or the loop condition
    failed after [iterations] iterations. *)
Inductive SearchEnd : Type :=
| Won
| Stopped (iterations : Z).

Fixpoint astarLoop (iterationsLeft : nat) (iterations : Z) (st : AStarState)
  : SearchEnd :=
  match iterationsLeft with
  | O => Stopped iterations
  | S n =>
      match openSet st with
      | [] => Stopped iterations
      | _ :: _ =>
          match astarBody st with
          | inl _ => Won
          | inr st' => astarLoop n (iterations + 1) st'
          end
      end
  end.

Definition startNode (spawn : Position) : FullNode :=
  let startH :=
    fullHeuristic (px spawn) (py spawn) 0 goldPositions escapePositions in
  let collected :=
    match mapGet (posKey (px spawn) (py spawn)) goldAtPosition with
    | Some spawnGoldIdx => shl1 spawnGoldIdx
    | None => 0
    end in
  mkNode (px spawn) (py spawn) collected [] 0 startH startH.

Definition searchFrom (spawn : Position) (maxIterations : Z) : SolveResult :=
  match astarLoop (Z.to_nat maxIterations) 0
          (mkAStar [startNode spawn] []) with
  | Won => mkSolve true None
  | Stopped iterations =>
      if iterations >=? maxIterations
      then mkSolve false (Some (exceededReason maxIterations))
      else mkSolve false
             (Some "No path found to collect all gold and escape"%string)
  end.

End FullSolver.

Definition canSolveLevelWithin (level : Level) (maxIterations : Z)
  : SolveResult :=
  match getSpawnPosition level with
  | None => mkSolve false (Some "No spawn position"%string)
  | Some spawn =>
      let goldPositions := getGoldPositions level in
      if len goldPositions =? 0
      then mkSolve false (Some "No gold in level"%string)
      else if len goldPositions >? 16 then
        let result := validateLevel level in
        mkSolve (valid result)
          (if valid result then None
           else Some "Too many gold pieces for full solve check"%string)
      else
        let escapePositions := findEscapePositions level in
        if len escapePositions =? 0
        then mkSolve false (Some "No escape positions at top of level"%string)
        else searchFrom level goldPositions escapePositions spawn maxIterations
  end.

(** The default [maxIterations = 100000]. *)
Definition canSolveLevel (level : Level) : SolveResult :=
  canSolveLevelWithin level 100000.

Definition isFullySolvable (level : Level) : bool :=
  solvable (canSolveLevel level).

Example pit_solvable : canSolveLevel pitLevel = mkSolve true None.
Proof. vm_compute. reflexivity. Qed.

Example pit_validation :
  validateLevel pitLevel
  = mkValidation false [mkPos 0 2] [] (Some (mkPos 0 1))
      ["Spawn position (0, 1) has no ground support"%string].
Proof. vm_compute. reflexivity. Qed.

(* ------------------------------------------------------------------ *)
(** ** Structured failures of [canSolveLevel] *)

(** The fixed reasons other than budget exhaustion. *)
Definition fixedReasons : list string :=
  [ "No spawn position"; "No gold in level";
    "Too many gold pieces for full solve check";
    "No escape positions at top of level";
    "No path found to collect all gold and escape" ]%string.

Lemma exceededReason_distinct (maxIterations : Z) :
  ~ In (exceededReason maxIterations) fixedReasons.
Proof.
  unfold exceededReason, fixedReasons. simpl.
  intros [H|[H|[H|[H|[H|[]]]]]]; discriminate H.
Qed.

(** C8. [canSolveLevel] is a total function into [{solvable, reason}] (no
    outcome is an exception).  Without a Spawn it fails with a reason;
    without Gold it fails with a reason; with more than 16 Gold its verdict
    is that of [validateLevel]; otherwise, without escape positions it
    fails with a reason, and when the search loop stops with the iteration
    budget used up it fails with the exhaustion reason, which differs from
    every other reason; when the loop stops earlier on an empty open set it
    fails with the no-path reason, and a popped winning state gives
    [{solvable: true}]. *)
Theorem canSolveLevel_structured (level : Level) (maxIterations : Z) :
  let r := canSolveLevelWithin level maxIterations in
  let gold := getGoldPositions level in
  let escapes := findEscapePositions level in
  (getSpawnPosition level = None ->
     r = mkSolve false (Some "No spawn position"%string)) /\
  (forall spawn, getSpawnPosition level = Some spawn ->
     (len gold = 0 -> r = mkSolve false (Some "No gold in level"%string)) /\
     (16 < len gold ->
        solvable r = valid (validateLevel level) /\
        reason r = if valid (validateLevel level) then None
                   else Some "Too many gold pieces for full solve check"%string) /\
     (0 < len gold <= 16 ->
        (len escapes = 0 ->
           r = mkSolve false (Some "No escape positions at top of level"%string)) /\
        (0 < len escapes ->
           match astarLoop level gold escapes (Z.to_nat maxIterations) 0
                   (mkAStar [startNode gold escapes spawn] []) with
           | Won => r = mkSolve true None
           | Stopped iterations =>
               (maxIterations <= iterations ->
                  r = mkSolve false (Some (exceededReason maxIterations))) /\
               (iterations < maxIterations ->
                  r = mkSolve false
                        (Some "No path found to collect all gold and escape"%string))
           end))) /\
  (solvable r = false -> exists why, reason r = Some why) /\
  ~ In (exceededReason maxIterations) fixedReasons.
Proof.
  cbv zeta. unfold canSolveLevelWithin.
  split; [intros ->; reflexivity|].
  split.
  - intros spawn ->. split; [|split].
    + intros H0. apply Z.eqb_eq in H0. now rewrite H0.
    + intros H16.
      destruct (len (getGoldPositions level) =? 0) eqn:E0;
        [apply Z.eqb_eq in E0; lia|].
      destruct (len (getGoldPositions level) >? 16) eqn:E16;
        [|rewrite Z.gtb_ltb in E16; apply Z.ltb_ge in E16; lia].
      split; reflexivity.
    + intros [Hpos H16].
      destruct (len (getGoldPositions level) =? 0) eqn:E0;
        [apply Z.eqb_eq in E0; lia|].
      destruct (len (getGoldPositions level) >? 16) eqn:E16;
        [rewrite Z.gtb_ltb in E16; apply Z.ltb_lt in E16; lia|].
      split.
      * intros He. apply Z.eqb_eq in He. now rewrite He.
      * intros He.
        destruct (len (findEscapePositions level) =? 0) eqn:Ee;
          [apply Z.eqb_eq in Ee; lia|].
        unfold searchFrom.
        destruct (astarLoop _ _ _ _ _ _) as [|iterations]; [reflexivity|].
        split; intro Hi.
        -- destruct (iterations >=? maxIterations) eqn:Eg; [reflexivity|].
           rewrite Z.geb_leb in Eg. apply Z.leb_gt in Eg. lia.
        -- destruct (iterations >=? maxIterations) eqn:Eg; [|reflexivity].
           rewrite Z.geb_leb in Eg. apply Z.leb_le in Eg. lia.
  - split; [|apply exceededReason_distinct].
    destruct (getSpawnPosition level) as [spawn|]; [|intros _; eexists; reflexivity].
    destruct (len (getGoldPositions level) =? 0); [intros _; eexists; reflexivity|].
    destruct (len (getGoldPositions level) >? 16).
    + simpl. intros ->. eexists; reflexivity.
    + destruct (len (findEscapePositions level) =? 0);
        [intros _; eexists; reflexivity|].
      unfold searchFrom.
      destruct (astarLoop _ _ _ _ _ _) as [|iterations]; [discriminate|].
      destruct (iterations >=? maxIterations); intros _; eexists; reflexivity.
Qed.

(** The search loop stops with the budget used up exactly when it ran
    [maxIterations] iterations. *)
Lemma astarLoop_iterations (level : Level) (gold escapes : list Position) :
  forall (n : nat) (i : Z) (st : AStarState) (j : Z),
    astarLoop level gold escapes n i st = Stopped j ->
    i <= j <= i + Z.of_nat n.
Proof.
  induction n as [|n IH]; intros i st j H; simpl in H.
  - inversion H; subst. lia.
  - destruct (openSet st); [inversion H; subst; lia|].
    destruct (astarBody level gold escapes st) as [|st']; [discriminate|].
    apply IH in H. lia.
Qed.

(** Levels for the edge cases: no spawn, no gold, seventeen gold, a solid
    top row. *)
Definition noSpawnLevel : Level := [ [EMPTY; GOLD]; [SOLID; SOLID] ].
Definition noGoldLevel : Level := [ [EMPTY; SPAWN]; [SOLID; SOLID] ].
Definition seventeenGoldLevel : Level :=
  [ SPAWN :: repeat GOLD 17; repeat SOLID 18 ].
Definition sealedLevel : Level :=
  [ [SOLID; SOLID]; [SPAWN; GOLD]; [SOLID; SOLID] ].

Lemma canSolveLevel_structured_witness :
  canSolveLevelWithin noSpawnLevel 100000
    = mkSolve false (Some "No spawn position"%string) /\
  canSolveLevelWithin noGoldLevel 100000
    = mkSolve false (Some "No gold in level"%string) /\
  solvable (canSolveLevelWithin seventeenGoldLevel 100000)
    = valid (validateLevel seventeenGoldLevel) /\
  canSolveLevelWithin sealedLevel 100000
    = mkSolve false (Some "No escape positions at top of level"%string) /\
  canSolveLevelWithin pitLevel 3
    = mkSolve false (Some (exceededReason 3)).
Proof.
  split.
  { destruct (canSolveLevel_structured noSpawnLevel 100000) as [H _].
    exact (H eq_refl). }
  split.
  { destruct (canSolveLevel_structured noGoldLevel 100000) as [_ [H _]].
    destruct (H (mkPos 1 0) eq_refl) as [H0 _]. exact (H0 eq_refl). }
  split.
  { destruct (canSolveLevel_structured seventeenGoldLevel 100000) as [_ [H _]].
    destruct (H (mkPos 0 0) eq_refl) as [_ [H17 _]].
    assert (L : 16 < len (getGoldPositions seventeenGoldLevel))
      by (vm_compute; reflexivity).
    exact (proj1 (H17 L)). }
  split.
  { destruct (canSolveLevel_structured sealedLevel 100000) as [_ [H _]].
    destruct (H (mkPos 0 1) eq_refl) as [_ [_ Hs]].
    assert (L : 0 < len (getGoldPositions sealedLevel) <= 16)
      by (vm_compute; split; [reflexivity | discriminate]).
    exact (proj1 (Hs L) eq_refl). }
  destruct (canSolveLevel_structured pitLevel 3) as [_ [H _]].
  destruct (H (mkPos 0 1) eq_refl) as [_ [_ Hs]].
  assert (L : 0 < len (getGoldPositions pitLevel) <= 16)
    by (vm_compute; split; [reflexivity | discriminate]).
  pose proof (proj2 (Hs L) eq_refl) as Hrun.
  assert (E : astarLoop pitLevel (getGoldPositions pitLevel)
                (findEscapePositions pitLevel) (Z.to_nat 3) 0
                (mkAStar [startNode (getGoldPositions pitLevel)
                            (findEscapePositions pitLevel) (mkPos 0 1)] [])
              = Stopped 3) by (vm_compute; reflexivity).
  rewrite E in Hrun. apply (proj1 Hrun). lia.
Defined.

(* ------------------------------------------------------------------ *)
(** ** What [validateLevel] decides *)

Lemma partitionGold_spec (reachable : StrSet) (goldPositions : list Position) :
  forall rg ug iss,
    fold_left
      (fun acc gold =>
         let '(rg, ug, iss) := acc in
         if has (posKey (px gold) (py gold)) reachable
         then (rg ++ [gold], ug, iss)
         else (rg, ug ++ [gold], iss ++ [goldIssue gold]))
      goldPositions (rg, ug, iss)
    = (rg ++ filter (fun p => has (posKey (px p) (py p)) reachable) goldPositions,
       ug ++ filter (fun p => negb (has (posKey (px p) (py p)) reachable))
               goldPositions,
       iss ++ map goldIssue
               (filter (fun p => negb (has (posKey (px p) (py p)) reachable))
                  goldPositions)).
Proof.
  induction goldPositions as [|p l IH]; intros rg ug iss; simpl.
  - now rewrite !app_nil_r.
  - destruct (has (posKey (px p) (py p)) reachable); simpl; rewrite IH.
    + now rewrite <- app_assoc.
    + now rewrite <- !app_assoc.
Qed.

Lemma len_zero_nil {A : Type} (l : list A) : (len l =? 0) = true <-> l = [].
Proof.
  unfold len. destruct l; simpl; split; intro H; try reflexivity;
    try discriminate.
Qed.

Lemma filter_negb_nil {A : Type} (p : A -> bool) (l : list A) :
  filter (fun a => negb (p a)) l = [] <-> forall a, In a l -> p a = true.
Proof.
  induction l as [|a l IH]; simpl.
  - split; [intros _ b []|reflexivity].
  - destruct (p a) eqn:E; simpl.
    + rewrite IH. split.
      * intros H b [<-|Hb]; [exact E|now apply H].
      * intros H b Hb. apply H. now right.
    + split; [discriminate|]. intro H.
      specialize (H a (or_introl eq_refl)). congruence.
Qed.

(** [validateLevel(level).valid] holds exactly when the level has a Spawn
    with ground support, at least one Gold, and every Gold is in the
    reachable set computed from the Spawn. *)
Lemma validateLevel_valid_iff (level : Level) :
  valid (validateLevel level) = true <->
  exists spawn,
    getSpawnPosition level = Some spawn /\
    hasGroundSupport level (px spawn) (py spawn) = true /\
    getGoldPositions level <> [] /\
    forall gold, In gold (getGoldPositions level) ->
      has (posKey (px gold) (py gold))
          (getReachablePositions level (px spawn) (py spawn)) = true.
Proof.
  unfold validateLevel.
  destruct (getSpawnPosition level) as [spawn|].
  2:{ simpl. split; [discriminate|]. intros [s [H _]]. discriminate. }
  unfold partitionGold. rewrite partitionGold_spec. simpl.
  set (R := getReachablePositions level (px spawn) (py spawn)).
  set (U := filter (fun p => negb (has (posKey (px p) (py p)) R))
              (getGoldPositions level)).
  assert (Hclimb : hasGroundSupport level (px spawn) (py spawn) = false ->
                   is_tile (getTile level (px spawn) (py spawn)) LADDER
                   || is_tile (getTile level (px spawn) (py spawn)) ROPE = false).
  { unfold hasGroundSupport.
    destruct (is_tile (getTile level (px spawn) (py spawn)) LADDER
              || is_tile (getTile level (px spawn) (py spawn)) ROPE);
      [discriminate|reflexivity]. }
  rewrite andb_true_iff, !len_zero_nil. split.
  - intros [HU Hiss]. exists spawn. split; [reflexivity|].
    destruct (hasGroundSupport level (px spawn) (py spawn)) eqn:Hs; simpl in Hiss.
    + split; [reflexivity|].
      destruct (len (getGoldPositions level) =? 0) eqn:Hg.
      * simpl in Hiss. discriminate.
      * split.
        -- intro Hn. rewrite Hn in Hg. discriminate.
        -- apply filter_negb_nil. exact HU.
    + rewrite (Hclimb eq_refl) in Hiss. simpl in Hiss.
      destruct (len (getGoldPositions level) =? 0); discriminate.
  - intros [s [Hs [Hsup [Hgold Hall]]]]. inversion Hs; subst s.
    assert (HU : U = []) by (apply filter_negb_nil; exact Hall).
    split; [exact HU|]. rewrite HU, Hsup. simpl.
    destruct (len (getGoldPositions level) =? 0) eqn:Hg; [|reflexivity].
    apply len_zero_nil in Hg. contradiction.
Qed.

(* ------------------------------------------------------------------ *)
(** ** Full solvability versus basic validity *)

(** C2 as stated fails: in [pitLevel] the Spawn hangs in mid-air above the
    Gold; the solver lets it fall, collect and climb out, while
    [validateLevel] records the missing ground support as an issue. *)
Lemma fullySolvable_not_valid :
  ~ (forall level : Level,
       isFullySolvable level = true -> valid (validateLevel level) = true).
Proof.
  intro H. specialize (H pitLevel).
  assert (E1 : isFullySolvable pitLevel = true) by (vm_compute; reflexivity).
  assert (E2 : valid (validateLevel pitLevel) = false) by (vm_compute; reflexivity).
  rewrite (H E1) in E2. discriminate.
Qed.

(** C2, amended.  A fully solvable grid has a Spawn and at least one Gold;
    with more than 16 Gold it is valid for [validateLevel]; with at most 16
    it has an escape position, and it is valid for [validateLevel] exactly
    when, in addition, the Spawn has ground support and every Gold is in
    the reachable set from the Spawn. *)
Theorem fullySolvable_implies (level : Level) :
  isFullySolvable level = true ->
  exists spawn,
    getSpawnPosition level = Some spawn /\
    getGoldPositions level <> [] /\
    (16 < len (getGoldPositions level) -> valid (validateLevel level) = true) /\
    (len (getGoldPositions level) <= 16 ->
       findEscapePositions level <> [] /\
       (valid (validateLevel level) = true <->
        hasGroundSupport level (px spawn) (py spawn) = true /\
        forall gold, In gold (getGoldPositions level) ->
          has (posKey (px gold) (py gold))
              (getReachablePositions level (px spawn) (py spawn)) = true)).
Proof.
  unfold isFullySolvable, canSolveLevel, canSolveLevelWithin.
  destruct (getSpawnPosition level) as [spawn|] eqn:Hsp; [|discriminate].
  destruct (len (getGoldPositions level) =? 0) eqn:Hg0; [discriminate|].
  assert (Hgold : getGoldPositions level <> []).
  { intro Hn. rewrite Hn in Hg0. discriminate. }
  intro Hsolv. exists spawn. split; [reflexivity|]. split; [exact Hgold|].
  destruct (len (getGoldPositions level) >? 16) eqn:Hg16.
  - simpl in Hsolv. split; [intros _; exact Hsolv|].
    rewrite Z.gtb_ltb in Hg16. apply Z.ltb_lt in Hg16. lia.
  - rewrite Z.gtb_ltb in Hg16. apply Z.ltb_ge in Hg16.
    split; [lia|]. intros _.
    destruct (len (findEscapePositions level) =? 0) eqn:He; [discriminate|].
    split.
    + intro Hn. rewrite Hn in He. discriminate.
    + rewrite validateLevel_valid_iff. split.
      * intros [s [Hs [Hsup [_ Hall]]]]. rewrite Hsp in Hs.
        inversion Hs; subst s. now split.
      * intros [Hsup Hall]. exists spawn. now repeat split.
Qed.

Lemma fullySolvable_implies_witness :
  exists spawn,
    getSpawnPosition pitLevel = Some spawn /\
    getGoldPositions pitLevel <> [].
Proof.
  assert (E : isFullySolvable pitLevel = true) by (vm_compute; reflexivity).
  destruct (fullySolvable_implies pitLevel E) as [spawn [Hs [Hg _]]].
  exists spawn. split; assumption.
Defined.

(* ------------------------------------------------------------------ *)
(** ** The identity of a visited state *)

(** The entries that the first [n] iterations expanded (popped and not
    pruned), in order. *)
Fixpoint bfsExpanded (level : Level) (n : nat) (st : BfsState) : list QState :=
  match n with
  | O => []
  | S k =>
      match queue st with
      | [] => []
      | current :: _ =>
          (if has (posKey (qx current) (qy current)) (visited st)
           then [] else [current])
            ++ bfsExpanded level k (bfsBody level st)
      end
  end.

(** Two queue entries with the same full identity: the same position and
    the same dug-set. *)
Definition sameIdentity (a b : QState) : Prop :=
  qx a = qx b /\ qy a = qy b /\ forall k, has k (qdug a) = has k (qdug b).

(** The reading of C4 for the breadth-first search: whenever the entry at
    the head of the queue is pruned, an entry with the same position and
    the same dug-set was expanded before. *)
Definition prunedOnlyOnFullIdentity (level : Level) (startX startY : Z) : Prop :=
  forall (n : nat) (current : QState) (rest : list QState),
    let st := Nat.iter n (bfsBody level) (bfsInit startX startY) in
    queue st = current :: rest ->
    has (posKey (qx current) (qy current)) (visited st) = true ->
    exists e, In e (bfsExpanded level n (bfsInit startX startY))
              /\ sameIdentity e current.

(** A spawn on two bricks: the search can step right or dig right.
<<
    M.
    bb
>> *)
Definition digLevel : Level := [ [SPAWN; EMPTY]; [BRICK; BRICK] ].

Example digLevel_trace :
  let st2 := Nat.iter 2 (bfsBody digLevel) (bfsInit 0 0) in
  bfsExpanded digLevel 2 (bfsInit 0 0) = [mkQ 0 0 []; mkQ 1 0 []] /\
  queue st2 = [mkQ 1 0 ["1,1"%string]] /\
  bfsBody digLevel st2 = mkBfs [] (visited st2) (reachable st2) /\
  In (mkMove 1 1 None) (getValidMoves digLevel 1 0 ["1,1"%string]) /\
  has (posKey 1 1) (getReachablePositions digLevel 0 0) = false.
Proof. vm_compute. repeat split; auto. Qed.

(** C4 as stated fails: in [digLevel] the entry at [(1,0)] that carries the
    dug-set [{"1,1"}] is pruned because [(1,0)] was expanded with the empty
    dug-set; no entry with its dug-set was ever expanded. *)
Lemma bfs_prunes_on_position_alone : ~ prunedOnlyOnFullIdentity digLevel 0 0.
Proof.
  intro H.
  destruct (H 2%nat (mkQ 1 0 ["1,1"%string]) [] eq_refl eq_refl)
    as [e [Hin [_ [_ Hdug]]]].
  specialize (Hdug "1,1"%string).
  vm_compute in Hin.
  destruct Hin as [<-|[<-|[]]]; vm_compute in Hdug; discriminate.
Qed.

Lemma bfsBody_visited_mono (level : Level) (st : BfsState) (k : string) :
  has k (visited st) = true -> has k (visited (bfsBody level st)) = true.
Proof.
  intro H. unfold bfsBody. destruct (queue st) as [|c rest]; [exact H|].
  destruct (has (posKey (qx c) (qy c)) (visited st)); simpl; [exact H|].
  now apply has_add_mono.
Qed.

Lemma bfsBody_marks (level : Level) (st : BfsState) (c : QState)
    (rest : list QState) :
  queue st = c :: rest ->
  has (posKey (qx c) (qy c)) (visited (bfsBody level st)) = true.
Proof.
  intro Hq. unfold bfsBody. rewrite Hq.
  destruct (has (posKey (qx c) (qy c)) (visited st)) eqn:E; simpl;
    [exact E|apply has_add_same].
Qed.

Lemma bfsIter_visited_mono (level : Level) (k : string) :
  forall (d : nat) (st : BfsState),
    has k (visited st) = true ->
    has k (visited (Nat.iter d (bfsBody level) st)) = true.
Proof.
  induction d as [|d IH]; intros st H; simpl; [exact H|].
  apply bfsBody_visited_mono. now apply IH.
Qed.

Section SolverIdentity.

Variable level : Level.
Variable goldPositions escapePositions : list Position.

(** [d] further iterations of the solver loop, unless a winning state is
    popped on the way. *)
Fixpoint astarRun (d : nat) (st : AStarState) : option AStarState :=
  match d with
  | O => Some st
  | S k =>
      match astarBody level goldPositions escapePositions st with
      | inl _ => None
      | inr st' => astarRun k st'
      end
  end.

Lemma astarBody_visited_mono (st st' : AStarState) (k : string) :
  astarBody level goldPositions escapePositions st = inr st' ->
  has k (avisited st) = true -> has k (avisited st') = true.
Proof.
  unfold astarBody. intros Hb H.
  destruct (sortByF (openSet st)) as [|c rest].
  - inversion Hb; subst. exact H.
  - destruct (_ && _); [discriminate|].
    destruct (has (nodeKey c) (avisited st)); inversion Hb; subst; simpl;
      [exact H|now apply has_add_mono].
Qed.

Lemma astarRun_visited_mono (k : string) :
  forall (d : nat) (st st' : AStarState),
    astarRun d st = Some st' ->
    has k (avisited st) = true -> has k (avisited st') = true.
Proof.
  induction d as [|d IH]; intros st st' Hr H; simpl in Hr.
  - inversion Hr; subst. exact H.
  - destruct (astarBody level goldPositions escapePositions st) as [|st1] eqn:Hb;
      [discriminate|].
    eapply IH; [exact Hr|]. eapply astarBody_visited_mono; eassumption.
Qed.

(** Once a node has been popped without winning, any node popped later
    with the same position and the same gold mask is dropped without
    being expanded, whatever its dug-set. *)
Lemma astar_pruned_on_position_and_mask
    (st st1 st' : AStarState) (a b : FullNode) (resta restb : list FullNode)
    (d : nat) :
  sortByF (openSet st) = a :: resta ->
  astarBody level goldPositions escapePositions st = inr st1 ->
  astarRun d st1 = Some st' ->
  sortByF (openSet st') = b :: restb ->
  nx b = nx a -> ny b = ny a -> collectedGold b = collectedGold a ->
  astarBody level goldPositions escapePositions st'
  = inr (mkAStar restb (avisited st')).
Proof.
  intros Ha Hb Hrun Hb' Hx Hy Hc.
  assert (Hkey : nodeKey b = nodeKey a)
    by (unfold nodeKey; now rewrite Hx, Hy, Hc).
  unfold astarBody in Hb. rewrite Ha in Hb.
  destruct ((collectedGold a =? _) && has (posKey (nx a) (ny a)) _) eqn:Hwin;
    [discriminate|].
  assert (Hvis : has (nodeKey a) (avisited st1) = true).
  { destruct (has (nodeKey a) (avisited st)) eqn:E; inversion Hb; subst; simpl;
      [exact E|apply has_add_same]. }
  unfold astarBody. rewrite Hb', Hx, Hy, Hc, Hwin, Hkey.
  now rewrite (astarRun_visited_mono _ d st1 Hrun Hvis).
Qed.

End SolverIdentity.

(** C4, amended.  The visited key of [getReachablePositions] is the position
    alone, and the visited key of [canSolveLevel] is the position with the
    collected-gold bitmask; the dug-set is carried in each state and used
    to generate its moves, but it is not part of either key.  So an entry
    popped after its position (or position and mask) has already been
    popped is dropped without being expanded, whatever dug-set it
    carries. *)
Theorem visited_identity_without_dug_set
    (level : Level) (goldPositions escapePositions : list Position) :
  (forall (st : BfsState) (a b : QState) (resta restb : list QState) (d : nat),
     queue st = a :: resta ->
     let st' := Nat.iter d (bfsBody level) (bfsBody level st) in
     queue st' = b :: restb ->
     qx b = qx a -> qy b = qy a ->
     bfsBody level st' = mkBfs restb (visited st') (reachable st')) /\
  (forall (st st1 st' : AStarState) (a b : FullNode)
          (resta restb : list FullNode) (d : nat),
     sortByF (openSet st) = a :: resta ->
     astarBody level goldPositions escapePositions st = inr st1 ->
     astarRun level goldPositions escapePositions d st1 = Some st' ->
     sortByF (openSet st') = b :: restb ->
     nx b = nx a -> ny b = ny a -> collectedGold b = collectedGold a ->
     astarBody level goldPositions escapePositions st'
     = inr (mkAStar restb (avisited st'))).
Proof.
  split.
  - intros st a b resta restb d Ha st' Hb Hx Hy.
    assert (Hvis : has (posKey (qx b) (qy b)) (visited st') = true).
    { rewrite Hx, Hy. apply bfsIter_visited_mono.
      eapply bfsBody_marks; exact Ha. }
    unfold bfsBody at 1. rewrite Hb, Hvis. reflexivity.
  - intros st st1 st' a b resta restb d Ha Hb Hrun Hb' Hx Hy Hc.
    eapply astar_pruned_on_position_and_mask;
      [exact Ha|exact Hb|exact Hrun|exact Hb'|exact Hx|exact Hy|exact Hc].
Qed.

(** Two open nodes at [(1,0)] with the same gold mask and different
    dug-sets. *)
Definition twinNodes : AStarState :=
  mkAStar [ mkNode 1 0 0 [] 0 0 0; mkNode 1 0 0 ["1,1"%string] 0 0 0 ] [].

Lemma visited_identity_without_dug_set_witness :
  bfsBody digLevel (Nat.iter 2 (bfsBody digLevel) (bfsInit 0 0))
  = mkBfs [] ["0,0"; "1,0"]%string ["0,0"; "1,0"]%string /\
  forall st1,
    astarBody digLevel [mkPos 5 5] [mkPos 9 9] twinNodes = inr st1 ->
    exists rest,
      astarBody digLevel [mkPos 5 5] [mkPos 9 9] st1
      = inr (mkAStar rest ["1,0,0"%string]).
Proof.
  destruct (visited_identity_without_dug_set digLevel [mkPos 5 5] [mkPos 9 9])
    as [Hbfs Hastar].
  split.
  - exact (Hbfs (bfsBody digLevel (bfsInit 0 0))
             (mkQ 1 0 []) (mkQ 1 0 ["1,1"%string])
             [mkQ 1 0 ["1,1"%string]] [] 0%nat eq_refl eq_refl
             eq_refl eq_refl).
  - intros st1 Hst1.
    assert (E : astarBody digLevel [mkPos 5 5] [mkPos 9 9] twinNodes
                = inr (mkAStar
                         [ mkNode 1 0 0 ["1,1"%string] 0 0 0;
                           mkNode 0 0 0 [] 1 18 19;
                           mkNode 0 0 0 ["0,1"%string] 1 18 19 ]
                         ["1,0,0"%string]))
      by (vm_compute; reflexivity).
    rewrite E in Hst1. inversion Hst1; subst st1. clear Hst1.
    eexists.
    exact (Hastar twinNodes _ _
             (mkNode 1 0 0 [] 0 0 0) (mkNode 1 0 0 ["1,1"%string] 0 0 0)
             [mkNode 1 0 0 ["1,1"%string] 0 0 0] _ 0%nat
             eq_refl E eq_refl eq_refl eq_refl eq_refl eq_refl).
Defined.

(* ------------------------------------------------------------------ *)
(** ** markovGenerator.ts: training *)

(** [MarkovContext] *)
Record MarkovContext : Type := mkContext {
  above : option TileChar; left : option TileChar; aboveLeft : option TileChar }.

(** [`${context.above ?? 'X'}|${context.left ?? 'X'}|${context.aboveLeft ?? 'X'}`] *)
Definition orX (o : option TileChar) : ascii :=
  match o with Some t => tile_char t | None => "X"%char end.

Definition getContextKey (context : MarkovContext) : string :=
  String (orX (above context))
    (String "|" (String (orX (left context))
       (String "|" (String (orX (aboveLeft context)) EmptyString)))).

Definition getContext (level : Level) (x y : Z) : MarkovContext :=
  mkContext (getTile level x (y - 1)) (getTile level (x - 1) y)
            (getTile level (x - 1) (y - 1)).

(** [Map<TileChar, number>] and [Map<ContextKey, Map<TileChar, number>>] in
    insertion order.  While counting, the numbers are integers ([Z]); after
    normalisation they are probabilities, idealised as rationals ([Q]). *)
Definition TileMap (N : Type) : Type := list (TileChar * N).
Definition Transitions (N : Type) : Type := list (string * TileMap N).

Fixpoint tmGet {N : Type} (t : TileChar) (m : TileMap N) : option N :=
  match m with
  | [] => None
  | (u, v) :: m' => if tile_eqb t u then Some v else tmGet t m'
  end.

Fixpoint tmSet {N : Type} (t : TileChar) (v : N) (m : TileMap N) : TileMap N :=
  match m with
  | [] => [(t, v)]
  | (u, w) :: m' => if tile_eqb t u then (u, v) :: m' else (u, w) :: tmSet t v m'
  end.

Fixpoint trGet {N : Type} (k : string) (m : Transitions N) : option (TileMap N) :=
  match m with
  | [] => None
  | (j, v) :: m' => if String.eqb k j then Some v else trGet k m'
  end.

Fixpoint trSet {N : Type} (k : string) (v : TileMap N) (m : Transitions N)
  : Transitions N :=
  match m with
  | [] => [(k, v)]
  | (j, w) :: m' => if String.eqb k j then (j, v) :: m' else (j, w) :: trSet k v m'
  end.

(** The body of the counting loop: create the inner map when the key is
    new, then [tileMap.set(tile, (tileMap.get(tile) || 0) + 1)] on the
    inner map held by the table. *)
Definition observe (contextKey : string) (tile : TileChar)
    (transitions : Transitions Z) : Transitions Z :=
  let tileMap :=
    match trGet contextKey transitions with Some m => m | None => [] end in
  let count := match tmGet tile tileMap with Some c => c | None => 0 end in
  trSet contextKey (tmSet tile (count + 1) tileMap) transitions.

(** The two [for] loops over one normalised level. *)
Definition countLevel (normalized : Level) (transitions : Transitions Z)
  : Transitions Z :=
  fold_left
    (fun tr yrow =>
       fold_left
         (fun tr' xtile =>
            observe (getContextKey (getContext normalized (fst xtile) (fst yrow)))
                    (snd xtile) tr')
         (indexed 0 (snd yrow)) tr)
    (indexed 0 normalized) transitions.

Definition countLevels (levels : list Level) : Transitions Z :=
  fold_left (fun tr level => countLevel (normalizeLevel level) tr) levels [].

Definition total (tileMap : TileMap Z) : Z :=
  fold_left (fun acc tc => acc + snd tc) tileMap 0.

(** [count / total] for every tile of a row, as the exact quotient; what
    the code stores is the double nearest to it. *)
Definition normalizeCounts (tileMap : TileMap Z) : TileMap Q :=
  map (fun tc => (fst tc, (inject_Z (snd tc) / inject_Z (total tileMap))%Q))
      tileMap.

(** [train]: [this.transitions.clear()] discards the table held before;
    then count, then normalise. *)
Definition train (previous : Transitions Q) (levels : list Level)
  : Transitions Q :=
  map (fun kv => (fst kv, normalizeCounts (snd kv))) (countLevels levels).

(** The offline training script: [flipLevelHorizontal] and [augmentLevels]. *)
Definition flipLevelHorizontal (level : Level) : Level := map (@rev TileChar) level.

Definition augmentLevels (levels : list Level) : list Level :=
  flat_map (fun level => [level; flipLevelHorizontal level]) levels.




(* ------------------------------------------------------------------ *)
(** ** What [train] computes *)

(** The observations of a normalised level: for every cell in row-major
    order, its context key and its tile. *)
Definition cellsOf (normalized : Level) : list (string * TileChar) :=
  flat_map
    (fun yrow =>
       map (fun xtile =>
              (getContextKey (getContext normalized (fst xtile) (fst yrow)),
               snd xtile))
           (indexed 0 (snd yrow)))
    (indexed 0 normalized).

Definition observations (levels : list Level) : list (string * TileChar) :=
  flat_map (fun level => cellsOf (normalizeLevel level)) levels.

(** How often tile [t] was seen in context [k], and how often [k] was seen. *)
Definition occurrences (k : string) (t : TileChar)
    (obs : list (string * TileChar)) : Z :=
  len (filter (fun o => String.eqb k (fst o) && tile_eqb t (snd o)) obs).

Definition keyOccurrences (k : string) (obs : list (string * TileChar)) : Z :=
  len (filter (fun o => String.eqb k (fst o)) obs).


Lemma fold_left_flat_map {A B C : Type} (f : A -> C -> A) (g : B -> list C) :
  forall (l : list B) (a : A),
    fold_left f (flat_map g l) a = fold_left (fun a' b => fold_left f (g b) a') l a.
Proof.
  induction l as [|b l IH]; intro a; simpl; [reflexivity|].
  now rewrite fold_left_app, IH.
Qed.

Lemma fold_left_map {A B C : Type} (f : A -> C -> A) (g : B -> C) :
  forall (l : list B) (a : A),
    fold_left f (map g l) a = fold_left (fun a' b => f a' (g b)) l a.
Proof. induction l as [|b l IH]; intro a; simpl; [reflexivity|apply IH]. Qed.

Lemma fold_left_ext_eq {A B : Type} (f g : A -> B -> A) :
  (forall a b, f a b = g a b) ->
  forall (l : list B) (a : A), fold_left f l a = fold_left g l a.
Proof.
  intros H. induction l as [|b l IH]; intro a; simpl; [reflexivity|].
  now rewrite H, IH.
Qed.

Lemma countLevel_cells (normalized : Level) (tr : Transitions Z) :
  countLevel normalized tr
  = fold_left (fun tr' o => observe (fst o) (snd o) tr') (cellsOf normalized) tr.
Proof.
  unfold countLevel, cellsOf. rewrite fold_left_flat_map.
  apply fold_left_ext_eq. intros a b. now rewrite fold_left_map.
Qed.

Lemma countLevels_observations (levels : list Level) :
  countLevels levels
  = fold_left (fun tr o => observe (fst o) (snd o) tr) (observations levels) [].
Proof.
  unfold countLevels, observations. rewrite fold_left_flat_map.
  apply fold_left_ext_eq. intros a b. apply countLevel_cells.
Qed.

Lemma trGet_trSet {N : Type} (k j : string) (v : TileMap N) (m : Transitions N) :
  trGet k (trSet j v m) = if String.eqb k j then Some v else trGet k m.
Proof.
  induction m as [|[i w] m IH]; simpl.
  - reflexivity.
  - destruct (String.eqb j i) eqn:Eji; simpl.
    + apply String.eqb_eq in Eji. subst i.
      destruct (String.eqb k j); reflexivity.
    + destruct (String.eqb k i) eqn:Eki.
      * apply String.eqb_eq in Eki. subst i.
        rewrite String.eqb_sym in Eji. now rewrite Eji.
      * exact IH.
Qed.

Lemma tmGet_tmSet {N : Type} (t u : TileChar) (v : N) (m : TileMap N) :
  tmGet t (tmSet u v m) = if tile_eqb t u then Some v else tmGet t m.
Proof.
  induction m as [|[i w] m IH]; simpl.
  - reflexivity.
  - destruct (tile_eqb u i) eqn:Eui; simpl.
    + apply tile_eqb_eq in Eui. subst i.
      destruct (tile_eqb t u); reflexivity.
    + destruct (tile_eqb t i) eqn:Eti.
      * apply tile_eqb_eq in Eti. subst i.
        destruct (tile_eqb t u) eqn:Etu; [|reflexivity].
        apply tile_eqb_eq in Etu. subst u. rewrite tile_eqb_refl in Eui.
        discriminate.
      * exact IH.
Qed.

Lemma total_shift (m : TileMap Z) :
  forall a, fold_left (fun acc tc => acc + snd tc) m a = a + total m.
Proof.
  unfold total. induction m as [|[u w] m IH]; intro a; simpl; [lia|].
  rewrite IH, (IH w). lia.
Qed.

Lemma total_cons (u : TileChar) (w : Z) (m : TileMap Z) :
  total ((u, w) :: m) = w + total m.
Proof. unfold total at 1. simpl. apply total_shift. Qed.

Lemma total_tmSet (t : TileChar) (v : Z) (m : TileMap Z) :
  total (tmSet t v m)
  = total m - match tmGet t m with Some c => c | None => 0 end + v.
Proof.
  induction m as [|[u w] m IH]; simpl.
  - rewrite total_cons. unfold total. simpl. lia.
  - destruct (tile_eqb t u); rewrite !total_cons; [lia|]. rewrite IH. lia.
Qed.

(** The counting table after the observations [obs]. *)
Definition represents (tr : Transitions Z) (obs : list (string * TileChar))
  : Prop :=
  forall k,
    match trGet k tr with
    | None => keyOccurrences k obs = 0
    | Some tm =>
        0 < keyOccurrences k obs /\
        total tm = keyOccurrences k obs /\
        forall t, tmGet t tm
                  = if occurrences k t obs =? 0 then None
                    else Some (occurrences k t obs)
    end.

Lemma occurrences_snoc (k j : string) (t u : TileChar)
    (obs : list (string * TileChar)) :
  occurrences k t (obs ++ [(j, u)])
  = occurrences k t obs + (if String.eqb k j && tile_eqb t u then 1 else 0).
Proof.
  unfold occurrences, len. rewrite filter_app, length_app. simpl.
  destruct (String.eqb k j && tile_eqb t u); simpl; lia.
Qed.

Lemma keyOccurrences_snoc (k j : string) (u : TileChar)
    (obs : list (string * TileChar)) :
  keyOccurrences k (obs ++ [(j, u)])
  = keyOccurrences k obs + (if String.eqb k j then 1 else 0).
Proof.
  unfold keyOccurrences, len. rewrite filter_app, length_app. simpl.
  destruct (String.eqb k j); simpl; lia.
Qed.

Lemma occurrences_nonneg (k : string) (t : TileChar)
    (obs : list (string * TileChar)) : 0 <= occurrences k t obs.
Proof. unfold occurrences, len. lia. Qed.

Lemma keyOccurrences_nonneg (k : string) (obs : list (string * TileChar)) :
  0 <= keyOccurrences k obs.
Proof. unfold keyOccurrences, len. lia. Qed.

Lemma represents_observe (tr : Transitions Z) (obs : list (string * TileChar))
    (j : string) (u : TileChar) :
  represents tr obs -> represents (observe j u tr) (obs ++ [(j, u)]).
Proof.
  intros R k. unfold observe. rewrite trGet_trSet, keyOccurrences_snoc.
  pose proof (keyOccurrences_nonneg k obs) as Hk.
  destruct (String.eqb k j) eqn:Ekj.
  - apply String.eqb_eq in Ekj. subst j.
    specialize (R k). split; [lia|]. split.
    + rewrite total_tmSet.
      destruct (trGet k tr) as [tm|].
      * destruct R as [_ [Ht Hg]]. rewrite Hg.
        pose proof (occurrences_nonneg k u obs).
        destruct (occurrences k u obs =? 0) eqn:E0; [apply Z.eqb_eq in E0|]; lia.
      * unfold total. simpl. lia.
    + intro t. rewrite tmGet_tmSet, occurrences_snoc, String.eqb_refl. simpl.
      pose proof (occurrences_nonneg k t obs) as Ho.
      destruct (tile_eqb t u) eqn:Etu.
      * apply tile_eqb_eq in Etu. subst u.
        destruct (occurrences k t obs + 1 =? 0) eqn:E1;
          [apply Z.eqb_eq in E1; lia|].
        f_equal.
        destruct (trGet k tr) as [tm|].
        -- destruct R as [_ [_ Hg]]. rewrite Hg.
           destruct (occurrences k t obs =? 0) eqn:E0;
             [apply Z.eqb_eq in E0; lia|lia].
        -- simpl. unfold occurrences, keyOccurrences, len in *.
           assert (Hle : (List.length
                     (filter (fun o => String.eqb k (fst o) && tile_eqb t (snd o)) obs)
                   <= List.length (filter (fun o => String.eqb k (fst o)) obs))%nat).
           { clear. induction obs as [|[a b] obs IH]; simpl; [lia|].
             destruct (String.eqb k a); simpl; [|exact IH].
             destruct (tile_eqb t b); simpl; lia. }
           lia.
      * rewrite Z.add_0_r.
        destruct (trGet k tr) as [tm|].
        -- destruct R as [_ [_ Hg]]. apply Hg.
        -- simpl. unfold occurrences, keyOccurrences, len in *.
           assert (Hle : (List.length
                     (filter (fun o => String.eqb k (fst o) && tile_eqb t (snd o)) obs)
                   <= List.length (filter (fun o => String.eqb k (fst o)) obs))%nat).
           { clear. induction obs as [|[a b] obs IH]; simpl; [lia|].
             destruct (String.eqb k a); simpl; [|exact IH].
             destruct (tile_eqb t b); simpl; lia. }
           destruct (Z.of_nat _ =? 0) eqn:E0; [reflexivity|].
           apply Z.eqb_neq in E0. lia.
  - rewrite Z.add_0_r. specialize (R k).
    destruct (trGet k tr) as [tm|]; [|exact R].
    destruct R as [Hpos [Ht Hg]]. repeat split; try assumption.
    intro t. rewrite occurrences_snoc, Ekj. simpl. rewrite Z.add_0_r. apply Hg.
Qed.

Lemma represents_fold (obs2 : list (string * TileChar)) :
  forall (tr : Transitions Z) (obs1 : list (string * TileChar)),
    represents tr obs1 ->
    represents (fold_left (fun tr' o => observe (fst o) (snd o) tr') obs2 tr)
               (obs1 ++ obs2).
Proof.
  induction obs2 as [|[j u] obs2 IH]; intros tr obs1 R; simpl.
  - now rewrite app_nil_r.
  - replace (obs1 ++ (j, u) :: obs2) with ((obs1 ++ [(j, u)]) ++ obs2)
      by (now rewrite <- app_assoc).
    apply IH. now apply represents_observe.
Qed.

Lemma countLevels_represents (levels : list Level) :
  represents (countLevels levels) (observations levels).
Proof.
  rewrite countLevels_observations.
  apply (@represents_fold (observations levels) [] []).
  intro k. reflexivity.
Qed.

Lemma trGet_map_normalize (k : string) (tr : Transitions Z) :
  trGet k (map (fun kv => (fst kv, normalizeCounts (snd kv))) tr)
  = option_map normalizeCounts (trGet k tr).
Proof.
  induction tr as [|[j tm] tr IH]; simpl; [reflexivity|].
  destruct (String.eqb k j); [reflexivity|exact IH].
Qed.

Lemma tmGet_scaled (t : TileChar) (d : Z) (tm : TileMap Z) :
  tmGet t (map (fun tc => (fst tc, (inject_Z (snd tc) / inject_Z d)%Q)) tm)
  = option_map (fun c => (inject_Z c / inject_Z d)%Q) (tmGet t tm).
Proof.
  induction tm as [|[u w] tm IH]; simpl; [reflexivity|].
  destruct (tile_eqb t u); [reflexivity|exact IH].
Qed.




(* ------------------------------------------------------------------ *)
(** ** Exceptions, random draws and in-place writes *)

(** The outcome of a call that may throw. *)
Inductive outcome (A : Type) : Type :=
| Ok (a : A)
| Throw (e : string).
Arguments Ok {A} a.
Arguments Throw {A} e.

Definition bind {A B : Type} (m : outcome A) (k : A -> outcome B) : outcome B :=
  match m with Ok a => k a | Throw e => Throw e end.

Notation "x <- m ;; k" := (bind m (fun x => k))
  (at level 61, m at next level, right associativity).

Fixpoint foldM {A B : Type} (body : A -> B -> outcome A) (l : list B) (a : A)
  : outcome A :=
  match l with
  | [] => Ok a
  | b :: l' => a' <- body a b ;; foldM body l' a'
  end.

(** A loop whose body keeps an invariant indexed by the iteration count
    neither throws nor loses the invariant. *)
Lemma foldM_invariant {A B : Type} (body : A -> B -> outcome A)
    (P : nat -> A -> Prop) :
  forall (l : list B) (i : nat) (a : A),
    (forall j a0 b, nth_error l j = Some b -> P (i + j)%nat a0 ->
       exists a1, body a0 b = Ok a1 /\ P (S (i + j)) a1) ->
    P i a ->
    exists a', foldM body l a = Ok a' /\ P (i + List.length l)%nat a'.
Proof.
  induction l as [|b l IH]; intros i a Hstep Ha; simpl.
  - exists a. rewrite Nat.add_0_r. now split.
  - destruct (Hstep 0%nat a b eq_refl) as [a1 [E1 P1]].
    { now rewrite Nat.add_0_r. }
    rewrite E1. simpl. rewrite Nat.add_0_r in P1.
    destruct (IH (S i) a1) as [a' [E' P']].
    + intros j a0 b0 Hj Pj.
      replace (S (S i + j)) with (S (i + S j)) by lia.
      apply (Hstep (S j) a0 b0 Hj).
      now rewrite Nat.add_succ_r.
    + exact P1.
    + exists a'. split; [exact E'|]. now rewrite Nat.add_succ_r.
Qed.

(** A random source ([rng] or [Math.random]) is a stream of draws; the
    number of draws made so far is threaded through the code. *)
Definition Rng : Type := nat -> Q.

(* ------------------------------------------------------------------ *)
(** ** Double-precision arithmetic *)

From Stdlib Require Import Qpower Lqa.

(** A JavaScript number is an IEEE 754 double; a finite one is a rational,
    and the result of an arithmetic operation, or the value of a decimal
    literal, is the exact result rounded to the nearest double, ties going
    to the even significand.  (Overflow to [Infinity] is not modelled: the
    numbers of the generator are sums of probabilities and products of a
    draw with a small count.) *)

(** The exponent [e] with [2^e <= q < 2^(e+1)], for [q > 0]: the logarithms
    of numerator and denominator bracket it within one. *)
Definition exponentOf (q : Q) : Z :=
  let e0 := Z.log2 (Qnum q) - Z.log2 (Zpos (Qden q)) in
  if Qle_bool (2 ^ e0) q then e0 else e0 - 1.

(** The spacing of the doubles around [q]: 52 bits below the exponent, the
    exponent of a subnormal being that of the smallest normal number. *)
Definition ulp (q : Q) : Q := (2 ^ (Z.max (exponentOf q) (-1022) - 52))%Q.

(** The integer nearest to [m], the even one of the two at a tie. *)
Definition nearestEven (m : Q) : Z :=
  let f := Qfloor m in
  match Qcompare (m - inject_Z f) (1 # 2) with
  | Lt => f
  | Gt => f + 1
  | Eq => if Z.even f then f else f + 1
  end.

Definition roundPositive (q : Q) : Q :=
  (inject_Z (nearestEven (q / ulp q)) * ulp q)%Q.

Definition roundDouble (q : Q) : Q :=
  match Qcompare q 0 with
  | Eq => 0%Q
  | Gt => roundPositive q
  | Lt => (- roundPositive (- q))%Q
  end.

(** The doubles that the literals [0.5] to [0.95] of the code denote. *)
Definition lit_0_5 : Q := 1 # 2.
Definition lit_0_6 : Q := 5404319552844595 # 9007199254740992.
Definition lit_0_7 : Q := 3152519739159347 # 4503599627370496.
Definition lit_0_8 : Q := 3602879701896397 # 4503599627370496.
Definition lit_0_9 : Q := 8106479329266893 # 9007199254740992.
Definition lit_0_95 : Q := 4278419646001971 # 4503599627370496.

Example literals_are_rounded :
  map (fun q => Qred (roundDouble q))
      [5 # 10; 6 # 10; 7 # 10; 8 # 10; 9 # 10; 95 # 100]
  = [lit_0_5; lit_0_6; lit_0_7; lit_0_8; lit_0_9; lit_0_95].
Proof. vm_compute. reflexivity. Qed.

(** Roundings to the nearest double below and above, ties to the even
    significand ([2^53 + 1] and [2^53 + 3]), a negative number, and a
    number that is a double. *)
Example roundDouble_values :
  map (fun q => Qred (roundDouble q))
      [1 # 3; 1 # 10; 9007199254740993 # 1; 9007199254740995 # 1;
       (-1) # 3; 3 # 4]
  = [6004799503160661 # 18014398509481984;
     3602879701896397 # 36028797018963968;
     9007199254740992 # 1; 9007199254740996 # 1;
     (-6004799503160661) # 18014398509481984; 3 # 4].
Proof. vm_compute. reflexivity. Qed.

(** The largest double below 1: a draw of [Math.random()], or of any
    generator of doubles in [[0, 1)], is at most this. *)
Definition maxDraw : Q := 9007199254740991 # 9007199254740992.

Lemma exponentOf_le (q : Q) : (0 < q)%Q -> (2 ^ exponentOf q <= q)%Q.
Proof.
  intro Hq. unfold exponentOf. destruct q as [n d].
  change (Qnum (n # d)) with n. change (Qden (n # d)) with d.
  set (a := Z.log2 n). set (b := Z.log2 (Zpos d)).
  destruct (Qle_bool (2 ^ (a - b)) (n # d)) eqn:E; [now apply Qle_bool_iff|].
  assert (Hn : 0 < n).
  { unfold Qlt in Hq. simpl in Hq. lia. }
  assert (Ha : 2 ^ a <= n) by (apply Z.log2_spec; exact Hn).
  assert (Hb : Zpos d < 2 ^ (b + 1))
    by (unfold b; apply Z.log2_spec; reflexivity).
  assert (Ha0 : 0 <= a) by apply Z.log2_nonneg.
  assert (Hb0 : 0 <= b) by apply Z.log2_nonneg.
  replace (a - b - 1) with (a - (b + 1)) by lia.
  rewrite Qpower_minus by discriminate.
  change 2%Q with (inject_Z 2).
  rewrite <- !Zpower_Qpower by lia.
  apply Qle_shift_div_r.
  - change 0%Q with (inject_Z 0). rewrite <- Zlt_Qlt. lia.
  - unfold Qle, Qmult, inject_Z. simpl. rewrite !Z.mul_1_r.
    nia.
Qed.

(** ... and [q < 2^(e+1)]. *)
Lemma exponentOf_lt (q : Q) : (0 < q)%Q -> (q < 2 ^ (exponentOf q + 1))%Q.
Proof.
  intro Hq. unfold exponentOf. destruct q as [n d].
  change (Qnum (n # d)) with n. change (Qden (n # d)) with d.
  set (a := Z.log2 n). set (b := Z.log2 (Zpos d)).
  destruct (Qle_bool (2 ^ (a - b)) (n # d)) eqn:E.
  - assert (Hn : 0 < n).
    { unfold Qlt in Hq. simpl in Hq. lia. }
    assert (Ha : n < 2 ^ (a + 1)) by (apply Z.log2_spec; exact Hn).
    assert (Hb : 2 ^ b <= Zpos d)
      by (unfold b; apply Z.log2_spec; reflexivity).
    assert (Ha0 : 0 <= a) by apply Z.log2_nonneg.
    assert (Hb0 : 0 <= b) by apply Z.log2_nonneg.
    replace (a - b + 1) with (a + 1 - b) by lia.
    rewrite Qpower_minus by discriminate.
    change 2%Q with (inject_Z 2).
    rewrite <- !Zpower_Qpower by lia.
    apply Qlt_shift_div_l.
    + change 0%Q with (inject_Z 0). rewrite <- Zlt_Qlt. lia.
    + unfold Qlt, Qmult, inject_Z. simpl. rewrite !Z.mul_1_r.
      assert (0 < 2 ^ b) by (apply Z.pow_pos_nonneg; lia).
      nia.
  - replace (a - b - 1 + 1) with (a - b) by lia.
    apply Qnot_le_lt. intro H. apply Qle_bool_iff in H. congruence.
Qed.

Lemma nearestEven_le (m : Q) : (inject_Z (nearestEven m) <= m + (1 # 2))%Q.
Proof.
  unfold nearestEven. pose proof (Qfloor_le m) as Hf.
  destruct (Qcompare (m - inject_Z (Qfloor m)) (1 # 2)) eqn:E.
  - apply Qeq_alt in E.
    destruct (Z.even (Qfloor m)); [lra|].
    rewrite inject_Z_plus. change (inject_Z 1) with 1%Q. lra.
  - lra.
  - apply Qgt_alt in E. rewrite inject_Z_plus.
    change (inject_Z 1) with 1%Q. lra.
Qed.

Lemma nearestEven_nonneg (m : Q) : (0 <= m)%Q -> 0 <= nearestEven m.
Proof.
  intro H. assert (Hf : 0 <= Qfloor m).
  { change 0 with (Qfloor 0). now apply Qfloor_resp_le. }
  unfold nearestEven.
  destruct (Qcompare _ _); [destruct (Z.even _)| |]; lia.
Qed.

Lemma ulp_pos (q : Q) : (0 < ulp q)%Q.
Proof. unfold ulp. apply Qpower_0_lt. reflexivity. Qed.

Lemma roundPositive_le (q : Q) :
  (0 <= roundPositive q)%Q /\ (roundPositive q <= q + ulp q * (1 # 2))%Q
  \/ (q < 0)%Q.
Proof.
  destruct (Qlt_le_dec q 0) as [Hneg|Hq]; [now right|left].
  pose proof (ulp_pos q) as Hu. unfold roundPositive.
  assert (Hm : (0 <= q / ulp q)%Q).
  { apply Qle_shift_div_l; [exact Hu|lra]. }
  split.
  - apply Qmult_le_0_compat; [|lra].
    change 0%Q with (inject_Z 0). rewrite <- Zle_Qle.
    now apply nearestEven_nonneg.
  - pose proof (nearestEven_le (q / ulp q)) as Hn.
    assert (E : (q + ulp q * (1 # 2) == (q / ulp q + (1 # 2)) * ulp q)%Q).
    { field. lra. }
    rewrite E. apply Qmult_le_compat_r; [exact Hn|lra].
Qed.

Lemma roundDouble_nonneg (q : Q) : (0 <= q)%Q -> (0 <= roundDouble q)%Q.
Proof.
  intro Hq. unfold roundDouble.
  destruct (Qcompare q 0) eqn:E.
  - lra.
  - apply Qlt_alt in E. lra.
  - destruct (roundPositive_le q) as [[H _]|H]; [exact H|lra].
Qed.

(** A product of a draw with a count stays below the count after
    rounding. *)
Lemma roundDouble_below (q k : Q) :
  (0 <= q)%Q -> (1 <= k)%Q -> (q <= k * maxDraw)%Q -> (roundDouble q < k)%Q.
Proof.
  intros Hq Hk Hle. unfold roundDouble.
  destruct (Qcompare q 0) eqn:E.
  - lra.
  - apply Qlt_alt in E. lra.
  - apply Qgt_alt in E.
    destruct (roundPositive_le q) as [[_ H]|H]; [|lra].
    assert (Hu : (ulp q * (1 # 2) <= q * (1 # 9007199254740992)
                  \/ ulp q * (1 # 2) <= 1 # 18014398509481984)%Q).
    { unfold ulp.
      destruct (Z.max_spec (exponentOf q) (-1022)) as [[Hlt ->]|[Hge ->]].
      - right.
        assert (Hp : (2 ^ (-1022 - 52) <= 2 ^ (-53))%Q)
          by (apply Qpower_le_compat_l; [lia|lra]).
        change (2 ^ (-53))%Q with (1 # 9007199254740992)%Q in Hp. lra.
      - left. pose proof (exponentOf_le E) as He.
        rewrite Qpower_minus by discriminate.
        change (2 ^ 52)%Q with (4503599627370496 # 1)%Q.
        set (p := (2 ^ exponentOf q)%Q) in *.
        assert (Ep : (p / (4503599627370496 # 1) * (1 # 2)
                      == p * (1 # 9007199254740992))%Q) by (field).
        rewrite Ep. lra. }
    unfold maxDraw in Hle.
    destruct Hu as [Hu|Hu]; lra.
Qed.

Fixpoint replaceNth {A : Type} (n : nat) (a : A) (l : list A) : list A :=
  match l, n with
  | [], _ => []
  | _ :: l', O => a :: l'
  | b :: l', S k => b :: replaceNth k a l'
  end.

(** [level[y][x] = tile] on a cell that exists.  (A write past the end of
    a row would grow that row in JavaScript; no write of the embedded code
    is of that kind: each is at a cell just read as a tile, or at a column
    below the length the row was created with.) *)
Definition setCell (level : Level) (x y : Z) (tile : TileChar) : Level :=
  match getTile level x y with
  | None => level
  | Some _ =>
      match rowAt level y with
      | None => level
      | Some r => replaceNth (Z.to_nat y) (replaceNth (Z.to_nat x) tile r) level
      end
  end.

(** [level[y][x] = tile] where [level[y]] may be [undefined]. *)
Definition assignCell (level : Level) (x y : Z) (tile : TileChar)
  : outcome Level :=
  match rowAt level y with
  | None => Throw "TypeError: Cannot set properties of undefined"
  | Some _ => Ok (setCell level x y tile)
  end.

Lemma replaceNth_length {A : Type} (a : A) :
  forall (l : list A) (n : nat), List.length (replaceNth n a l) = List.length l.
Proof.
  induction l as [|b l IH]; intros [|n]; simpl; try reflexivity.
  now rewrite IH.
Qed.

Lemma nth_error_replaceNth {A : Type} (a : A) :
  forall (l : list A) (n m : nat),
    nth_error (replaceNth n a l) m
    = if (n =? m)%nat
      then match nth_error l m with Some _ => Some a | None => None end
      else nth_error l m.
Proof.
  induction l as [|b l IH]; intros [|n] [|m]; simpl; try reflexivity.
  - destruct (n =? m)%nat; reflexivity.
  - apply IH.
Qed.

(** A grid of [h] rows of [w] cells. *)
Definition rect (w h : nat) (level : Level) : Prop :=
  List.length level = h /\ Forall (fun r => List.length r = w) level.

Lemma getTile_some (level : Level) (x y : Z) (t : TileChar) :
  getTile level x y = Some t <->
  0 <= x /\ 0 <= y /\
  exists r, nth_error level (Z.to_nat y) = Some r
            /\ nth_error r (Z.to_nat x) = Some t.
Proof.
  unfold getTile, rowAt, cellAt, len. split.
  - intro H.
    destruct ((y <? 0) || (y >=? Z.of_nat (List.length level))) eqn:Ey;
      [discriminate|].
    apply orb_false_iff in Ey. destruct Ey as [Ey _]. rewrite Ey in H.
    destruct (nth_error level (Z.to_nat y)) as [r|] eqn:Er; [|discriminate].
    destruct ((x <? 0) || (x >=? Z.of_nat (List.length r))) eqn:Ex;
      [discriminate|].
    apply orb_false_iff in Ex. destruct Ex as [Ex _]. rewrite Ex in H.
    apply Z.ltb_ge in Ex, Ey. repeat split; try assumption.
    exists r. now split.
  - intros [Hx [Hy [r [Hr Ht]]]].
    assert (Hyl : (Z.to_nat y < List.length level)%nat)
      by (apply nth_error_Some; congruence).
    assert (Hxl : (Z.to_nat x < List.length r)%nat)
      by (apply nth_error_Some; congruence).
    assert (E1 : (y <? 0) = false) by (apply Z.ltb_ge; lia).
    assert (E2 : (y >=? Z.of_nat (List.length level)) = false)
      by (rewrite Z.geb_leb; apply Z.leb_gt; lia).
    assert (E3 : (x <? 0) = false) by (apply Z.ltb_ge; lia).
    assert (E4 : (x >=? Z.of_nat (List.length r)) = false)
      by (rewrite Z.geb_leb; apply Z.leb_gt; lia).
    rewrite E1, E2. simpl. rewrite Hr, E3, E4. simpl. exact Ht.
Qed.

Lemma getTile_rect (w h : nat) (level : Level) (x y : Z) :
  rect w h level -> 0 <= x < Z.of_nat w -> 0 <= y < Z.of_nat h ->
  exists t, getTile level x y = Some t.
Proof.
  intros [Hh Hw] Hx Hy.
  destruct (nth_error level (Z.to_nat y)) as [r|] eqn:Er.
  2:{ apply nth_error_None in Er. lia. }
  assert (Hr : List.length r = w).
  { rewrite Forall_forall in Hw. apply Hw. eapply nth_error_In; exact Er. }
  destruct (nth_error r (Z.to_nat x)) as [t|] eqn:Et.
  2:{ apply nth_error_None in Et. lia. }
  exists t. apply getTile_some. repeat split; try lia. exists r. now split.
Qed.

Lemma getTile_setCell_same (level : Level) (x y : Z) (t u : TileChar) :
  getTile level x y = Some u -> getTile (setCell level x y t) x y = Some t.
Proof.
  intro H. unfold setCell. rewrite H.
  apply getTile_some in H. destruct H as [Hx [Hy [r [Hr Hu]]]].
  unfold rowAt. assert (E : (y <? 0) = false) by (apply Z.ltb_ge; lia).
  rewrite E, Hr. apply getTile_some. repeat split; try assumption.
  exists (replaceNth (Z.to_nat x) t r). split.
  - rewrite nth_error_replaceNth, Nat.eqb_refl, Hr. reflexivity.
  - rewrite nth_error_replaceNth, Nat.eqb_refl, Hu. reflexivity.
Qed.

Lemma getTile_setCell_other (level : Level) (x y x' y' : Z) (t : TileChar) :
  x' <> x \/ y' <> y ->
  getTile (setCell level x y t) x' y' = getTile level x' y'.
Proof.
  intro Hne. unfold setCell.
  destruct (getTile level x y) as [u|] eqn:H; [|reflexivity].
  apply getTile_some in H. destruct H as [Hx [Hy [r [Hr Hu]]]].
  unfold rowAt. assert (E : (y <? 0) = false) by (apply Z.ltb_ge; lia).
  rewrite E, Hr.
  destruct (getTile level x' y') as [v|] eqn:Hv.
  - apply getTile_some in Hv. destruct Hv as [Hx' [Hy' [r' [Hr' Hv]]]].
    apply getTile_some. repeat split; try assumption.
    destruct (Nat.eq_dec (Z.to_nat y) (Z.to_nat y')) as [Ey|Ey].
    + assert (y' = y) by lia. subst y'. rewrite Hr in Hr'. inversion Hr'; subst r'.
      exists (replaceNth (Z.to_nat x) t r). split.
      * rewrite nth_error_replaceNth, Nat.eqb_refl, Hr. reflexivity.
      * rewrite nth_error_replaceNth.
        destruct (Z.to_nat x =? Z.to_nat x')%nat eqn:Exx; [|exact Hv].
        apply Nat.eqb_eq in Exx. lia.
    + exists r'. split; [|exact Hv]. rewrite nth_error_replaceNth.
      destruct (Z.to_nat y =? Z.to_nat y')%nat eqn:Eyy; [|exact Hr'].
      apply Nat.eqb_eq in Eyy. contradiction.
  - destruct (getTile (replaceNth (Z.to_nat y) (replaceNth (Z.to_nat x) t r) level)
                x' y') as [v|] eqn:Hv'; [|reflexivity].
    exfalso. apply getTile_some in Hv'.
    destruct Hv' as [Hx' [Hy' [r' [Hr' Hv']]]].
    rewrite nth_error_replaceNth in Hr'.
    assert (Hcontra : exists v0, getTile level x' y' = Some v0).
    { destruct (Z.to_nat y =? Z.to_nat y')%nat eqn:Eyy.
      - apply Nat.eqb_eq in Eyy. assert (y' = y) by lia. subst y'.
        rewrite Hr in Hr'. inversion Hr'; subst r'.
        rewrite nth_error_replaceNth in Hv'.
        destruct (Z.to_nat x =? Z.to_nat x')%nat eqn:Exx.
        + apply Nat.eqb_eq in Exx. lia.
        + exists v. apply getTile_some. repeat split; try assumption.
          exists r. now split.
      - exists v. apply getTile_some. repeat split; try assumption.
        exists r'. now split. }
    destruct Hcontra as [v0 Hv0]. congruence.
Qed.

Lemma setCell_rect (w h : nat) (level : Level) (x y : Z) (t : TileChar) :
  rect w h level -> rect w h (setCell level x y t).
Proof.
  intros [Hh Hw]. unfold setCell.
  destruct (getTile level x y); [|now split].
  destruct (rowAt level y) as [r|] eqn:Er; [|now split].
  split; [now rewrite replaceNth_length|].
  assert (Hr : List.length r = w).
  { unfold rowAt in Er. destruct (y <? 0); [discriminate|].
    rewrite Forall_forall in Hw. apply Hw. eapply nth_error_In; exact Er. }
  apply Forall_forall. intros r' Hin.
  apply In_nth_error in Hin. destruct Hin as [n Hn].
  rewrite nth_error_replaceNth in Hn.
  destruct (Z.to_nat y =? n)%nat.
  - destruct (nth_error level n); inversion Hn.
    now rewrite replaceNth_length.
  - rewrite Forall_forall in Hw. apply Hw. eapply nth_error_In; exact Hn.
Qed.

Lemma setCell_len (level : Level) (x y : Z) (t : TileChar) :
  len (setCell level x y t) = len level.
Proof.
  unfold setCell, len. destruct (getTile level x y); [|reflexivity].
  destruct (rowAt level y); [|reflexivity]. now rewrite replaceNth_length.
Qed.

Lemma rowAt_some_iff (level : Level) (y : Z) :
  (exists r, rowAt level y = Some r) <-> 0 <= y < len level.
Proof.
  unfold rowAt, len. split.
  - intros [r H]. destruct (y <? 0) eqn:E; [discriminate|].
    apply Z.ltb_ge in E.
    assert ((Z.to_nat y < List.length level)%nat)
      by (apply nth_error_Some; congruence). lia.
  - intros [H0 H1]. assert (E : (y <? 0) = false) by (apply Z.ltb_ge; lia).
    rewrite E. destruct (nth_error level (Z.to_nat y)) as [r|] eqn:Er.
    + now exists r.
    + apply nth_error_None in Er. lia.
Qed.

Lemma assignCell_ok (level : Level) (x y : Z) (t : TileChar) :
  0 <= y < len level -> assignCell level x y t = Ok (setCell level x y t).
Proof.
  intro H. apply rowAt_some_iff in H. destruct H as [r Hr].
  unfold assignCell. now rewrite Hr.
Qed.

(* ------------------------------------------------------------------ *)
(** ** markovGenerator.ts: sampling a structure *)

Definition Qltb (a b : Q) : bool := negb (Qle_bool b a).

(** The fixed prior used when the context was never seen; the thresholds
    are the doubles that the literals denote. *)
Definition fallbackTile (r : Q) : TileChar :=
  if Qltb r lit_0_6 then EMPTY
  else if Qltb r lit_0_8 then BRICK
  else if Qltb r lit_0_9 then LADDER
  else if Qltb r lit_0_95 then SOLID
  else ROPE.

(** The cumulative walk: the first tile whose running sum reaches [r];
    [cumulative += prob] is an addition of doubles. *)
Fixpoint weighted (r cumulative : Q) (tileMap : TileMap Q) : option TileChar :=
  match tileMap with
  | [] => None
  | (tile, prob) :: rest =>
      let cumulative' := roundDouble (cumulative + prob) in
      if Qle_bool r cumulative' then Some tile else weighted r cumulative' rest
  end.

(** [sampleTile]; [r] is the one draw [rng()] that the call makes. *)
Definition sampleTile (transitions : Transitions Q) (context : MarkovContext)
    (r : Q) : TileChar :=
  match trGet (getContextKey context) transitions with
  | None | Some [] => fallbackTile r
  | Some (((first, _) :: _) as tileMap) =>
      match weighted r 0 tileMap with Some tile => tile | None => first end
  end.

Definition setFloor (width height : nat) (level : Level) : outcome Level :=
  foldM (fun lv x => assignCell lv x (Z.of_nat height - 1) SOLID)
        (columns width 0) level.

Definition sampleRow (transitions : Transitions Q) (rng : Rng) (width : nat)
    (st : Level * nat) (y : Z) : outcome (Level * nat) :=
  foldM
    (fun (st' : Level * nat) x =>
       let context := getContext (fst st') x y in
       lv <- assignCell (fst st') x y
               (sampleTile transitions context (rng (snd st'))) ;;
       Ok (lv, S (snd st')))
    (columns width 0) st.

(** [generateStructure(width, height, rng)]; [drawn] counts the draws made
    from [rng] before the call, and the result carries the count after. *)
Definition generateStructure (transitions : Transitions Q) (width height : nat)
    (rng : Rng) (drawn : nat) : outcome (Level * nat) :=
  lv <- setFloor width height (createEmptyLevel width height) ;;
  foldM (sampleRow transitions rng width) (columns (height - 1) 0) (lv, drawn).

Example generate_untrained :
  generateStructure [] 2 3 (fun n => if (n <? 2)%nat then 1 # 2 else 7 # 10) 0
  = Ok ([ [EMPTY; EMPTY]; [BRICK; BRICK]; [SOLID; SOLID] ], 4%nat).
Proof. reflexivity. Qed.

Example generate_no_rows :
  generateStructure [] 2 0 (fun _ => 0%Q) 0
  = Throw "TypeError: Cannot set properties of undefined".
Proof. reflexivity. Qed.

Lemma columns_length (n : nat) : forall s, List.length (columns n s) = n.
Proof. induction n as [|n IH]; intro s; simpl; [reflexivity|now rewrite IH]. Qed.

Lemma columns_nth (n : nat) :
  forall (s : Z) (j : nat) (b : Z),
    nth_error (columns n s) j = Some b -> b = s + Z.of_nat j /\ (j < n)%nat.
Proof.
  induction n as [|n IH]; intros s j b H; simpl in H.
  - destruct j; discriminate.
  - destruct j as [|j]; simpl in H.
    + inversion H; subst. split; lia.
    + apply IH in H. lia.
Qed.

Lemma createEmptyLevel_rect (w h : nat) : rect w h (createEmptyLevel w h).
Proof.
  unfold rect, createEmptyLevel. split; [apply repeat_length|].
  apply Forall_forall. intros r Hr. apply repeat_spec in Hr. subst r.
  apply repeat_length.
Qed.

Lemma rect_len (w h : nat) (level : Level) : rect w h level -> len level = Z.of_nat h.
Proof. intros [H _]. unfold len. now rewrite H. Qed.

Lemma setFloor_spec (w h : nat) (level : Level) :
  (1 <= h)%nat -> rect w h level ->
  exists lv, setFloor w h level = Ok lv /\ rect w h lv /\
             forall x, 0 <= x < Z.of_nat w ->
                       getTile lv x (Z.of_nat h - 1) = Some SOLID.
Proof.
  intros Hh Hrect. unfold setFloor.
  destruct (@foldM_invariant Level Z
              (fun lv x => assignCell lv x (Z.of_nat h - 1) SOLID)
              (fun i lv => rect w h lv /\
                 forall x, 0 <= x < Z.of_nat i ->
                           getTile lv x (Z.of_nat h - 1) = Some SOLID)
              (columns w 0) 0%nat level) as [lv [E [R F]]].
  - intros j lv x Hj [Rj Fj]. simpl in *.
    apply columns_nth in Hj. destruct Hj as [-> Hjw].
    rewrite assignCell_ok by (rewrite (rect_len Rj); lia).
    eexists; split; [reflexivity|]. split; [now apply setCell_rect|].
    intros x Hx. destruct (Z.eq_dec x (Z.of_nat j)) as [->|Hne].
    + destruct (@getTile_rect w h lv (0 + Z.of_nat j) (Z.of_nat h - 1) Rj)
        as [u Hu]; try lia.
      simpl in Hu. simpl. eapply getTile_setCell_same. exact Hu.
    + rewrite getTile_setCell_other by lia. apply Fj. lia.
  - split; [exact Hrect|]. intros x Hx. simpl in Hx. lia.
  - exists lv. rewrite columns_length in F. simpl in F.
    split; [exact E|]. split; [exact R|exact F].
Qed.

(** The state of the sampling loops after [ydone] full rows and [xdone]
    cells of the next row. *)
Definition sampled (transitions : Transitions Q) (rng : Rng) (w h : nat)
    (drawn : nat) (ydone xdone : nat) (st : Level * nat) : Prop :=
  rect w h (fst st) /\
  snd st = (drawn + ydone * w + xdone)%nat /\
  (forall x, 0 <= x < Z.of_nat w ->
             getTile (fst st) x (Z.of_nat h - 1) = Some SOLID) /\
  (forall x y : nat,
     (x < w)%nat -> (y < h - 1)%nat ->
     (y < ydone \/ (y = ydone /\ x < xdone))%nat ->
     getTile (fst st) (Z.of_nat x) (Z.of_nat y)
     = Some (sampleTile transitions
               (getContext (fst st) (Z.of_nat x) (Z.of_nat y))
               (rng (drawn + y * w + x)%nat))).

Lemma getContext_setCell (level : Level) (x y x' y' : Z) (t : TileChar) :
  (y' < y \/ (y' = y /\ x' <= x)) ->
  getContext (setCell level x y t) x' y' = getContext level x' y'.
Proof.
  intro H. unfold getContext.
  rewrite !getTile_setCell_other by lia. reflexivity.
Qed.

Lemma sampleRow_spec (transitions : Transitions Q) (rng : Rng) (w h : nat)
    (drawn : nat) (y : nat) (st : Level * nat) :
  (y < h - 1)%nat ->
  sampled transitions rng w h drawn y 0 st ->
  exists st', sampleRow transitions rng w st (Z.of_nat y) = Ok st' /\
              sampled transitions rng w h drawn (S y) 0 st'.
Proof.
  intros Hy H0. unfold sampleRow.
  destruct (@foldM_invariant (Level * nat) Z
              (fun (st' : Level * nat) x =>
                 let context := getContext (fst st') x (Z.of_nat y) in
                 lv <- assignCell (fst st') x (Z.of_nat y)
                         (sampleTile transitions context (rng (snd st'))) ;;
                 Ok (lv, S (snd st')))
              (fun i st' => sampled transitions rng w h drawn y i st')
              (columns w 0) 0%nat st) as [st' [E S']].
  - intros j [lv p] x Hj [R [Hp [F C]]]. simpl in *.
    apply columns_nth in Hj. destruct Hj as [-> Hjw]. simpl.
    rewrite assignCell_ok by (rewrite (rect_len R); lia).
    simpl. eexists; split; [reflexivity|].
    split; [now apply setCell_rect|]. split; [simpl; lia|]. split.
    + intros x Hx. simpl. rewrite getTile_setCell_other by lia. now apply F.
    + intros x' y' Hx' Hy' Hdone. simpl.
      rewrite getContext_setCell by lia.
      destruct (Nat.eq_dec y' y) as [->|Hyne].
      * destruct (Nat.eq_dec x' j) as [->|Hxne].
        -- destruct (@getTile_rect w h lv (Z.of_nat j) (Z.of_nat y) R)
             as [u Hu]; try lia.
           rewrite (getTile_setCell_same _ _ _ _ Hu). now subst p.
        -- rewrite getTile_setCell_other by lia. apply C; lia.
      * rewrite getTile_setCell_other by lia. apply C; lia.
  - exact H0.
  - exists st'. split; [exact E|].
    rewrite columns_length in S'. simpl in S'.
    destruct S' as [R [Hp [F C]]].
    split; [exact R|]. split; [rewrite Hp; simpl; lia|]. split; [exact F|].
    intros x' y' Hx' Hy' Hdone. apply C; try assumption. lia.
Qed.

(** With at least one row, [generateStructure] does not throw, and its
    result is the state of the sampling loops after [height - 1] rows. *)
Lemma generateStructure_runs (transitions : Transitions Q)
    (width height : nat) (rng : Rng) (drawn : nat) :
  (1 <= height)%nat ->
  exists st : Level * nat,
    generateStructure transitions width height rng drawn = Ok st /\
    sampled transitions rng width height drawn (height - 1) 0 st.
Proof.
  intros Hh. unfold generateStructure.
  destruct (@setFloor_spec width height (createEmptyLevel width height) Hh
              (createEmptyLevel_rect width height)) as [lv [E [R F]]].
  rewrite E. simpl.
  destruct (@foldM_invariant (Level * nat) Z
              (sampleRow transitions rng width)
              (fun i st => sampled transitions rng width height drawn i 0 st)
              (columns (height - 1) 0) 0%nat (lv, drawn)) as [st [E' S']].
  - intros j st y Hj Hs. simpl in *.
    apply columns_nth in Hj. destruct Hj as [-> Hjh]. simpl.
    apply sampleRow_spec; assumption.
  - split; [exact R|]. split; [simpl; lia|]. split; [exact F|].
    intros x y _ _ Hdone. lia.
  - exists st. split; [exact E'|].
    rewrite columns_length in S'. exact S'.
Qed.

(** C3. For [width >= 1] and [height >= 1], whatever the trained table and
    the draws, [generateStructure] returns (it does not throw) a grid of
    [height] rows of [width] cells whose last row is Solid throughout; it
    makes exactly [width * (height - 1)] draws, one for each cell of rows
    [0 .. height-2] in row-major order, and each of those cells holds the
    tile sampled for its context with its draw. *)
Theorem generateStructure_floor (transitions : Transitions Q)
    (width height : nat) (rng : Rng) (drawn : nat) :
  (1 <= width)%nat -> (1 <= height)%nat ->
  exists (level : Level) (drawn' : nat),
    generateStructure transitions width height rng drawn = Ok (level, drawn') /\
    rect width height level /\
    (forall x, 0 <= x < Z.of_nat width ->
               getTile level x (Z.of_nat height - 1) = Some SOLID) /\
    drawn' = (drawn + width * (height - 1))%nat /\
    (forall x y : nat,
       (x < width)%nat -> (y < height - 1)%nat ->
       getTile level (Z.of_nat x) (Z.of_nat y)
       = Some (sampleTile transitions
                 (getContext level (Z.of_nat x) (Z.of_nat y))
                 (rng (drawn + y * width + x)%nat))).
Proof.
  intros _ Hh.
  destruct (generateStructure_runs transitions width rng drawn Hh)
    as [[level drawn'] [E [R [Hp [F C]]]]].
  simpl in R, Hp, F, C.
  exists level, drawn'. split; [exact E|]. split; [exact R|].
  split; [exact F|]. split.
  - rewrite Hp. rewrite (Nat.mul_comm width). lia.
  - intros x y Hx Hy. apply C; try assumption. left. lia.
Qed.

Lemma generateStructure_floor_witness :
  exists (level : Level) (drawn' : nat),
    generateStructure [] 2 3 (fun _ => 1 # 2) 0 = Ok (level, drawn') /\
    getTile level 0 2 = Some SOLID /\ getTile level 1 2 = Some SOLID /\
    drawn' = 4%nat.
Proof.
  destruct (generateStructure_floor [] (width := 2) (height := 3)
              (fun _ => 1 # 2) 0) as [level [drawn' [E [_ [F [D _]]]]]];
    [lia|lia|].
  exists level, drawn'. split; [exact E|].
  split; [apply F; simpl; lia|]. split; [apply F; simpl; lia|exact D].
Defined.

(* ------------------------------------------------------------------ *)
(** ** markovGenerator.ts: the structure repair pass *)

(** The body of the two loops of [postProcessStructure] at cell [(x, y)],
    on the grid being repaired and the count of [Math.random()] draws made.
    The reads [processed[y][x]] and [processed[y + 1][x]] are of rows that
    exist ([y < height], and [y < height - 2] for the second), so they are
    the reads of [getTile]; the rope rule reads [processed[y + 1]?.[x]].
    The draws are compared with the doubles that the literals [0.7] and
    [0.5] denote. *)
Definition repairCell (random : Rng) (height : Z) (st : Level * nat)
    (x y : Z) : Level * nat :=
  let tile := getTile (fst st) x y in
  let st1 :=
    if is_tile tile LADDER then
      if y <? height - 2 then
        let below := getTile (fst st) x (y + 1) in
        if is_tile below EMPTY then
          if Qltb (random (snd st)) lit_0_7
          then (setCell (fst st) x (y + 1) LADDER, S (snd st))
          else (setCell (fst st) x y EMPTY, S (snd st))
        else st
      else st
    else st in
  if is_tile tile ROPE then
    let below := getTile (fst st1) x (y + 1) in
    if is_tile below BRICK || is_tile below SOLID then
      (setCell (fst st1) x y
         (if Qltb (random (snd st1)) lit_0_5 then EMPTY else LADDER),
       S (snd st1))
    else st1
  else st1.

Definition repairRow (random : Rng) (height : Z) (width : nat)
    (st : Level * nat) (y : Z) : Level * nat :=
  fold_left (fun st' x => repairCell random height st' x y) (columns width 0) st.

(** [postProcessStructure(level)]; [drawn] counts the [Math.random()] draws
    made before the call. *)
Definition postProcessStructure (random : Rng) (level : Level) (drawn : nat)
  : Level * nat :=
  let processed := cloneLevel level in
  let height := len level in
  let width := Z.to_nat (widthOf level) in
  fold_left (repairRow random height width)
            (columns (Z.to_nat height) 0) (processed, drawn).

(** A floating ladder at the top of a column of five cells. *)
Definition ladderColumn : Level :=
  [ [LADDER]; [EMPTY]; [EMPTY]; [EMPTY]; [SOLID] ].

Example ladderColumn_extended :
  postProcessStructure (fun _ => 0%Q) ladderColumn 0
  = ([ [LADDER]; [LADDER]; [LADDER]; [LADDER]; [SOLID] ], 3%nat).
Proof. reflexivity. Qed.

Example ladderColumn_removed :
  postProcessStructure (fun _ => 9 # 10) ladderColumn 0
  = ([ [EMPTY]; [EMPTY]; [EMPTY]; [EMPTY]; [SOLID] ], 1%nat).
Proof. reflexivity. Qed.

(** The reading of C6: a ladder written as a downward extension is not
    examined again, so the Empty cell under the extension stays Empty. *)
Definition extensionNotReexamined : Prop :=
  forall (random : Rng) (level : Level) (drawn : nat) (x y : Z),
    getTile level x y = Some LADDER ->
    getTile level x (y + 1) = Some EMPTY ->
    getTile level x (y + 2) = Some EMPTY ->
    getTile (fst (postProcessStructure random level drawn)) x (y + 2)
    = Some EMPTY.

(** The test is against the double [0.7], which is below the rational
    7/10: a draw equal to it removes the ladder. *)
Example ladderColumn_at_threshold :
  (lit_0_7 < 7 # 10)%Q /\
  postProcessStructure (fun _ => lit_0_7) ladderColumn 0
  = ([ [EMPTY]; [EMPTY]; [EMPTY]; [EMPTY]; [SOLID] ], 1%nat).
Proof. split; reflexivity. Qed.

(** C6 as stated fails: in [ladderColumn] with every draw passing the test
    [Math.random() < 0.7] the extension written at row 1 is examined when
    the scan reaches row 1 and is extended into row 2 (and that one into
    row 3). *)
Lemma extension_is_reexamined : ~ extensionNotReexamined.
Proof.
  intro H.
  specialize (H (fun _ => 0%Q) ladderColumn 0%nat 0 0 eq_refl eq_refl eq_refl).
  rewrite ladderColumn_extended in H. discriminate H.
Qed.

Lemma is_tile_true (o : option TileChar) (t : TileChar) :
  is_tile o t = true <-> o = Some t.
Proof.
  destruct o as [u|]; simpl.
  - rewrite tile_eqb_eq. split; congruence.
  - split; discriminate.
Qed.

Lemma cloneLevel_id (level : Level) : cloneLevel level = level.
Proof. unfold cloneLevel. apply map_id. Qed.

(** What one cell's repair may change: the cell itself, and the cell below
    it when that one is Empty. *)
Lemma repairCell_frame (random : Rng) (height : Z) (st : Level * nat)
    (x y a b : Z) :
  (a <> x \/ b <> y) ->
  (a <> x \/ b <> y + 1 \/ getTile (fst st) a b <> Some EMPTY) ->
  getTile (fst (repairCell random height st x y)) a b = getTile (fst st) a b.
Proof.
  intros Hself Hbelow. unfold repairCell.
  assert (Hst1 :
    getTile (fst (if is_tile (getTile (fst st) x y) LADDER then
               if y <? height - 2 then
                 if is_tile (getTile (fst st) x (y + 1)) EMPTY then
                   if Qltb (random (snd st)) lit_0_7
                   then (setCell (fst st) x (y + 1) LADDER, S (snd st))
                   else (setCell (fst st) x y EMPTY, S (snd st))
                 else st
               else st
             else st)) a b = getTile (fst st) a b).
  { destruct (is_tile (getTile (fst st) x y) LADDER); [|reflexivity].
    destruct (y <? height - 2); [|reflexivity].
    destruct (is_tile (getTile (fst st) x (y + 1)) EMPTY) eqn:Eb; [|reflexivity].
    apply is_tile_true in Eb.
    destruct (Qltb (random (snd st)) lit_0_7); simpl.
    - apply getTile_setCell_other.
      destruct (Z.eq_dec a x) as [->|]; [|now left]. right.
      destruct (Z.eq_dec b (y + 1)) as [->|]; [|assumption].
      destruct Hbelow as [H|[H|H]]; congruence.
    - now apply getTile_setCell_other. }
  destruct (is_tile (getTile (fst st) x y) ROPE); [|exact Hst1].
  match goal with
  | |- context [if ?c then (setCell ?l x y ?t, ?p) else ?s] =>
      destruct c; simpl; [|exact Hst1]
  end.
  rewrite getTile_setCell_other by assumption. exact Hst1.
Qed.

Section AlwaysExtend.

Variable random : Rng.
Variable height : Z.
Hypothesis always_extend : forall n, Qltb (random n) lit_0_7 = true.

(** With every draw passing the test [Math.random() < 0.7] a ladder is
    never removed. *)
Lemma repairCell_keeps_ladder (st : Level * nat) (x y : Z) :
  getTile (fst st) x y = Some LADDER ->
  getTile (fst (repairCell random height st x y)) x y = Some LADDER.
Proof.
  intro H. unfold repairCell. rewrite H. simpl.
  destruct (y <? height - 2); [|exact H].
  destruct (is_tile (getTile (fst st) x (y + 1)) EMPTY); [|exact H].
  rewrite always_extend. simpl.
  rewrite getTile_setCell_other by lia. exact H.
Qed.

(** ... and a ladder over an Empty cell is extended into it. *)
Lemma repairCell_extends (st : Level * nat) (x y : Z) :
  getTile (fst st) x y = Some LADDER ->
  getTile (fst st) x (y + 1) = Some EMPTY ->
  y < height - 2 ->
  getTile (fst (repairCell random height st x y)) x (y + 1) = Some LADDER.
Proof.
  intros H Hb Hy. unfold repairCell. rewrite H, Hb. simpl.
  apply Z.ltb_lt in Hy. rewrite Hy, always_extend. simpl.
  eapply getTile_setCell_same. exact Hb.
Qed.

(** Cells of other columns are left alone by the repairs in column [x]. *)
Lemma repairCells_other_columns (y a b : Z) :
  forall (xs : list Z) (st : Level * nat),
    ~ In a xs ->
    getTile (fst (fold_left (fun st' x => repairCell random height st' x y) xs st))
            a b
    = getTile (fst st) a b.
Proof.
  induction xs as [|x xs IH]; intros st Hnot; simpl; [reflexivity|].
  rewrite IH by (intro Hin; apply Hnot; now right).
  apply repairCell_frame; left; intro E; apply Hnot; now left.
Qed.

(** Cells outside row [y], and not an Empty cell of row [y + 1], are left
    alone by the repairs of row [y]. *)
Lemma repairCells_other_rows (y a b : Z) :
  b <> y ->
  forall (xs : list Z) (st : Level * nat),
    (b <> y + 1 \/ getTile (fst st) a b <> Some EMPTY) ->
    getTile (fst (fold_left (fun st' x => repairCell random height st' x y) xs st))
            a b
    = getTile (fst st) a b.
Proof.
  intros Hb. induction xs as [|x xs IH]; intros st Hne; simpl; [reflexivity|].
  assert (E : getTile (fst (repairCell random height st x y)) a b
              = getTile (fst st) a b).
  { apply repairCell_frame; [now right|]. right. exact Hne. }
  rewrite IH; [exact E|]. now rewrite E.
Qed.

Lemma columns_app (n m : nat) :
  forall s, columns (n + m) s = columns n s ++ columns m (s + Z.of_nat n).
Proof.
  induction n as [|n IH]; intro s.
  - simpl. now rewrite Z.add_0_r.
  - simpl columns. rewrite IH. simpl. do 3 f_equal. lia.
Qed.

Lemma columns_In (n : nat) : forall s a, In a (columns n s) -> s <= a < s + Z.of_nat n.
Proof.
  induction n as [|n IH]; intros s a H; simpl in H; [contradiction|].
  destruct H as [<-|H]; [lia|]. apply IH in H. lia.
Qed.

(** [0 .. w-1] split at column [x]. *)
Lemma columns_split (w : nat) (x : Z) :
  0 <= x < Z.of_nat w ->
  columns w 0
  = columns (Z.to_nat x) 0 ++ x :: columns (w - Z.to_nat x - 1) (x + 1).
Proof.
  intro Hx.
  replace w with (Z.to_nat x + (1 + (w - Z.to_nat x - 1)))%nat at 1 by lia.
  rewrite columns_app. f_equal. rewrite columns_app. simpl.
  rewrite Z2Nat.id by lia. reflexivity.
Qed.

(** The repairs of row [y] keep a ladder of that row. *)
Lemma repairRow_keeps_ladder (w : nat) (st : Level * nat) (x y : Z) :
  0 <= x < Z.of_nat w ->
  getTile (fst st) x y = Some LADDER ->
  getTile (fst (repairRow random height w st y)) x y = Some LADDER.
Proof.
  intros Hx H. unfold repairRow. rewrite (columns_split w Hx).
  rewrite fold_left_app. simpl.
  rewrite repairCells_other_columns
    by (intro Hin; apply columns_In in Hin; lia).
  apply repairCell_keeps_ladder.
  rewrite repairCells_other_columns
    by (intro Hin; apply columns_In in Hin; lia).
  exact H.
Qed.

(** The repairs of row [y] extend a floating ladder of that row. *)
Lemma repairRow_extends (w : nat) (st : Level * nat) (x y : Z) :
  0 <= x < Z.of_nat w ->
  getTile (fst st) x y = Some LADDER ->
  getTile (fst st) x (y + 1) = Some EMPTY ->
  y < height - 2 ->
  getTile (fst (repairRow random height w st y)) x (y + 1) = Some LADDER.
Proof.
  intros Hx H Hb Hy. unfold repairRow. rewrite (columns_split w Hx).
  rewrite fold_left_app. simpl.
  rewrite repairCells_other_columns
    by (intro Hin; apply columns_In in Hin; lia).
  apply repairCell_extends; [| |exact Hy];
    rewrite repairCells_other_columns
      by (intro Hin; apply columns_In in Hin; lia); assumption.
Qed.

Lemma repairRow_other_rows (w : nat) (st : Level * nat) (y a b : Z) :
  b <> y ->
  (b <> y + 1 \/ getTile (fst st) a b <> Some EMPTY) ->
  getTile (fst (repairRow random height w st y)) a b = getTile (fst st) a b.
Proof. intros Hb Hne. unfold repairRow. now apply repairCells_other_rows. Qed.

(** Rows [s .. s+n-1] leave alone a cell of a row outside [s .. s+n]
    and a non-Empty cell of row [s+n]. *)
Lemma repairRows_frame (w : nat) (a b : Z) :
  forall (n : nat) (s : Z) (st : Level * nat),
    (b < s \/ s + Z.of_nat n < b \/
     (b = s + Z.of_nat n /\ getTile (fst st) a b <> Some EMPTY)) ->
    getTile (fst (fold_left (repairRow random height w) (columns n s) st)) a b
    = getTile (fst st) a b.
Proof.
  induction n as [|n IH]; intros s st H; simpl; [reflexivity|].
  assert (E : getTile (fst (repairRow random height w st s)) a b
              = getTile (fst st) a b).
  { apply repairRow_other_rows; [lia|].
    destruct (Z.eq_dec b (s + 1)) as [Eb|Eb]; [right|now left].
    destruct H as [H|[H|[_ H]]]; [lia|lia|exact H]. }
  rewrite IH; [exact E|]. rewrite E.
  destruct H as [H|[H|[H1 H2]]]; [left; lia|right; left; lia|].
  right. right. split; [lia|exact H2].
Qed.

End AlwaysExtend.

(** C6, amended.  The pass visits every cell once, in row-major order, and
    is not iterated to a fixed point; but it reads each tile from the grid
    being repaired, so a Ladder written at [(x, y+1)] as the downward
    extension of a floating ladder at [(x, y)] is examined when the scan
    reaches row [y+1] of the same call.  When every draw passes the code's
    test [Math.random() < 0.7], the literal being the double
    3152519739159347 / 2^52 that it denotes (so each floating ladder is
    extended), a ladder over two Empty cells, above the last three rows, is
    extended into both of them by one call. *)
Theorem postProcess_extension_reexamined
    (random : Rng) (level : Level) (drawn : nat) (x y : Z) :
  (forall n, Qltb (random n) lit_0_7 = true) ->
  0 <= x < widthOf level -> 0 <= y -> y + 3 < len level ->
  getTile level x y = Some LADDER ->
  getTile level x (y + 1) = Some EMPTY ->
  getTile level x (y + 2) = Some EMPTY ->
  let result := fst (postProcessStructure random level drawn) in
  getTile result x (y + 1) = Some LADDER /\
  getTile result x (y + 2) = Some LADDER.
Proof.
  intros Hext Hx Hy0 Hy3 HL HE1 HE2. cbv zeta.
  unfold postProcessStructure. rewrite cloneLevel_id.
  set (h := len level) in *. set (w := Z.to_nat (widthOf level)).
  assert (Hxw : 0 <= x < Z.of_nat w) by (unfold w; lia).
  replace (Z.to_nat h)
    with (Z.to_nat y + (1 + (1 + (1 + (Z.to_nat h - Z.to_nat y - 3)))))%nat
    by lia.
  rewrite columns_app, fold_left_app. simpl columns.
  rewrite Z2Nat.id by lia. simpl fold_left.
  set (st1 := fold_left (repairRow random h w) (columns (Z.to_nat y) 0)
                (level, drawn)).
  assert (F1 : forall b, y <= b -> getTile level x b <> Some EMPTY \/ y < b ->
                 getTile (fst st1) x b = getTile level x b).
  { intros b Hb Hne. unfold st1. rewrite repairRows_frame; [reflexivity|].
    simpl. rewrite Z2Nat.id by lia.
    destruct (Z.eq_dec b y) as [->|Hby]; [|lia].
    right. right. split; [reflexivity|]. destruct Hne; [assumption|lia]. }
  assert (L1 : getTile (fst st1) x y = Some LADDER).
  { rewrite F1; [exact HL|lia|]. left. rewrite HL. discriminate. }
  assert (E1 : getTile (fst st1) x (y + 1) = Some EMPTY)
    by (rewrite F1; [exact HE1|lia|right; lia]).
  assert (E2 : getTile (fst st1) x (y + 2) = Some EMPTY)
    by (rewrite F1; [exact HE2|lia|right; lia]).
  set (st2 := repairRow random h w st1 y).
  assert (L2 : getTile (fst st2) x (y + 1) = Some LADDER)
    by (apply repairRow_extends; try assumption; lia).
  assert (E2' : getTile (fst st2) x (y + 2) = Some EMPTY).
  { unfold st2. rewrite repairRow_other_rows; [exact E2|lia|left; lia]. }
  set (st3 := repairRow random h w st2 (y + 1)).
  assert (L3 : getTile (fst st3) x (y + 1) = Some LADDER)
    by (apply repairRow_keeps_ladder; assumption).
  assert (L3' : getTile (fst st3) x (y + 2) = Some LADDER).
  { replace (y + 2) with (y + 1 + 1) by lia.
    apply repairRow_extends; try assumption; [|lia].
    replace (y + 1 + 1) with (y + 2) by lia. exact E2'. }
  fold st1. fold st2. fold st3.
  replace (y + 1 + 1) with (y + 2) by lia.
  set (st4 := repairRow random h w st3 (y + 2)).
  assert (L4 : getTile (fst st4) x (y + 1) = Some LADDER).
  { unfold st4. rewrite repairRow_other_rows; [exact L3|lia|left; lia]. }
  assert (L4' : getTile (fst st4) x (y + 2) = Some LADDER)
    by (apply repairRow_keeps_ladder; assumption).
  split; (rewrite repairRows_frame; [assumption|left; lia]).
Qed.

Lemma postProcess_extension_reexamined_witness :
  getTile (fst (postProcessStructure (fun _ => 0%Q) ladderColumn 0)) 0 1
    = Some LADDER /\
  getTile (fst (postProcessStructure (fun _ => 0%Q) ladderColumn 0)) 0 2
    = Some LADDER.
Proof.
  apply (@postProcess_extension_reexamined (fun _ => 0%Q) ladderColumn 0%nat 0 0).
  - intro n. reflexivity.
  - vm_compute. split; [discriminate|reflexivity].
  - lia.
  - vm_compute. reflexivity.
  - reflexivity.
  - reflexivity.
  - reflexivity.
Defined.

(* ------------------------------------------------------------------ *)
(** ** levelGenerator.ts: entity placement *)

(** The scan for valid spawn and gold positions (rows [0 .. height-2]). *)
Definition validPositions (level : Level) : list Position :=
  let height := len level in
  let width := widthOf level in
  flat_map
    (fun y =>
       flat_map
         (fun x =>
            let tile := getTile level x y in
            let below := getTile level x (y + 1) in
            let hasGround :=
              is_tile below BRICK || is_tile below SOLID || is_tile below LADDER in
            let isPassable :=
              is_tile tile EMPTY || is_tile tile LADDER || is_tile tile ROPE in
            if isPassable && (hasGround || is_tile tile LADDER)
            then [mkPos x y] else [])
         (columns (Z.to_nat width) 0))
    (columns (Z.to_nat (height - 1)) 0).

(** The fallback scan of row [height - 2]; [level[height - 2]] is
    [undefined] when the grid has fewer than two rows, and reading a cell of
    it throws. *)
Fixpoint fallbackSpawn (level : Level) (height : Z) (xs : list Z)
  : outcome (list Position) :=
  match xs with
  | [] => Ok []
  | x :: xs' =>
      match rowAt level (height - 2) with
      | None => Throw "TypeError: Cannot read properties of undefined"
      | Some r =>
          if is_tile (cellAt r x) EMPTY then Ok [mkPos x (height - 2)]
          else fallbackSpawn level height xs'
      end
  end.

(** [validSpawnPositions.sort((a, b) => b.y - a.y)]: the comparator is
    consistent, so the result is the stable sort by descending [y]. *)
Fixpoint insertByY (p : Position) (l : list Position) : list Position :=
  match l with
  | [] => [p]
  | q :: l' => if py q <? py p then p :: l else q :: insertByY p l'
  end.

Definition sortByYDesc (l : list Position) : list Position :=
  fold_left (fun acc p => insertByY p acc) l [].

(** The placing loops: [if (level[pos.y][pos.x] === EMPTY) level[pos.y][pos.x] = tile]. *)
Definition placeOnEmpty (tile : TileChar) (level : Level) (pos : Position)
  : Level :=
  if is_tile (getTile level (px pos) (py pos)) EMPTY
  then setCell level (px pos) (py pos) tile else level.

(** [validSpawnPositions[Math.floor(rng() * Math.min(5, length))]], with [r]
    the draw; the product is a product of doubles; [undefined] outside the
    array. *)
Definition pickSpawn (sorted : list Position) (r : Q) : option Position :=
  let spawnIdx :=
    Qfloor (roundDouble (r * inject_Z (Z.min 5 (len sorted)))) in
  if spawnIdx <? 0 then None else nth_error sorted (Z.to_nat spawnIdx).

(** The product is rounded before the floor: the double nearest to 1/3,
    which is below 1/3, times 3 is the double 1. *)
Example pickSpawn_rounds :
  (roundDouble (1 # 3) * 3 < 1)%Q /\
  pickSpawn [mkPos 0 0; mkPos 1 0; mkPos 2 0] (roundDouble (1 # 3))
  = Some (mkPos 1 0).
Proof. split; vm_compute; reflexivity. Qed.

Record Placement : Type := mkPlacement {
  placed : Level;                 (* the level returned *)
  chosenSpawn : option Position;  (* the local [spawn], when one was chosen *)
  drawnAfter : nat }.

Section Placing.

(** [[...positions].sort(() => rng() - 0.5)]: the comparator is random, so
    the order is whatever the engine's sort makes of it; the result is a
    permutation of the array, and the draws made are counted. *)
Variable shuffle : Rng -> nat -> list Position -> list Position * nat.

Definition placeEntities (structure : Level) (goldCount enemyCount : Z)
    (rng : Rng) (drawn : nat) : outcome Placement :=
  let level := cloneLevel structure in
  let height := len level in
  let width := widthOf level in
  let validGoldPositions := validPositions level in
  validSpawnPositions <-
    (if len validGoldPositions =? 0
     then fallbackSpawn level height
            (columns (Z.to_nat (Z.min 10 width - 1)) 1)
     else Ok validGoldPositions) ;;
  if len validSpawnPositions >? 0 then
    let sorted := sortByYDesc validSpawnPositions in
    match pickSpawn sorted (rng drawn) with
    | None => Throw "TypeError: Cannot read properties of undefined"
    | Some spawn =>
        level1 <- assignCell level (px spawn) (py spawn) SPAWN ;;
        let spawnKey := posKey (px spawn) (py spawn) in
        let filteredGoldPositions :=
          filter (fun p => negb (String.eqb (posKey (px p) (py p)) spawnKey))
                 validGoldPositions in
        let reachable := getReachablePositions level1 (px spawn) (py spawn) in
        let reachableGoldPositions :=
          filter (fun p => has (posKey (px p) (py p)) reachable)
                 filteredGoldPositions in
        let goldToPlace := Z.min goldCount (len reachableGoldPositions) in
        let '(shuffledGold, drawn2) :=
          shuffle rng (S drawn) reachableGoldPositions in
        let golds := firstn (Z.to_nat goldToPlace) shuffledGold in
        let level2 := fold_left (placeOnEmpty GOLD) golds level1 in
        let usedPositions :=
          fold_left (fun s p => add (posKey (px p) (py p)) s) golds [spawnKey] in
        let enemyPositions :=
          filter (fun p => negb (has (posKey (px p) (py p)) usedPositions))
                 reachableGoldPositions in
        let '(shuffledEnemies, drawn3) := shuffle rng drawn2 enemyPositions in
        let enemiesToPlace := Z.min enemyCount (len shuffledEnemies) in
        let level3 :=
          fold_left (placeOnEmpty ENEMY)
                    (firstn (Z.to_nat enemiesToPlace) shuffledEnemies) level2 in
        Ok (mkPlacement level3 (Some spawn) drawn3)
    end
  else Ok (mkPlacement level None drawn).

End Placing.

(** A shuffle that leaves the order as it is and draws nothing. *)
Definition keepOrder (rng : Rng) (drawn : nat) (l : list Position)
  : list Position * nat := (l, drawn).

(** A structure with a ladder to an upper platform.
<<
    ....
    bb#.
    ..#.
    BBBB
>> *)
Definition ladderStructure : Level :=
  [ [EMPTY; EMPTY; EMPTY; EMPTY];
    [BRICK; BRICK; LADDER; EMPTY];
    [EMPTY; EMPTY; LADDER; EMPTY];
    [SOLID; SOLID; SOLID; SOLID] ].

Example place_on_ladderStructure :
  placeEntities keepOrder ladderStructure 2 1 (fun _ => 0%Q) 0
  = Ok (mkPlacement
          [ [GOLD; GOLD; ENEMY; EMPTY];
            [BRICK; BRICK; LADDER; EMPTY];
            [SPAWN; EMPTY; LADDER; EMPTY];
            [SOLID; SOLID; SOLID; SOLID] ]
          (Some (mkPos 0 2)) 1).
Proof. vm_compute. reflexivity. Qed.

Example place_on_one_row :
  placeEntities keepOrder [ [SOLID; SOLID] ] 5 2 (fun _ => 0%Q) 0
  = Throw "TypeError: Cannot read properties of undefined".
Proof. reflexivity. Qed.

(* ------------------------------------------------------------------ *)
(** ** Entities do not change the movement model *)

(** The terrain under a cell: entities stand on Empty. *)
Definition terrainOf (o : option TileChar) : option TileChar :=
  option_map normalizeTile o.

(** Two grids of the same shape with the same terrain in every cell. *)
Definition sameTerrain (l1 l2 : Level) : Prop :=
  len l1 = len l2 /\ widthOf l1 = widthOf l2 /\
  forall x y, terrainOf (getTile l1 x y) = terrainOf (getTile l2 x y).

Lemma sameTerrain_refl (l : Level) : sameTerrain l l.
Proof. repeat split. Qed.

Lemma sameTerrain_trans (l1 l2 l3 : Level) :
  sameTerrain l1 l2 -> sameTerrain l2 l3 -> sameTerrain l1 l3.
Proof.
  intros [A1 [B1 C1]] [A2 [B2 C2]].
  split; [congruence|]. split; [congruence|].
  intros x y. now rewrite C1.
Qed.

Lemma is_tile_terrain (o1 o2 : option TileChar) (t : TileChar) :
  terrainOf o1 = terrainOf o2 ->
  normalizeTile t = t -> t <> EMPTY ->
  is_tile o1 t = is_tile o2 t.
Proof.
  intros H Ht Hne.
  destruct o1 as [[]|], o2 as [[]|]; simpl in H; try discriminate H;
    destruct t; simpl in *; try reflexivity; try discriminate Ht;
    try (exfalso; apply Hne; reflexivity).
Qed.

Section SameTerrain.

Variables l1 l2 : Level.
Hypothesis same : sameTerrain l1 l2.

Lemma terrain_cell (x y : Z) :
  terrainOf (getTile l1 x y) = terrainOf (getTile l2 x y).
Proof. apply same. Qed.

Lemma terrain_ladder (x y : Z) :
  is_tile (getTile l1 x y) LADDER = is_tile (getTile l2 x y) LADDER.
Proof. apply is_tile_terrain; [apply terrain_cell|reflexivity|discriminate]. Qed.

Lemma terrain_rope (x y : Z) :
  is_tile (getTile l1 x y) ROPE = is_tile (getTile l2 x y) ROPE.
Proof. apply is_tile_terrain; [apply terrain_cell|reflexivity|discriminate]. Qed.

Lemma terrain_canDig (x y : Z) : canDig l1 x y = canDig l2 x y.
Proof.
  unfold canDig.
  apply is_tile_terrain; [apply terrain_cell|reflexivity|discriminate].
Qed.

Lemma terrain_isPassable (x y : Z) (dugPositions : StrSet) :
  isPassable l1 x y dugPositions = isPassable l2 x y dugPositions.
Proof.
  unfold isPassable. pose proof (terrain_cell x y) as H.
  destruct (getTile l1 x y) as [[]|], (getTile l2 x y) as [[]|];
    simpl in H; try discriminate H; reflexivity.
Qed.

Lemma terrain_hasGroundSupport (x y : Z) :
  hasGroundSupport l1 x y = hasGroundSupport l2 x y.
Proof.
  unfold hasGroundSupport.
  rewrite !terrain_ladder, terrain_rope.
  pose proof (terrain_cell x (y + 1)) as H.
  destruct (getTile l1 x (y + 1)) as [[]|], (getTile l2 x (y + 1)) as [[]|];
    simpl in H; try discriminate H; reflexivity.
Qed.

Lemma terrain_fallScan (x : Z) (dugPositions : StrSet) (height : Z) :
  forall (rowsLeft : nat) (landY : Z),
    fallScan l1 x dugPositions height rowsLeft landY
    = fallScan l2 x dugPositions height rowsLeft landY.
Proof.
  induction rowsLeft as [|n IH]; intro landY; simpl; [reflexivity|].
  now rewrite terrain_isPassable, terrain_ladder, terrain_rope, IH.
Qed.

Lemma terrain_getValidMoves (x y : Z) (dugPositions : StrSet) :
  getValidMoves l1 x y dugPositions = getValidMoves l2 x y dugPositions.
Proof.
  unfold getValidMoves.
  rewrite terrain_hasGroundSupport, terrain_fallScan.
  rewrite !terrain_isPassable, !terrain_canDig, !terrain_ladder, !terrain_rope.
  destruct same as [Hlen [Hw _]]. now rewrite Hlen, Hw.
Qed.

Lemma terrain_bfsBody (st : BfsState) : bfsBody l1 st = bfsBody l2 st.
Proof.
  unfold bfsBody. destruct (queue st) as [|current rest]; [reflexivity|].
  now rewrite terrain_getValidMoves.
Qed.

Lemma terrain_bfsLoop :
  forall (n : nat) (st : BfsState), bfsLoop l1 n st = bfsLoop l2 n st.
Proof.
  induction n as [|n IH]; intro st; simpl; [reflexivity|].
  destruct (queue st); [reflexivity|]. now rewrite terrain_bfsBody, IH.
Qed.

(** Grids with the same terrain have the same reachable set. *)
Lemma terrain_getReachablePositions (startX startY : Z) :
  getReachablePositions l1 startX startY = getReachablePositions l2 startX startY.
Proof.
  unfold getReachablePositions, getReachablePositionsWithin.
  now rewrite terrain_bfsLoop.
Qed.

End SameTerrain.

Lemma setCell_widthOf (level : Level) (x y : Z) (t : TileChar) :
  widthOf (setCell level x y t) = widthOf level.
Proof.
  unfold setCell. destruct (getTile level x y); [|reflexivity].
  unfold rowAt. destruct (y <? 0); [reflexivity|].
  destruct (nth_error level (Z.to_nat y)) as [r|] eqn:Er; [|reflexivity].
  destruct level as [|r0 rest]; [destruct (Z.to_nat y); discriminate Er|].
  destruct (Z.to_nat y) as [|n]; simpl in *.
  - inversion Er; subst. unfold len. now rewrite replaceNth_length.
  - reflexivity.
Qed.

(** Writing an entity over an Empty cell keeps the terrain. *)
Lemma placeOnEmpty_terrain (tile : TileChar) (level : Level) (pos : Position) :
  normalizeTile tile = EMPTY ->
  sameTerrain level (placeOnEmpty tile level pos).
Proof.
  intro Ht. unfold placeOnEmpty.
  destruct (is_tile (getTile level (px pos) (py pos)) EMPTY) eqn:E;
    [|apply sameTerrain_refl].
  apply is_tile_true in E.
  split; [now rewrite setCell_len|]. split; [now rewrite setCell_widthOf|].
  intros x y.
  destruct (Z.eq_dec x (px pos)) as [->|Hx].
  - destruct (Z.eq_dec y (py pos)) as [->|Hy].
    + rewrite (getTile_setCell_same _ _ _ _ E), E. simpl. now rewrite Ht.
    + now rewrite getTile_setCell_other by now right.
  - now rewrite getTile_setCell_other by now left.
Qed.

Lemma placeAll_terrain (tile : TileChar) (ps : list Position) :
  normalizeTile tile = EMPTY ->
  forall level, sameTerrain level (fold_left (placeOnEmpty tile) ps level).
Proof.
  intro Ht. induction ps as [|p ps IH]; intro level; simpl.
  - apply sameTerrain_refl.
  - eapply sameTerrain_trans; [apply placeOnEmpty_terrain; exact Ht|apply IH].
Qed.

(** Where the tile [wanted] can come from after placing [tile]s. *)
Lemma placeOnEmpty_origin (tile wanted : TileChar) (level : Level)
    (pos : Position) (x y : Z) :
  getTile (placeOnEmpty tile level pos) x y = Some wanted ->
  getTile level x y = Some wanted \/
  (tile = wanted /\ x = px pos /\ y = py pos).
Proof.
  unfold placeOnEmpty.
  destruct (is_tile (getTile level (px pos) (py pos)) EMPTY) eqn:E;
    [|now left].
  apply is_tile_true in E. intro H.
  destruct (Z.eq_dec x (px pos)) as [->|Hx].
  - destruct (Z.eq_dec y (py pos)) as [->|Hy].
    + rewrite (getTile_setCell_same _ _ _ _ E) in H. inversion H. now right.
    + rewrite getTile_setCell_other in H by now right. now left.
  - rewrite getTile_setCell_other in H by now left. now left.
Qed.

Lemma placeAll_origin (tile wanted : TileChar) (ps : list Position) (x y : Z) :
  forall level,
    getTile (fold_left (placeOnEmpty tile) ps level) x y = Some wanted ->
    getTile level x y = Some wanted \/
    (tile = wanted /\ exists p, In p ps /\ x = px p /\ y = py p).
Proof.
  induction ps as [|p ps IH]; intros level H; simpl in H; [now left|].
  apply IH in H. destruct H as [H|[Ht [q [Hq Hxy]]]].
  - apply placeOnEmpty_origin in H. destruct H as [H|[Ht [Hx Hy]]]; [now left|].
    right. split; [exact Ht|]. exists p. split; [now left|now split].
  - right. split; [exact Ht|]. exists q. split; [now right|exact Hxy].
Qed.

Lemma firstn_incl {A : Type} (n : nat) (l : list A) (a : A) :
  In a (firstn n l) -> In a l.
Proof.
  revert l. induction n as [|n IH]; intros [|b l] H; simpl in H;
    try contradiction.
  destruct H as [<-|H]; [now left|right; now apply IH].
Qed.

(** A grid of terrain tiles only. *)
Definition structureGrid (level : Level) : Prop :=
  forall x y t, getTile level x y = Some t -> normalizeTile t = t.

(** C1. Let [placeEntities] return a level after choosing a spawn, on a
    structure grid, with any shuffle that permutes its argument.  Then the
    Gold and Enemy tiles it wrote stand on cells that were Empty, the
    reachable set of the returned level from the spawn is the one computed
    before gold and enemies were placed, and every Gold tile of the returned
    level is in [getReachablePositions(level, spawn.x, spawn.y)]. *)
Theorem placeEntities_gold_reachable
    (shuffle : Rng -> nat -> list Position -> list Position * nat)
    (structure : Level) (goldCount enemyCount : Z) (rng : Rng) (drawn : nat)
    (result : Placement) (spawn : Position) :
  (forall r n l, Permutation (fst (shuffle r n l)) l) ->
  structureGrid structure ->
  placeEntities shuffle structure goldCount enemyCount rng drawn = Ok result ->
  chosenSpawn result = Some spawn ->
  sameTerrain (setCell structure (px spawn) (py spawn) SPAWN) (placed result) /\
  forall x y,
    getTile (placed result) x y = Some GOLD ->
    has (posKey x y)
        (getReachablePositions (placed result) (px spawn) (py spawn)) = true.
Proof.
  intros Hperm Hstruct Hrun Hspawn.
  unfold placeEntities in Hrun. rewrite cloneLevel_id in Hrun.
  destruct (if len (validPositions structure) =? 0
            then fallbackSpawn structure (len structure)
                   (columns (Z.to_nat (Z.min 10 (widthOf structure) - 1)) 1)
            else Ok (validPositions structure)) as [vsp|e]; cbn [bind] in Hrun;
    [|discriminate].
  destruct (len vsp >? 0).
  2:{ inversion Hrun; subst result. simpl in Hspawn. discriminate. }
  destruct (pickSpawn (sortByYDesc vsp) (rng drawn)) as [sp|];
    [|discriminate].
  unfold assignCell in Hrun.
  destruct (rowAt structure (py sp)); cbn [bind] in Hrun; [|discriminate].
  set (level1 := setCell structure (px sp) (py sp) SPAWN) in *.
  set (reach := getReachablePositions level1 (px sp) (py sp)) in *.
  set (rgp := filter (fun p => has (posKey (px p) (py p)) reach) _) in *.
  pose proof (Hperm rng (S drawn) rgp) as Hp1.
  destruct (shuffle rng (S drawn) rgp) as [shuffledGold drawn2]. simpl in Hp1.
  set (golds := firstn (Z.to_nat (Z.min goldCount (len rgp))) shuffledGold) in *.
  destruct (shuffle rng drawn2 _) as [shuffledEnemies drawn3].
  inversion Hrun; subst result. clear Hrun. simpl in *.
  inversion Hspawn; subst sp. clear Hspawn.
  set (level2 := fold_left (placeOnEmpty GOLD) golds level1) in *.
  assert (T12 : sameTerrain level1 level2) by (now apply placeAll_terrain).
  assert (T23 : sameTerrain level2
                  (fold_left (placeOnEmpty ENEMY)
                     (firstn (Z.to_nat (Z.min enemyCount (len shuffledEnemies)))
                        shuffledEnemies) level2))
    by (now apply placeAll_terrain).
  assert (T13 := sameTerrain_trans T12 T23).
  split; [exact T13|].
  intros x y Hgold.
  rewrite <- (terrain_getReachablePositions T13). fold reach.
  apply placeAll_origin in Hgold. destruct Hgold as [Hgold|[Hne _]];
    [|discriminate Hne].
  apply placeAll_origin in Hgold. destruct Hgold as [Hgold|[_ [p [Hin [-> ->]]]]].
  - (* a Gold tile of the structure: there is none *)
    exfalso. unfold level1 in Hgold.
    destruct (Z.eq_dec x (px spawn)) as [->|Hx].
    + destruct (Z.eq_dec y (py spawn)) as [->|Hy].
      * destruct (getTile structure (px spawn) (py spawn)) as [u|] eqn:Eu.
        -- rewrite (getTile_setCell_same _ _ _ _ Eu) in Hgold. discriminate.
        -- unfold setCell in Hgold. rewrite Eu in Hgold. congruence.
      * rewrite getTile_setCell_other in Hgold by now right.
        apply Hstruct in Hgold. discriminate.
    + rewrite getTile_setCell_other in Hgold by now left.
      apply Hstruct in Hgold. discriminate.
  - (* a Gold tile that was placed *)
    apply firstn_incl in Hin.
    apply (Permutation_in _ Hp1) in Hin.
    unfold rgp in Hin. apply filter_In in Hin. apply Hin.
Qed.

Lemma structureGrid_check (level : Level) :
  forallb (forallb (fun t => tile_eqb (normalizeTile t) t)) level = true ->
  structureGrid level.
Proof.
  intros H x y t Ht. apply getTile_some in Ht.
  destruct Ht as [_ [_ [r [Hr Hc]]]].
  rewrite forallb_forall in H. apply nth_error_In in Hr, Hc.
  specialize (H r Hr). rewrite forallb_forall in H.
  apply tile_eqb_eq. now apply H.
Qed.

Lemma placeEntities_gold_reachable_witness :
  has (posKey 0 0)
      (getReachablePositions
         [ [GOLD; GOLD; ENEMY; EMPTY];
           [BRICK; BRICK; LADDER; EMPTY];
           [SPAWN; EMPTY; LADDER; EMPTY];
           [SOLID; SOLID; SOLID; SOLID] ] 0 2) = true.
Proof.
  assert (Hperm : forall (r : Rng) (n : nat) (l : list Position),
             Permutation (fst (keepOrder r n l)) l)
    by (intros r n l; apply Permutation_refl).
  assert (Hgrid : structureGrid ladderStructure)
    by (apply structureGrid_check; reflexivity).
  exact (proj2 (@placeEntities_gold_reachable keepOrder ladderStructure 2 1
                  (fun _ => 0%Q) 0%nat _ (mkPos 0 2)
                  Hperm Hgrid place_on_ladderStructure eq_refl)
               0 0 eq_refl).
Defined.

(* ------------------------------------------------------------------ *)
(** ** levelGenerator.ts: the orchestrator *)

Module GeneratorConfig.
Record t : Type := mk {
  width : option nat; height : option nat;
  goldCount : option Z; enemyCount : option Z }.
End GeneratorConfig.

(** [GenerationResult]; [generationTimeMs] is wall-clock time and is left
    out.  [level] and [validation] are [null] when no attempt was made. *)
Module GenerationResult.
Record t : Type := mk {
  level : option Level;
  validation : option ValidationResult;
  attempts : Z;
  fullySolvable : bool }.
End GenerationResult.

(** The draws made so far from [rng] and from [Math.random]. *)
Record Draws : Type := mkDraws { rngDrawn : nat; randomDrawn : nat }.

Definition orDefault {A : Type} (o : option A) (d : A) : A :=
  match o with Some a => a | None => d end.

(** [generateRaw(config, rng)] *)
Definition generateRaw (transitions : Transitions Q)
    (shuffle : Rng -> nat -> list Position -> list Position * nat)
    (config : GeneratorConfig.t) (rng random : Rng) (w : Draws)
  : outcome (Level * Draws) :=
  let width := orDefault (GeneratorConfig.width config) (Z.to_nat LEVEL_WIDTH) in
  let height := orDefault (GeneratorConfig.height config) (Z.to_nat LEVEL_HEIGHT) in
  let goldCount := orDefault (GeneratorConfig.goldCount config) 5 in
  let enemyCount := orDefault (GeneratorConfig.enemyCount config) 2 in
  st <- generateStructure transitions width height rng (rngDrawn w) ;;
  let repaired := postProcessStructure random (fst st) (randomDrawn w) in
  p <- placeEntities shuffle (fst repaired) goldCount enemyCount rng (snd st) ;;
  Ok (placed p, mkDraws (drawnAfter p) (snd repaired)).

(** The running best candidate; [bestScore = None] is [-Infinity]. *)
Record Best : Type := mkBest {
  bestLevel : option Level;
  bestValidation : option ValidationResult;
  bestScore : option Z;
  bestFullySolvable : bool }.

Definition baseScore (v : ValidationResult) : Z :=
  len (reachableGold v) - len (unreachableGold v) * 10 - len (issues v).

Section Orchestrator.

(** [this.generateRaw(config, rng)], as a step on the draws made. *)
Variable rawStep : Draws -> outcome (Level * Draws).
Variable requireFullSolve : bool.

(** [while (attempts < maxAttempts)]: the recursion is on the attempts
    left. *)
Fixpoint generateLoop (attemptsLeft : nat) (attempts : Z) (best : Best)
    (w : Draws) : outcome GenerationResult.t :=
  match attemptsLeft with
  | O =>
      Ok (GenerationResult.mk (bestLevel best) (bestValidation best) attempts
            (bestFullySolvable best))
  | S n =>
      let attempts' := attempts + 1 in
      r <- rawStep w ;;
      let level := fst r in
      let validation := validateLevel level in
      let score0 := baseScore validation in
      let fullySolvable :=
        if valid validation then isFullySolvable level else false in
      let score := if fullySolvable then score0 + 50 else score0 in
      let best' :=
        if match bestScore best with None => true | Some b => score >? b end
        then mkBest (Some level) (Some validation) (Some score) fullySolvable
        else best in
      if requireFullSolve then
        if valid validation && fullySolvable
        then Ok (GenerationResult.mk (Some level) (Some validation) attempts' true)
        else generateLoop n attempts' best' (snd r)
      else
        if valid validation
        then Ok (GenerationResult.mk (Some level) (Some validation) attempts'
                   fullySolvable)
        else generateLoop n attempts' best' (snd r)
  end.

(** The levels of [n] successive attempts. *)
Fixpoint attemptLevels (n : nat) (w : Draws) : outcome (list Level) :=
  match n with
  | O => Ok []
  | S k =>
      r <- rawStep w ;;
      rest <- attemptLevels k (snd r) ;;
      Ok (fst r :: rest)
  end.

(** The words of the specification: the full-solve flag of a level, its
    score, and the success criterion. *)
Definition fullySolvableOf (level : Level) : bool :=
  if valid (validateLevel level) then isFullySolvable level else false.

Definition scoreOf (level : Level) : Z :=
  baseScore (validateLevel level) + (if fullySolvableOf level then 50 else 0).

Definition succeeds (level : Level) : bool :=
  if requireFullSolve
  then valid (validateLevel level) && fullySolvableOf level
  else valid (validateLevel level).

Definition resultFor (level : Level) (attempts : Z) : GenerationResult.t :=
  GenerationResult.mk (Some level) (Some (validateLevel level)) attempts
    (fullySolvableOf level).

(** What [generate] should return on the attempts [levels]: the first
    attempt that succeeds, else a best-scored one. *)
Definition generated (levels : list Level) (r : GenerationResult.t) : Prop :=
  (exists (i : nat) (lv : Level),
     nth_error levels i = Some lv /\ succeeds lv = true /\
     (forall j lv', (j < i)%nat -> nth_error levels j = Some lv' ->
                    succeeds lv' = false) /\
     r = resultFor lv (Z.of_nat i + 1))
  \/
  ((forall lv, In lv levels -> succeeds lv = false) /\
   exists b, In b levels /\
             (forall lv, In lv levels -> scoreOf lv <= scoreOf b) /\
             r = resultFor b (len levels)).

(** The best candidate after the failed attempts [seen]. *)
Definition bestAfter (seen : list Level) (best : Best) : Prop :=
  match seen with
  | [] => best = mkBest None None None false
  | _ :: _ =>
      exists b, In b seen /\
                (forall lv, In lv seen -> scoreOf lv <= scoreOf b) /\
                best = mkBest (Some b) (Some (validateLevel b))
                         (Some (scoreOf b)) (fullySolvableOf b)
  end.

Hypothesis rawStep_returns : forall w, exists r, rawStep w = Ok r.

Lemma attemptLevels_returns :
  forall (n : nat) (w : Draws),
    exists levels, attemptLevels n w = Ok levels /\ List.length levels = n.
Proof.
  induction n as [|n IH]; intro w; simpl.
  - now exists [].
  - destruct (rawStep_returns w) as [r Hr]. rewrite Hr. simpl.
    destruct (IH (snd r)) as [rest [Hrest Hl]]. rewrite Hrest. simpl.
    exists (fst r :: rest). split; [reflexivity|]. simpl. now rewrite Hl.
Qed.

Lemma bestAfter_step (seen : list Level) (best : Best) (lv : Level) :
  bestAfter seen best ->
  bestAfter (seen ++ [lv])
    (if match bestScore best with
        | None => true
        | Some b => (if (if valid (validateLevel lv) then isFullySolvable lv
                         else false)
                     then baseScore (validateLevel lv) + 50
                     else baseScore (validateLevel lv)) >? b
        end
     then mkBest (Some lv) (Some (validateLevel lv))
            (Some (if (if valid (validateLevel lv) then isFullySolvable lv
                       else false)
                   then baseScore (validateLevel lv) + 50
                   else baseScore (validateLevel lv)))
            (if valid (validateLevel lv) then isFullySolvable lv else false)
     else best).
Proof.
  intro H.
  assert (Hscore : (if (if valid (validateLevel lv) then isFullySolvable lv
                        else false)
                    then baseScore (validateLevel lv) + 50
                    else baseScore (validateLevel lv)) = scoreOf lv).
  { unfold scoreOf, fullySolvableOf.
    destruct (if valid (validateLevel lv) then isFullySolvable lv else false);
      lia. }
  rewrite Hscore. fold (fullySolvableOf lv).
  destruct seen as [|s0 seen]; simpl in H.
  - subst best. simpl. exists lv. split; [now left|]. split; [|reflexivity].
    intros l [<-|[]]. lia.
  - destruct H as [b [Hb [Hmax ->]]]. simpl bestScore.
    change ((s0 :: seen) ++ [lv]) with (s0 :: (seen ++ [lv])).
    destruct (scoreOf lv >? scoreOf b) eqn:E.
    + apply Z.gtb_lt in E. exists lv. split.
      * change (In lv ((s0 :: seen) ++ [lv])). apply in_or_app. right. now left.
      * split; [|reflexivity]. intros l Hl.
        change (In l ((s0 :: seen) ++ [lv])) in Hl. apply in_app_or in Hl.
        destruct Hl as [Hl|[<-|[]]]; [|lia]. specialize (Hmax l Hl). lia.
    + rewrite Z.gtb_ltb in E. apply Z.ltb_ge in E. exists b. split.
      * change (In b ((s0 :: seen) ++ [lv])). apply in_or_app. now left.
      * split; [|reflexivity]. intros l Hl.
        change (In l ((s0 :: seen) ++ [lv])) in Hl. apply in_app_or in Hl.
        destruct Hl as [Hl|[<-|[]]]; [now apply Hmax|exact E].
Qed.

Lemma len_snoc {A : Type} (l : list A) (a : A) : len (l ++ [a]) = len l + 1.
Proof. unfold len. rewrite length_app. simpl. lia. Qed.

(** The loop, started after the failed attempts [seen] with their best
    candidate, returns the first later attempt that succeeds, or else the
    best candidate of all attempts. *)
Lemma generateLoop_generated :
  forall (n : nat) (seen : list Level) (best : Best) (w : Draws),
    bestAfter seen best ->
    (forall lv, In lv seen -> succeeds lv = false) ->
    exists (levels : list Level) (r : GenerationResult.t),
      attemptLevels n w = Ok levels /\
      generateLoop n (len seen) best w = Ok r /\
      ((exists (i : nat) (lv : Level),
          nth_error levels i = Some lv /\ succeeds lv = true /\
          (forall j lv', (j < i)%nat -> nth_error levels j = Some lv' ->
                         succeeds lv' = false) /\
          r = resultFor lv (len seen + Z.of_nat i + 1))
       \/
       ((forall lv, In lv levels -> succeeds lv = false) /\
        exists best',
          bestAfter (seen ++ levels) best' /\
          r = GenerationResult.mk (bestLevel best') (bestValidation best')
                (len seen + len levels) (bestFullySolvable best'))).
Proof.
  induction n as [|n IH]; intros seen best w Hbest Hfail.
  - exists [], (GenerationResult.mk (bestLevel best) (bestValidation best)
                  (len seen) (bestFullySolvable best)).
    split; [reflexivity|]. split; [reflexivity|]. right.
    split; [intros lv []|]. exists best. rewrite app_nil_r.
    split; [exact Hbest|]. f_equal. unfold len. simpl. lia.
  - simpl. destruct (rawStep_returns w) as [[lv w'] Hr]. rewrite Hr.
    cbn [bind fst snd].
    pose proof (@bestAfter_step seen best lv Hbest) as Hbest'.
    set (best' := if match bestScore best with None => true | Some b => _ end
                  then _ else best) in *.
    assert (Hfail' : succeeds lv = false ->
                     forall l, In l (seen ++ [lv]) -> succeeds l = false).
    { intros Hlv l Hl. apply in_app_or in Hl.
      destruct Hl as [Hl|[<-|[]]]; [now apply Hfail|exact Hlv]. }
    assert (Hcont : succeeds lv = false ->
      exists (levels : list Level) (r : GenerationResult.t),
        (rest <- attemptLevels n w' ;; Ok (lv :: rest)) = Ok levels /\
        generateLoop n (len seen + 1) best' w' = Ok r /\
        ((exists (i : nat) (lv0 : Level),
            nth_error levels i = Some lv0 /\ succeeds lv0 = true /\
            (forall j lv', (j < i)%nat -> nth_error levels j = Some lv' ->
                           succeeds lv' = false) /\
            r = resultFor lv0 (len seen + Z.of_nat i + 1))
         \/
         ((forall lv0, In lv0 levels -> succeeds lv0 = false) /\
          exists best'',
            bestAfter (seen ++ levels) best'' /\
            r = GenerationResult.mk (bestLevel best'') (bestValidation best'')
                  (len seen + len levels) (bestFullySolvable best'')))).
    { intro Hlv.
      destruct (IH (seen ++ [lv]) best' w' Hbest' (Hfail' Hlv))
        as [rest [r [Erest [Eloop Hres]]]].
      rewrite len_snoc in Eloop. rewrite Erest. cbn [bind].
      exists (lv :: rest), r. split; [reflexivity|]. split; [exact Eloop|].
      destruct Hres as [[i [lv0 [Hi [Hs [Hbefore Hr0]]]]]|[Hall [b2 [Hb2 Hr0]]]].
      - left. exists (S i), lv0. split; [exact Hi|]. split; [exact Hs|]. split.
        + intros [|j] lv' Hj Hn; simpl in Hn.
          * inversion Hn; subst. exact Hlv.
          * apply (Hbefore j lv'); [lia|exact Hn].
        + rewrite Hr0, len_snoc. f_equal. lia.
      - right. split.
        + intros l [<-|Hl]; [exact Hlv|now apply Hall].
        + exists b2. rewrite <- app_assoc in Hb2. split; [exact Hb2|].
          rewrite Hr0, len_snoc. f_equal. unfold len. simpl. lia. }
    assert (Hnow : succeeds lv = true ->
      forall full,
        full = fullySolvableOf lv ->
        exists (levels : list Level) (r : GenerationResult.t),
          (rest <- attemptLevels n w' ;; Ok (lv :: rest)) = Ok levels /\
          Ok (GenerationResult.mk (Some lv) (Some (validateLevel lv))
                (len seen + 1) full) = Ok r /\
          ((exists (i : nat) (lv0 : Level),
              nth_error levels i = Some lv0 /\ succeeds lv0 = true /\
              (forall j lv', (j < i)%nat -> nth_error levels j = Some lv' ->
                             succeeds lv' = false) /\
              r = resultFor lv0 (len seen + Z.of_nat i + 1))
           \/
           ((forall lv0, In lv0 levels -> succeeds lv0 = false) /\
            exists best'',
              bestAfter (seen ++ levels) best'' /\
              r = GenerationResult.mk (bestLevel best'') (bestValidation best'')
                    (len seen + len levels) (bestFullySolvable best'')))).
    { intros Hlv full ->.
      destruct (attemptLevels_returns n w') as [rest [Erest _]].
      rewrite Erest. cbn [bind].
      exists (lv :: rest), (resultFor lv (len seen + 1)).
      split; [reflexivity|]. split; [reflexivity|]. left.
      exists 0%nat, lv. split; [reflexivity|]. split; [exact Hlv|].
      split; [intros j lv' Hj; lia|]. f_equal. simpl. lia. }
    assert (Hsucc : succeeds lv
                    = if requireFullSolve
                      then valid (validateLevel lv) && fullySolvableOf lv
                      else valid (validateLevel lv)) by reflexivity.
    fold (fullySolvableOf lv).
    case_eq requireFullSolve; intro Ereq; rewrite Ereq in Hsucc.
    + destruct (valid (validateLevel lv) && fullySolvableOf lv) eqn:E.
      * apply (Hnow Hsucc). apply andb_true_iff in E. symmetry. apply E.
      * apply Hcont. exact Hsucc.
    + destruct (valid (validateLevel lv)) eqn:Ev.
      * apply (Hnow Hsucc). reflexivity.
      * apply Hcont. exact Hsucc.
Qed.

End Orchestrator.

(** [generate(config, maxAttempts, rng, requireFullSolve)], started on the
    draws made so far. *)
Definition generate (transitions : Transitions Q)
    (shuffle : Rng -> nat -> list Position -> list Position * nat)
    (config : GeneratorConfig.t) (maxAttempts : Z) (rng random : Rng)
    (requireFullSolve : bool) (w : Draws) : outcome GenerationResult.t :=
  generateLoop (generateRaw transitions shuffle config rng random)
    requireFullSolve (Z.to_nat maxAttempts) 0 (mkBest None None None false) w.

(* ------------------------------------------------------------------ *)
(** ** The pipeline does not throw on grids of two rows or more *)

Lemma repairCell_rect (random : Rng) (height : Z) (w h : nat)
    (st : Level * nat) (x y : Z) :
  rect w h (fst st) -> rect w h (fst (repairCell random height st x y)).
Proof.
  intro R. unfold repairCell.
  assert (R1 : rect w h
    (fst (if is_tile (getTile (fst st) x y) LADDER then
            if y <? height - 2 then
              if is_tile (getTile (fst st) x (y + 1)) EMPTY then
                if Qltb (random (snd st)) lit_0_7
                then (setCell (fst st) x (y + 1) LADDER, S (snd st))
                else (setCell (fst st) x y EMPTY, S (snd st))
              else st
            else st
          else st))).
  { destruct (is_tile (getTile (fst st) x y) LADDER); [|exact R].
    destruct (y <? height - 2); [|exact R].
    destruct (is_tile (getTile (fst st) x (y + 1)) EMPTY); [|exact R].
    destruct (Qltb (random (snd st)) lit_0_7); simpl; now apply setCell_rect. }
  destruct (is_tile (getTile (fst st) x y) ROPE); [|exact R1].
  match goal with
  | |- context [if ?c then (setCell ?l x y ?t, ?p) else ?s] =>
      destruct c; simpl; [now apply setCell_rect|exact R1]
  end.
Qed.

Lemma postProcessStructure_rect (random : Rng) (w h : nat) (level : Level)
    (drawn : nat) :
  rect w h level -> rect w h (fst (postProcessStructure random level drawn)).
Proof.
  intro R. unfold postProcessStructure. rewrite cloneLevel_id.
  generalize (columns (Z.to_nat (len level)) 0).
  assert (G : forall (ys : list Z) (st : Level * nat),
             rect w h (fst st) ->
             rect w h (fst (fold_left
                              (repairRow random (len level)
                                 (Z.to_nat (widthOf level))) ys st))).
  { induction ys as [|y ys IH]; intros st Rst; simpl; [exact Rst|].
    apply IH. unfold repairRow.
    generalize (columns (Z.to_nat (widthOf level)) 0). intro xs. revert st Rst.
    induction xs as [|x xs IHx]; intros st Rst; simpl; [exact Rst|].
    apply IHx. now apply repairCell_rect. }
  intro ys. now apply G.
Qed.

Lemma insertByY_In (p q : Position) (l : list Position) :
  In q (insertByY p l) <-> q = p \/ In q l.
Proof.
  induction l as [|a l IH]; simpl.
  - split; [intros [<-|[]]; now left|intros [->|[]]; now left].
  - destruct (py a <? py p); simpl.
    + split; [intros [<-|H]; [now left|now right]|intros [->|H]; [now left|now right]].
    + rewrite IH. split.
      * intros [H|[H|H]]; [right; now left|now left|right; now right].
      * intros [H|[H|H]]; [right; now left|now left|right; now right].
Qed.

Lemma sortByYDesc_In (q : Position) (l : list Position) :
  In q (sortByYDesc l) <-> In q l.
Proof.
  unfold sortByYDesc.
  assert (G : forall acc, In q (fold_left (fun a p => insertByY p a) l acc)
                          <-> In q l \/ In q acc).
  { induction l as [|p l IH]; intro acc; simpl.
    - split; [now right|intros [[]|H]; exact H].
    - rewrite IH, insertByY_In. split.
      + intros [H|[H|H]]; [left; now right|left; now left|now right].
      + intros [[H|H]|H]; [right; left; now symmetry|now left|right; now right]. }
  rewrite G. simpl. split; [intros [H|[]]; exact H|now left].
Qed.

Lemma pickSpawn_some (l : list Position) (r : Q) :
  l <> [] -> (0 <= r)%Q -> (r <= maxDraw)%Q ->
  exists p, pickSpawn l r = Some p /\ In p l.
Proof.
  intros Hl H0 H1. unfold pickSpawn.
  set (k := Z.min 5 (len l)).
  assert (Hk : 1 <= k <= len l).
  { unfold k, len. destruct l; [congruence|]. simpl. lia. }
  assert (Hkq : (1 <= inject_Z k)%Q).
  { change 1%Q with (inject_Z 1). rewrite <- Zle_Qle. lia. }
  assert (Hprod : (0 <= r * inject_Z k)%Q)
    by (apply Qmult_le_0_compat; lra).
  assert (Hidx : 0 <= Qfloor (roundDouble (r * inject_Z k)) < k).
  { split.
    - change 0 with (Qfloor 0). apply Qfloor_resp_le.
      now apply roundDouble_nonneg.
    - assert (Hb : (roundDouble (r * inject_Z k) < inject_Z k)%Q).
      { apply roundDouble_below; [exact Hprod|exact Hkq|].
        rewrite (Qmult_comm r). apply Qmult_le_l; lra. }
      pose proof (Qfloor_le (roundDouble (r * inject_Z k))) as Hf.
      rewrite Zlt_Qlt. lra. }
  destruct (Qfloor (roundDouble (r * inject_Z k)) <? 0) eqn:E;
    [apply Z.ltb_lt in E; lia|].
  destruct (nth_error l (Z.to_nat (Qfloor (roundDouble (r * inject_Z k)))))
    as [p|] eqn:Ep.
  - exists p. split; [reflexivity|]. eapply nth_error_In; exact Ep.
  - apply nth_error_None in Ep. unfold len in Hk. lia.
Qed.

Lemma validPositions_rows (level : Level) (p : Position) :
  In p (validPositions level) -> 0 <= py p < len level - 1.
Proof.
  unfold validPositions. intro H. apply in_flat_map in H.
  destruct H as [y [Hy H]]. apply in_flat_map in H. destruct H as [x [_ H]].
  apply columns_In in Hy.
  destruct (_ && _); [|contradiction]. destruct H as [<-|[]]. simpl. lia.
Qed.

Lemma fallbackSpawn_returns (level : Level) (height : Z) :
  (exists r, rowAt level (height - 2) = Some r) ->
  forall xs, exists l, fallbackSpawn level height xs = Ok l /\
                       forall p, In p l -> py p = height - 2.
Proof.
  intros [r Hr]. induction xs as [|x xs IH]; simpl.
  - exists []. split; [reflexivity|intros p []].
  - rewrite Hr. destruct (is_tile (cellAt r x) EMPTY); [|exact IH].
    eexists. split; [reflexivity|]. intros p [<-|[]]. reflexivity.
Qed.

(** On a grid of at least two rows, with the spawn draw a double in
    [[0, 1)] (so at most [maxDraw]), [placeEntities] returns. *)
Lemma placeEntities_returns
    (shuffle : Rng -> nat -> list Position -> list Position * nat)
    (w h : nat) (structure : Level) (goldCount enemyCount : Z)
    (rng : Rng) (drawn : nat) :
  rect w h structure -> (2 <= h)%nat ->
  (0 <= rng drawn)%Q -> (rng drawn <= maxDraw)%Q ->
  exists p, placeEntities shuffle structure goldCount enemyCount rng drawn = Ok p.
Proof.
  intros R Hh H0 H1. unfold placeEntities. rewrite cloneLevel_id.
  pose proof (rect_len R) as Hlen.
  assert (Hvsp : exists vsp,
    (if len (validPositions structure) =? 0
     then fallbackSpawn structure (len structure)
            (columns (Z.to_nat (Z.min 10 (widthOf structure) - 1)) 1)
     else Ok (validPositions structure)) = Ok vsp /\
    forall p, In p vsp -> 0 <= py p < len structure).
  { destruct (len (validPositions structure) =? 0).
    - destruct (@fallbackSpawn_returns structure (len structure)) with
        (xs := columns (Z.to_nat (Z.min 10 (widthOf structure) - 1)) 1)
        as [l [El Hl]].
      + apply rowAt_some_iff. lia.
      + exists l. split; [exact El|]. intros p Hp. rewrite (Hl p Hp). lia.
    - exists (validPositions structure). split; [reflexivity|].
      intros p Hp. apply validPositions_rows in Hp. lia. }
  destruct Hvsp as [vsp [Evsp Hrows]]. rewrite Evsp. cbn [bind].
  destruct (len vsp >? 0) eqn:Epos; [|eexists; reflexivity].
  assert (Hne : sortByYDesc vsp <> []).
  { intro Hnil. destruct vsp as [|p0 vsp]; [discriminate Epos|].
    assert (Hin : In p0 (sortByYDesc (p0 :: vsp)))
      by (apply sortByYDesc_In; now left).
    rewrite Hnil in Hin. contradiction. }
  destruct (pickSpawn_some Hne H0 H1) as [sp [Esp Hsp]]. rewrite Esp.
  apply (proj1 (sortByYDesc_In sp vsp)) in Hsp.
  rewrite assignCell_ok by (now apply Hrows). cbn [bind].
  destruct (shuffle rng (S drawn) _) as [shuffledGold drawn2].
  destruct (shuffle rng drawn2 _) as [shuffledEnemies drawn3].
  eexists; reflexivity.
Qed.

(** The width and height that [generateRaw] takes from the config; the
    defaults are 28 by 16. *)
Definition configWidth (config : GeneratorConfig.t) : nat :=
  orDefault (GeneratorConfig.width config) (Z.to_nat LEVEL_WIDTH).

Definition configHeight (config : GeneratorConfig.t) : nat :=
  orDefault (GeneratorConfig.height config) (Z.to_nat LEVEL_HEIGHT).

Lemma generateRaw_returns (transitions : Transitions Q)
    (shuffle : Rng -> nat -> list Position -> list Position * nat)
    (config : GeneratorConfig.t) (rng random : Rng) :
  (2 <= configHeight config)%nat ->
  (forall n, (0 <= rng n)%Q /\ (rng n <= maxDraw)%Q) ->
  forall w, exists r, generateRaw transitions shuffle config rng random w = Ok r.
Proof.
  intros Hcfg Hrng w. unfold generateRaw, configHeight in *.
  set (width := orDefault (GeneratorConfig.width config) (Z.to_nat LEVEL_WIDTH)).
  set (height := orDefault (GeneratorConfig.height config) (Z.to_nat LEVEL_HEIGHT)) in *.
  destruct (@generateStructure_runs transitions width height rng (rngDrawn w))
    as [st [Est [R _]]]; [lia|].
  rewrite Est. cbn [bind].
  destruct (@placeEntities_returns shuffle width height
              (fst (postProcessStructure random (fst st) (randomDrawn w)))
              (orDefault (GeneratorConfig.goldCount config) 5)
              (orDefault (GeneratorConfig.enemyCount config) 2)
              rng (snd st)) as [p Ep].
  - now apply postProcessStructure_rect.
  - exact Hcfg.
  - apply Hrng.
  - apply Hrng.
  - rewrite Ep. cbn [bind]. eexists; reflexivity.
Qed.

(** C9, amended.  For a config whose height is at least 2 (whatever its
    width), draws of [rng] that are doubles in [[0, 1)] (between 0 and the
    largest double below 1) and [maxAttempts >= 1], [generate] returns (it
    does not throw) a result whose [level] is not [null] and whose
    [validation] is that level's [validateLevel]: the result is the first
    attempt that meets the success criterion ([valid], or [valid] and fully
    solvable when [requireFullSolve] is set), with the number of attempts
    made up to it; and when none of the [maxAttempts] attempts succeeds, it
    is an attempt whose score [reachableGold.length - 10 *
    unreachableGold.length - issues.length], plus 50 when fully solvable,
    is the highest, annotated with that attempt's failing validation. *)
Theorem generate_returns_best (transitions : Transitions Q)
    (shuffle : Rng -> nat -> list Position -> list Position * nat)
    (config : GeneratorConfig.t) (maxAttempts : Z) (rng random : Rng)
    (requireFullSolve : bool) (w : Draws) :
  (2 <= configHeight config)%nat ->
  (forall n, (0 <= rng n)%Q /\ (rng n <= maxDraw)%Q) ->
  1 <= maxAttempts ->
  exists (levels : list Level) (r : GenerationResult.t),
    attemptLevels (generateRaw transitions shuffle config rng random)
      (Z.to_nat maxAttempts) w = Ok levels /\
    len levels = maxAttempts /\
    generate transitions shuffle config maxAttempts rng random
      requireFullSolve w = Ok r /\
    (exists lv, GenerationResult.level r = Some lv /\
                GenerationResult.validation r = Some (validateLevel lv)) /\
    generated requireFullSolve levels r.
Proof.
  intros Hcfg Hrng Hmax.
  pose proof (@generateRaw_returns transitions shuffle config rng random Hcfg Hrng)
    as Hraw.
  destruct (@generateLoop_generated
              (generateRaw transitions shuffle config rng random)
              requireFullSolve Hraw (Z.to_nat maxAttempts) []
              (mkBest None None None false) w eq_refl)
    as [levels [r [Elev [Egen Hres]]]]; [intros lv []|].
  destruct (@attemptLevels_returns _ Hraw (Z.to_nat maxAttempts) w)
    as [levels' [Elev' Hlen]].
  rewrite Elev in Elev'. inversion Elev'; subst levels'. clear Elev'.
  exists levels, r. split; [exact Elev|].
  split; [unfold len; lia|]. split; [exact Egen|].
  change (len (@nil Level)) with 0 in Hres.
  destruct Hres as [[i [lv [Hi [Hs [Hbefore ->]]]]]|[Hall [best [Hbest ->]]]].
  - split; [exists lv; now split|].
    left. exists i, lv. repeat split; try assumption.
  - simpl in Hbest. destruct levels as [|l0 levels]; [simpl in Hlen; lia|].
    destruct Hbest as [b [Hb [Hmaxb ->]]]. simpl.
    split; [exists b; now split|].
    right. split; [exact Hall|]. exists b. repeat split; assumption.
Qed.

(** A three-by-three request. *)
Definition smallConfig : GeneratorConfig.t :=
  GeneratorConfig.mk (Some 3%nat) (Some 3%nat) None None.

Example generate_small :
  generate [] keepOrder smallConfig 2 (fun _ => 0%Q) (fun _ => 0%Q) false
    (mkDraws 0 0)
  = Ok (GenerationResult.mk
          (Some [ [EMPTY; EMPTY; EMPTY]; [SPAWN; GOLD; GOLD]; [SOLID; SOLID; SOLID] ])
          (Some (mkValidation true [mkPos 1 1; mkPos 2 1] [] (Some (mkPos 0 1)) []))
          1 false).
Proof. vm_compute. reflexivity. Qed.

(** A request for one row of two columns.  The row is the floor, so
    [placeEntities] finds no cell to spawn on, and its fallback reads
    [level[height - 2][x]] with [height - 2 = -1]: [level[-1]] is
    [undefined], and [generate] throws. *)
Definition oneRowConfig : GeneratorConfig.t :=
  GeneratorConfig.mk (Some 2%nat) (Some 1%nat) None None.

Example generate_one_row_throws :
  generate [] keepOrder oneRowConfig 1 (fun _ => 0%Q) (fun _ => 0%Q) false
    (mkDraws 0 0)
  = Throw "TypeError: Cannot read properties of undefined".
Proof. vm_compute. reflexivity. Qed.

(** The reading of C9: [generate] returns a result with a level for every
    config of at least one column and one row (the configs for which
    [generateStructure] builds a grid), every [rng] of doubles in [[0, 1)]
    and every [maxAttempts >= 1]. *)
Definition generateNeverThrows : Prop :=
  forall (transitions : Transitions Q)
         (shuffle : Rng -> nat -> list Position -> list Position * nat)
         (config : GeneratorConfig.t) (maxAttempts : Z) (rng random : Rng)
         (requireFullSolve : bool) (w : Draws),
    (1 <= configWidth config)%nat -> (1 <= configHeight config)%nat ->
    (forall n, (0 <= rng n)%Q /\ (rng n <= maxDraw)%Q) ->
    1 <= maxAttempts ->
    exists r : GenerationResult.t,
      generate transitions shuffle config maxAttempts rng random
        requireFullSolve w = Ok r /\
      GenerationResult.level r <> None.

(** C9 as stated fails: for [oneRowConfig] the first attempt throws. *)
Lemma generate_throws_on_one_row : ~ generateNeverThrows.
Proof.
  intro H.
  destruct (H [] keepOrder oneRowConfig 1 (fun _ => 0%Q) (fun _ => 0%Q) false
              (mkDraws 0 0)) as [r [E _]].
  - unfold configWidth. simpl. lia.
  - unfold configHeight. simpl. lia.
  - intro n. split; unfold Qle; simpl; lia.
  - lia.
  - rewrite generate_one_row_throws in E. discriminate E.
Qed.

Lemma generate_returns_best_witness :
  exists (levels : list Level) (r : GenerationResult.t),
    len levels = 2 /\
    generate [] keepOrder smallConfig 2 (fun _ => 0%Q) (fun _ => 0%Q) false
      (mkDraws 0 0) = Ok r /\
    (exists lv, GenerationResult.level r = Some lv) /\
    generated false levels r.
Proof.
  assert (Hcfg : (2 <= configHeight smallConfig)%nat)
    by (unfold configHeight; simpl; lia).
  assert (Hrng : forall n : nat, (0 <= (fun _ : nat => 0%Q) n)%Q
                                 /\ ((fun _ : nat => 0%Q) n <= maxDraw)%Q)
    by (intro n; split; unfold Qle; simpl; lia).
  assert (Hmax : 1 <= 2) by lia.
  destruct (@generate_returns_best [] keepOrder smallConfig 2 (fun _ => 0%Q)
              (fun _ => 0%Q) false (mkDraws 0 0) Hcfg Hrng Hmax)
    as [levels [r [_ [Hlen [Egen [[lv [Hlv _]] Hgen]]]]]].
  exists levels, r. split; [exact Hlen|]. split; [exact Egen|].
  split; [now exists lv|exact Hgen].
Defined.

(* ------------------------------------------------------------------ *)
(** ** The grid as a shared object

    A [Level] is a JavaScript array of arrays passed by reference.  Here
    the solvability checker is embedded once more, as computations on the
    grid held by the caller: every access to the grid is one of the reads
    below, and a write would be [assign].  Each computation returns its
    value together with the grid as it leaves it. *)

Module Shared.

Definition M (A : Type) : Type := Level -> A * Level.

Definition ret {A : Type} (a : A) : M A := fun level => (a, level).

Definition bind {A B : Type} (m : M A) (k : A -> M B) : M B :=
  fun level => let (a, level') := m level in k a level'.

Notation "x <~ m ;; k" := (bind m (fun x => k))
  (at level 61, m at next level, right associativity).

(** [level.length] *)
Definition lengthOf : M Z := fun level => (len level, level).

(** [level[y]?.length] *)
Definition rowLength (y : Z) : M (option Z) :=
  fun level => (option_map (@len TileChar) (rowAt level y), level).

(** [level[y][x]] for a row that exists. *)
Definition cell (x y : Z) : M (option TileChar) :=
  fun level =>
    (match rowAt level y with Some r => cellAt r x | None => None end, level).

(** [level[y][x] = tile]: the one access that changes the grid. *)
Definition assign (x y : Z) (tile : TileChar) : M unit :=
  fun level => (tt, setCell level x y tile).

Fixpoint flatMapM {A B : Type} (body : A -> M (list B)) (l : list A)
  : M (list B) :=
  match l with
  | [] => ret []
  | a :: l' => bs <~ body a ;; rest <~ flatMapM body l' ;; ret (bs ++ rest)
  end.

Definition getTile (x y : Z) : M (option TileChar) :=
  height <~ lengthOf ;;
  if (y <? 0) || (y >=? height) then ret None
  else
    n <~ rowLength y ;;
    match n with
    | None => ret None
    | Some w => if (x <? 0) || (x >=? w) then ret None else cell x y
    end.

Definition widthOf : M Z :=
  n <~ rowLength 0 ;; ret (match n with Some w => w | None => 0 end).

Definition findTiles (tile : TileChar) : M (list Position) :=
  height <~ lengthOf ;;
  flatMapM
    (fun y =>
       n <~ rowLength y ;;
       match n with
       | None => ret []
       | Some w =>
           flatMapM
             (fun x =>
                c <~ cell x y ;;
                ret (if is_tile c tile then [mkPos x y] else []))
             (columns (Z.to_nat w) 0)
       end)
    (columns (Z.to_nat height) 0).

Definition getSpawnPosition : M (option Position) :=
  spawns <~ findTiles SPAWN ;;
  ret (match spawns with [] => None | p :: _ => Some p end).

Definition getGoldPositions : M (list Position) := findTiles GOLD.

Definition hasGroundSupport (x y : Z) : M bool :=
  below <~ getTile x (y + 1) ;;
  current <~ getTile x y ;;
  ret (if is_tile current LADDER || is_tile current ROPE then true
       else if match below with
               | Some b => ground (TILE_PROPERTIES b)
               | None => false
               end
       then true
       else if is_tile below LADDER then true
       else false).

Definition isPassable (x y : Z) (dugPositions : StrSet) : M bool :=
  tile <~ getTile x y ;;
  ret (match tile with
       | None => false
       | Some t =>
           if has (posKey x y) dugPositions then true
           else passable (TILE_PROPERTIES t)
       end).

Definition canDig (x y : Z) : M bool :=
  tile <~ getTile x y ;; ret (is_tile tile BRICK).

Fixpoint fallScan (x : Z) (dugPositions : StrSet) (height : Z)
    (rowsLeft : nat) (landY : Z) : M (list Move) :=
  match rowsLeft with
  | O => ret []
  | S n =>
      if landY <? height then
        below <~ getTile x landY ;;
        p <~ isPassable x landY dugPositions ;;
        if negb p then ret [mkMove x (landY - 1) None]
        else if is_tile below LADDER || is_tile below ROPE
        then ret [mkMove x landY None]
        else fallScan x dugPositions height n (landY + 1)
      else ret []
  end.

(** The six blocks of [getValidMoves] after the falling case; [&&] calls
    its right operand only when the left one holds. *)
Definition stepTo (guard : bool) (x y : Z) (dugPositions : StrSet)
  : M (list Move) :=
  if guard then
    p <~ isPassable x y dugPositions ;;
    ret (if p then [mkMove x y None] else [])
  else ret [].

Definition climbDown (current : option TileChar) (height x y : Z)
    (dugPositions : StrSet) : M (list Move) :=
  if y <? height - 1 then
    below <~ getTile x (y + 1) ;;
    if is_tile below LADDER || has (posKey x (y + 1)) dugPositions
    then ret [mkMove x (y + 1) None]
    else if is_tile current LADDER then
      p <~ isPassable x (y + 1) dugPositions ;;
      ret (if p then [mkMove x (y + 1) None] else [])
    else ret []
  else ret [].

Definition digTo (guard : bool) (height digX digY y : Z)
    (dugPositions : StrSet) : M (list Move) :=
  if guard then
    if digY <? height then
      d <~ canDig digX digY ;;
      ret (if d && negb (has (posKey digX digY) dugPositions)
           then [mkMove digX y (Some (mkPos digX digY))] else [])
    else ret []
  else ret [].

Definition getValidMoves (x y : Z) (dugPositions : StrSet) : M (list Move) :=
  current <~ getTile x y ;;
  height <~ lengthOf ;;
  width <~ widthOf ;;
  let onClimbable := is_tile current LADDER || is_tile current ROPE in
  hasSupport <~ hasGroundSupport x y ;;
  if negb hasSupport && negb onClimbable then
    fallScan x dugPositions height (Z.to_nat (height - (y + 1))) (y + 1)
  else
    m1 <~ stepTo (x >? 0) (x - 1) y dugPositions ;;
    m2 <~ stepTo (x <? width - 1) (x + 1) y dugPositions ;;
    m3 <~ stepTo (is_tile current LADDER && (y >? 0)) x (y - 1) dugPositions ;;
    m4 <~ climbDown current height x y dugPositions ;;
    m5 <~ digTo (hasSupport && (x >? 0)) height (x - 1) (y + 1) y dugPositions ;;
    m6 <~ digTo (hasSupport && (x <? width - 1)) height (x + 1) (y + 1) y
            dugPositions ;;
    ret (m1 ++ m2 ++ m3 ++ m4 ++ m5 ++ m6).

Definition bfsBody (st : BfsState) : M BfsState :=
  match queue st with
  | [] => ret st
  | current :: rest =>
      let key := posKey (qx current) (qy current) in
      if has key (visited st) then ret (mkBfs rest (visited st) (reachable st))
      else
        let visited' := add key (visited st) in
        let reachable' := add key (reachable st) in
        moves <~ getValidMoves (qx current) (qy current) (qdug current) ;;
        ret (mkBfs (pushMoves visited' (qdug current) moves rest)
                   visited' reachable')
  end.

Fixpoint bfsLoop (iterationsLeft : nat) (st : BfsState) : M BfsState :=
  match iterationsLeft with
  | O => ret st
  | S n =>
      match queue st with
      | [] => ret st
      | _ :: _ => st' <~ bfsBody st ;; bfsLoop n st'
      end
  end.

Definition getReachablePositions (startX startY : Z) : M StrSet :=
  st <~ bfsLoop (Z.to_nat 50000) (bfsInit startX startY) ;; ret (reachable st).

(** The spawn-support check of [validateLevel]; [||] reads the tile a
    second time only when the first test fails. *)
Definition spawnIssues (spawn : Position) (supported : bool) : M (list string) :=
  if negb supported then
    t1 <~ getTile (px spawn) (py spawn) ;;
    if is_tile t1 LADDER then ret []
    else
      t2 <~ getTile (px spawn) (py spawn) ;;
      ret (if negb (is_tile t2 ROPE) then [spawnIssue spawn] else [])
  else ret [].

Definition validateLevel : M ValidationResult :=
  spawn <~ getSpawnPosition ;;
  goldPositions <~ getGoldPositions ;;
  match spawn with
  | None =>
      ret (mkValidation false [] goldPositions None
             ["No spawn position (M) found in level"%string])
  | Some spawn =>
      supported <~ hasGroundSupport (px spawn) (py spawn) ;;
      issues1 <~ spawnIssues spawn supported ;;
      let issues2 :=
        if (len goldPositions =? 0)
        then issues1 ++ ["No gold (G) found in level"%string] else issues1 in
      reachable <~ getReachablePositions (px spawn) (py spawn) ;;
      let '(rg, ug, issues3) := partitionGold reachable goldPositions issues2 in
      ret (mkValidation ((len ug =? 0) && (len issues3 =? 0)) rg ug
             (Some spawn) issues3)
  end.

Definition findEscapePositions : M (list Position) :=
  width <~ widthOf ;;
  let cols := columns (Z.to_nat width) 0 in
  escapes <~
    flatMapM
      (fun x =>
         t0 <~ getTile x 0 ;;
         if is_tile t0 LADDER then ret [mkPos x 0]
         else
           t0' <~ getTile x 0 ;;
           if is_tile t0' EMPTY then
             t1 <~ getTile x 1 ;;
             ret (if is_tile t1 LADDER then [mkPos x 0] else [])
           else ret [])
      cols ;;
  if len escapes =? 0 then
    flatMapM
      (fun x =>
         tile <~ getTile x 0 ;;
         ret (if is_tile tile EMPTY || is_tile tile ROPE || is_tile tile LADDER
              then [mkPos x 0] else []))
      cols
  else ret escapes.

Section Solver.

Variable goldPositions escapePositions : list Position.

Definition astarBody (st : AStarState) : M (unit + AStarState) :=
  match sortByF (openSet st) with
  | [] => ret (inr st)
  | current :: rest =>
      if (collectedGold current =? shl1 (len goldPositions) - 1)
         && has (posKey (nx current) (ny current))
                (fold_left (fun s e => add (posKey (px e) (py e)) s)
                           escapePositions [])
      then ret (inl tt)
      else if has (nodeKey current) (avisited st)
      then ret (inr (mkAStar rest (avisited st)))
      else
        let visited' := add (nodeKey current) (avisited st) in
        moves <~ getValidMoves (nx current) (ny current) (ndug current) ;;
        ret (inr (mkAStar
                    (expandNode goldPositions escapePositions visited'
                       current moves rest)
                    visited'))
  end.

Fixpoint astarLoop (iterationsLeft : nat) (iterations : Z) (st : AStarState)
  : M SearchEnd :=
  match iterationsLeft with
  | O => ret (Stopped iterations)
  | S n =>
      match openSet st with
      | [] => ret (Stopped iterations)
      | _ :: _ =>
          r <~ astarBody st ;;
          match r with
          | inl _ => ret Won
          | inr st' => astarLoop n (iterations + 1) st'
          end
      end
  end.

End Solver.

Definition canSolveLevel : M SolveResult :=
  spawn <~ getSpawnPosition ;;
  match spawn with
  | None => ret (mkSolve false (Some "No spawn position"%string))
  | Some spawn =>
      goldPositions <~ getGoldPositions ;;
      if len goldPositions =? 0
      then ret (mkSolve false (Some "No gold in level"%string))
      else if len goldPositions >? 16 then
        result <~ validateLevel ;;
        ret (mkSolve (valid result)
               (if valid result then None
                else Some "Too many gold pieces for full solve check"%string))
      else
        escapePositions <~ findEscapePositions ;;
        if len escapePositions =? 0
        then ret (mkSolve false (Some "No escape positions at top of level"%string))
        else
          e <~ astarLoop goldPositions escapePositions (Z.to_nat 100000) 0
                 (mkAStar [startNode goldPositions escapePositions spawn] []) ;;
          ret (match e with
               | Won => mkSolve true None
               | Stopped iterations =>
                   if iterations >=? 100000
                   then mkSolve false (Some (exceededReason 100000))
                   else mkSolve false
                          (Some "No path found to collect all gold and escape"%string)
               end)
  end.

End Shared.

(* ------------------------------------------------------------------ *)
(** ** The checker leaves the grid as it found it *)

(** A computation that returns [a] and leaves the grid unchanged. *)
Definition readsOnly {A : Type} (m : Shared.M A) (a : Level -> A) : Prop :=
  forall level, m level = (a level, level).

Lemma readsOnly_bind {A B : Type} (m : Shared.M A) (k : A -> Shared.M B)
    (a : Level -> A) :
  readsOnly m a -> forall level, Shared.bind m k level = k (a level) level.
Proof. intros H level. unfold Shared.bind. now rewrite H. Qed.

Lemma flatMapM_reads {A B : Type} (body : A -> Shared.M (list B))
    (f : Level -> A -> list B) (l : list A) :
  (forall a, readsOnly (body a) (fun level => f level a)) ->
  readsOnly (Shared.flatMapM body l) (fun level => flat_map (f level) l).
Proof.
  intros H level. induction l as [|a l IH]; simpl; [reflexivity|].
  rewrite (@readsOnly_bind _ _ _ _ _ (H a)). unfold Shared.bind at 1.
  rewrite IH. reflexivity.
Qed.

Lemma shared_getTile (x y : Z) :
  readsOnly (Shared.getTile x y) (fun level => getTile level x y).
Proof.
  intro level. unfold Shared.getTile, getTile, Shared.bind, Shared.lengthOf,
    Shared.rowLength, Shared.cell, Shared.ret.
  destruct ((y <? 0) || (y >=? len level)); [reflexivity|].
  destruct (rowAt level y) as [r|] eqn:Er; simpl; [|reflexivity].
  destruct ((x <? 0) || (x >=? len r)); [reflexivity|].
  now rewrite Er.
Qed.

Lemma shared_widthOf : readsOnly Shared.widthOf widthOf.
Proof.
  intro level. unfold Shared.widthOf, widthOf, Shared.bind, Shared.rowLength,
    Shared.ret, rowAt. simpl. destruct level; reflexivity.
Qed.

Lemma shared_findTiles (tile : TileChar) :
  readsOnly (Shared.findTiles tile) (fun level => findTiles level tile).
Proof.
  intro level. unfold Shared.findTiles, findTiles.
  unfold Shared.bind at 1. unfold Shared.lengthOf.
  apply (@flatMapM_reads Z Position _
           (fun lv y =>
              match rowAt lv y with
              | None => []
              | Some r =>
                  flat_map
                    (fun x => if is_tile (cellAt r x) tile then [mkPos x y] else [])
                    (columns (Z.to_nat (len r)) 0)
              end)).
  intros y lv. unfold Shared.bind at 1. unfold Shared.rowLength.
  destruct (rowAt lv y) as [r|] eqn:Er; simpl; [|reflexivity].
  rewrite (@flatMapM_reads Z Position _
             (fun lv' x =>
                if is_tile (match rowAt lv' y with
                            | Some r' => cellAt r' x
                            | None => None
                            end) tile
                then [mkPos x y] else [])
             (columns (Z.to_nat (len r)) 0)).
  - f_equal. apply flat_map_ext. intro x. now rewrite Er.
  - intros x lv'. reflexivity.
Qed.

Lemma shared_lengthOf : readsOnly Shared.lengthOf (@len (list TileChar)).
Proof. intro level. reflexivity. Qed.

Lemma shared_ret {A : Type} (a : A) : readsOnly (Shared.ret a) (fun _ => a).
Proof. intro level. reflexivity. Qed.

Create HintDb reads.
#[local] Hint Resolve shared_getTile shared_widthOf shared_findTiles
  shared_lengthOf : reads.

(** Replace the leading reads of a computation by their values. *)
Ltac reads :=
  repeat first
    [ erewrite readsOnly_bind by (solve [eauto with reads])
    | progress cbv beta ].

Lemma shared_getSpawnPosition :
  readsOnly Shared.getSpawnPosition getSpawnPosition.
Proof. intro level. unfold Shared.getSpawnPosition. reads. reflexivity. Qed.

Lemma shared_getGoldPositions :
  readsOnly Shared.getGoldPositions getGoldPositions.
Proof. intro level. apply shared_findTiles. Qed.

Lemma shared_hasGroundSupport (x y : Z) :
  readsOnly (Shared.hasGroundSupport x y)
            (fun level => hasGroundSupport level x y).
Proof. intro level. unfold Shared.hasGroundSupport. reads. reflexivity. Qed.

Lemma shared_isPassable (x y : Z) (dugPositions : StrSet) :
  readsOnly (Shared.isPassable x y dugPositions)
            (fun level => isPassable level x y dugPositions).
Proof. intro level. unfold Shared.isPassable. reads. reflexivity. Qed.

Lemma shared_canDig (x y : Z) :
  readsOnly (Shared.canDig x y) (fun level => canDig level x y).
Proof. intro level. unfold Shared.canDig. reads. reflexivity. Qed.

#[local] Hint Resolve shared_getSpawnPosition shared_getGoldPositions
  shared_hasGroundSupport shared_isPassable shared_canDig : reads.

Lemma shared_fallScan (x : Z) (dugPositions : StrSet) (height : Z) :
  forall (rowsLeft : nat) (landY : Z),
    readsOnly (Shared.fallScan x dugPositions height rowsLeft landY)
      (fun level => fallScan level x dugPositions height rowsLeft landY).
Proof.
  induction rowsLeft as [|n IH]; intros landY level; simpl; [reflexivity|].
  destruct (landY <? height); [|reflexivity].
  reads.
  destruct (isPassable level x landY dugPositions); simpl; [|reflexivity].
  destruct (is_tile (getTile level x landY) LADDER
            || is_tile (getTile level x landY) ROPE); [reflexivity|].
  apply IH.
Qed.

Lemma shared_stepTo (guard : bool) (x y : Z) (dugPositions : StrSet) :
  readsOnly (Shared.stepTo guard x y dugPositions)
    (fun level => if guard && isPassable level x y dugPositions
                  then [mkMove x y None] else []).
Proof.
  intro level. unfold Shared.stepTo. destruct guard; [|reflexivity].
  reads. reflexivity.
Qed.

Lemma shared_climbDown (current : option TileChar) (height x y : Z)
    (dugPositions : StrSet) :
  readsOnly (Shared.climbDown current height x y dugPositions)
    (fun level =>
       if y <? height - 1 then
         if is_tile (getTile level x (y + 1)) LADDER
            || has (posKey x (y + 1)) dugPositions
         then [mkMove x (y + 1) None]
         else if is_tile current LADDER
                 && isPassable level x (y + 1) dugPositions
         then [mkMove x (y + 1) None] else []
       else []).
Proof.
  intro level. unfold Shared.climbDown.
  destruct (y <? height - 1); [|reflexivity]. reads.
  destruct (is_tile (getTile level x (y + 1)) LADDER
            || has (posKey x (y + 1)) dugPositions); [reflexivity|].
  destruct (is_tile current LADDER); [|reflexivity]. reads. reflexivity.
Qed.

Lemma shared_digTo (guard : bool) (height digX digY y : Z)
    (dugPositions : StrSet) :
  readsOnly (Shared.digTo guard height digX digY y dugPositions)
    (fun level =>
       if guard then
         if (digY <? height) && canDig level digX digY
            && negb (has (posKey digX digY) dugPositions)
         then [mkMove digX y (Some (mkPos digX digY))] else []
       else []).
Proof.
  intro level. unfold Shared.digTo. destruct guard; [|reflexivity].
  destruct (digY <? height); [|reflexivity]. reads. reflexivity.
Qed.

#[local] Hint Resolve shared_fallScan shared_stepTo shared_climbDown
  shared_digTo : reads.

Lemma shared_getValidMoves (x y : Z) (dugPositions : StrSet) :
  readsOnly (Shared.getValidMoves x y dugPositions)
            (fun level => getValidMoves level x y dugPositions).
Proof.
  intro level. unfold Shared.getValidMoves, getValidMoves. reads.
  destruct (negb (hasGroundSupport level x y)
            && negb (is_tile (getTile level x y) LADDER
                     || is_tile (getTile level x y) ROPE)).
  - apply shared_fallScan.
  - reads. reflexivity.
Qed.

#[local] Hint Resolve shared_getValidMoves : reads.

Lemma shared_bfsBody (st : BfsState) :
  readsOnly (Shared.bfsBody st) (fun level => bfsBody level st).
Proof.
  intro level. unfold Shared.bfsBody, bfsBody.
  destruct (queue st) as [|current rest]; [reflexivity|].
  destruct (has (posKey (qx current) (qy current)) (visited st)); [reflexivity|].
  reads. reflexivity.
Qed.

#[local] Hint Resolve shared_bfsBody : reads.

Lemma shared_bfsLoop :
  forall (n : nat) (st : BfsState),
    readsOnly (Shared.bfsLoop n st) (fun level => bfsLoop level n st).
Proof.
  induction n as [|n IH]; intros st level; simpl; [reflexivity|].
  destruct (queue st); [reflexivity|]. reads. apply IH.
Qed.

#[local] Hint Resolve shared_bfsLoop : reads.

Lemma shared_getReachablePositions (startX startY : Z) :
  readsOnly (Shared.getReachablePositions startX startY)
            (fun level => getReachablePositions level startX startY).
Proof.
  intro level. unfold Shared.getReachablePositions. reads. reflexivity.
Qed.

#[local] Hint Resolve shared_getReachablePositions : reads.

Lemma shared_spawnIssues (spawn : Position) (supported : bool) :
  readsOnly (Shared.spawnIssues spawn supported)
    (fun level =>
       if negb supported then
         if negb (is_tile (getTile level (px spawn) (py spawn)) LADDER
                  || is_tile (getTile level (px spawn) (py spawn)) ROPE)
         then [spawnIssue spawn] else []
       else []).
Proof.
  intro level. unfold Shared.spawnIssues.
  destruct (negb supported); [|reflexivity]. reads.
  destruct (is_tile (getTile level (px spawn) (py spawn)) LADDER);
    [reflexivity|].
  reads. reflexivity.
Qed.

#[local] Hint Resolve shared_spawnIssues : reads.

Lemma shared_validateLevel : readsOnly Shared.validateLevel validateLevel.
Proof.
  intro level. unfold Shared.validateLevel, validateLevel. reads.
  destruct (getSpawnPosition level) as [spawn|]; [|reflexivity]. reads.
  destruct (partitionGold _ _ _) as [[rg ug] issues3]. reflexivity.
Qed.

#[local] Hint Resolve shared_validateLevel : reads.

Lemma shared_findEscapePositions :
  readsOnly Shared.findEscapePositions findEscapePositions.
Proof.
  intro level. unfold Shared.findEscapePositions, findEscapePositions. reads.
  erewrite readsOnly_bind.
  2:{ apply (@flatMapM_reads Z Position _
               (fun lv x =>
                  if is_tile (getTile lv x 0) LADDER then [mkPos x 0]
                  else if is_tile (getTile lv x 0) EMPTY
                          && is_tile (getTile lv x 1) LADDER
                  then [mkPos x 0] else [])).
      intros x lv. reads.
      destruct (is_tile (getTile lv x 0) LADDER); [reflexivity|]. reads.
      destruct (is_tile (getTile lv x 0) EMPTY); [|reflexivity].
      reads. reflexivity. }
  cbv beta.
  destruct (len _ =? 0); [|reflexivity].
  apply (@flatMapM_reads Z Position _
           (fun lv x =>
              if is_tile (getTile lv x 0) EMPTY || is_tile (getTile lv x 0) ROPE
                 || is_tile (getTile lv x 0) LADDER
              then [mkPos x 0] else [])).
  intros x lv. reads. reflexivity.
Qed.

Lemma shared_astarBody (goldPositions escapePositions : list Position)
    (st : AStarState) :
  readsOnly (Shared.astarBody goldPositions escapePositions st)
    (fun level => astarBody level goldPositions escapePositions st).
Proof.
  intro level. unfold Shared.astarBody, astarBody.
  destruct (sortByF (openSet st)) as [|current rest]; [reflexivity|].
  destruct (_ && _); [reflexivity|].
  destruct (has (nodeKey current) (avisited st)); [reflexivity|].
  reads. reflexivity.
Qed.

#[local] Hint Resolve shared_findEscapePositions shared_astarBody : reads.

Lemma shared_astarLoop (goldPositions escapePositions : list Position) :
  forall (n : nat) (iterations : Z) (st : AStarState),
    readsOnly (Shared.astarLoop goldPositions escapePositions n iterations st)
      (fun level =>
         astarLoop level goldPositions escapePositions n iterations st).
Proof.
  induction n as [|n IH]; intros iterations st level; simpl; [reflexivity|].
  destruct (openSet st); [reflexivity|]. reads.
  destruct (astarBody level goldPositions escapePositions st);
    [reflexivity|apply IH].
Qed.

#[local] Hint Resolve shared_astarLoop : reads.

Lemma shared_canSolveLevel : readsOnly Shared.canSolveLevel canSolveLevel.
Proof.
  intro level.
  unfold Shared.canSolveLevel, canSolveLevel, canSolveLevelWithin. reads.
  destruct (getSpawnPosition level) as [spawn|]; [|reflexivity]. reads.
  destruct (len (getGoldPositions level) =? 0); [reflexivity|].
  destruct (len (getGoldPositions level) >? 16); [reads; reflexivity|].
  reads.
  destruct (len (findEscapePositions level) =? 0); [reflexivity|].
  reads. unfold searchFrom.
  destruct (astarLoop _ _ _ _ _ _); reflexivity.
Qed.

(** C10. Run on a grid held by the caller, [getReachablePositions],
    [validateLevel] and [canSolveLevel] return what the functions of the
    grid return and leave every cell of the grid as it was: digging lives
    in the dug-set of each search state.  So a validation that follows
    other queries on the same grid, or is repeated, gives the same
    result. *)
Theorem checker_reads_only (level : Level) (startX startY : Z) :
  Shared.getReachablePositions startX startY level
    = (getReachablePositions level startX startY, level) /\
  Shared.validateLevel level = (validateLevel level, level) /\
  Shared.canSolveLevel level = (canSolveLevel level, level) /\
  Shared.bind Shared.validateLevel
    (fun v1 =>
       Shared.bind (Shared.getReachablePositions startX startY)
         (fun _ =>
            Shared.bind Shared.canSolveLevel
              (fun s =>
                 Shared.bind Shared.validateLevel
                   (fun v2 => Shared.ret (v1, s, v2))))) level
    = ((validateLevel level, canSolveLevel level, validateLevel level), level).
Proof.
  split; [apply shared_getReachablePositions|].
  split; [apply shared_validateLevel|].
  split; [apply shared_canSolveLevel|].
  unfold Shared.bind.
  rewrite shared_validateLevel, shared_getReachablePositions,
    shared_canSolveLevel, shared_validateLevel.
  reflexivity.
Qed.

(** A write, by contrast, is seen by the caller. *)
Example assign_is_seen :
  Shared.assign 0 0 GOLD noGoldLevel
  = (tt, [ [GOLD; SPAWN]; [SOLID; SOLID] ]).
Proof. reflexivity. Qed.

(* ------------------------------------------------------------------ *)
(** ** Position keys can be read back *)

From Stdlib Require Import DecimalZ DecimalPos.

(** The text before the first comma, and the text after it. *)
Fixpoint splitComma (s : string) : string * option string :=
  match s with
  | EmptyString => (EmptyString, None)
  | String c s' =>
      if Ascii.eqb c ","%char then (EmptyString, Some s')
      else let '(a, b) := splitComma s' in (String c a, b)
  end.

(** [Number(text)] where the text is an optional minus sign and decimal
    digits; the other texts that [Number] converts (the empty text, a
    leading plus sign, white space, exponents, hexadecimal) and the texts
    it maps to [NaN] are all [None] here. *)
Definition zparse (s : string) : option Z :=
  option_map Z.of_int (NilZero.int_of_string s).

(** [key.split(',')] *)
Fixpoint splitCommas (s : string) : list string :=
  match s with
  | EmptyString => [EmptyString]
  | String c s' =>
      if Ascii.eqb c ","%char then EmptyString :: splitCommas s'
      else match splitCommas s' with
           | [] => [String c EmptyString]
           | piece :: rest => String c piece :: rest
           end
  end.

(** [const [x, y] = key.split(',').map(Number)] as [{x, y}]: the first two
    pieces, when both are integers. *)
Definition keyPosition (key : string) : option Position :=
  match splitCommas key with
  | a :: b :: _ =>
      match zparse a, zparse b with
      | Some x, Some y => Some (mkPos x y)
      | _, _ => None
      end
  | _ => None
  end.

Definition noComma (s : string) : Prop :=
  forall c, In c (list_ascii_of_string s) -> c <> ","%char.

Lemma splitComma_app (a b : string) :
  noComma a -> splitComma (a ++ "," ++ b)%string = (a, Some b).
Proof.
  induction a as [|c a IH]; intro H; simpl.
  - reflexivity.
  - destruct (Ascii.eqb c ",") eqn:E.
    + apply Ascii.eqb_eq in E. exfalso. apply (H c); [now left|exact E].
    + simpl in IH. rewrite IH; [reflexivity|].
      intros d Hd. apply H. now right.
Qed.

Lemma uint_string_noComma (d : Decimal.uint) :
  noComma (NilEmpty.string_of_uint d).
Proof.
  induction d; simpl; intros c Hc; try contradiction;
    (destruct Hc as [<-|Hc]; [discriminate|now apply IHd]).
Qed.

Lemma zstr_noComma (z : Z) : noComma (zstr z).
Proof.
  unfold zstr. destruct (Z.to_int z) as [d|d]; simpl.
  - destruct d; try apply (uint_string_noComma (_ _)).
    intros c [<-|[]]. discriminate.
  - intros c [<-|Hc]; [discriminate|]. revert c Hc.
    destruct d; try apply (uint_string_noComma (_ _)).
    intros c [<-|[]]. discriminate.
Qed.

Lemma to_int_not_nil (z : Z) :
  Z.to_int z <> Decimal.Pos Decimal.Nil /\ Z.to_int z <> Decimal.Neg Decimal.Nil.
Proof.
  destruct z as [|p|p]; simpl; split; try discriminate;
    intro H; inversion H as [H'];
    now apply Unsigned.to_uint_nonnil in H'.
Qed.

Lemma zparse_zstr (z : Z) : zparse (zstr z) = Some z.
Proof.
  unfold zparse, zstr. destruct (to_int_not_nil z) as [H1 H2].
  rewrite NilZero.isi by assumption. simpl. now rewrite DecimalZ.of_to.
Qed.

Lemma splitCommas_plain (a : string) : noComma a -> splitCommas a = [a].
Proof.
  induction a as [|c a IH]; intro H; simpl; [reflexivity|].
  destruct (Ascii.eqb c ",") eqn:E.
  - apply Ascii.eqb_eq in E. exfalso. apply (H c); [now left|exact E].
  - rewrite IH; [reflexivity|]. intros d Hd. apply H. now right.
Qed.

Lemma splitCommas_app (a b : string) :
  noComma a -> splitCommas (a ++ "," ++ b)%string = a :: splitCommas b.
Proof.
  induction a as [|c a IH]; intro H; simpl.
  - reflexivity.
  - destruct (Ascii.eqb c ",") eqn:E.
    + apply Ascii.eqb_eq in E. exfalso. apply (H c); [now left|exact E].
    + simpl in IH. rewrite IH; [reflexivity|].
      intros d Hd. apply H. now right.
Qed.

Lemma keyPosition_posKey (x y : Z) :
  keyPosition (posKey x y) = Some (mkPos x y).
Proof.
  unfold keyPosition, posKey.
  rewrite splitCommas_app by apply zstr_noComma.
  rewrite splitCommas_plain by apply zstr_noComma.
  now rewrite !zparse_zstr.
Qed.

(** Distinct positions have distinct keys. *)
Lemma posKey_injective (x y x' y' : Z) :
  posKey x y = posKey x' y' -> x = x' /\ y = y'.
Proof.
  intro H. pose proof (keyPosition_posKey x y) as E.
  rewrite H, keyPosition_posKey in E. inversion E. now split.
Qed.

(** X1. A position key [`${x},${y}`] of two integers reads back, by
    [split(',')] and [Number], as the same [x] and [y]; two positions
    have the same key only when they are the same position. *)
Theorem posKey_reads_back (x y : Z) :
  keyPosition (posKey x y) = Some (mkPos x y) /\
  (forall x' y', posKey x y = posKey x' y' <-> (x = x' /\ y = y')).
Proof.
  split; [apply keyPosition_posKey|].
  intros x' y'. split; [apply posKey_injective|].
  now intros [-> ->].
Qed.

(* ------------------------------------------------------------------ *)
(** ** What [findTiles] finds *)

Lemma columns_In_iff (n : nat) :
  forall s a, In a (columns n s) <-> s <= a < s + Z.of_nat n.
Proof.
  induction n as [|n IH]; intros s a; simpl.
  - split; [contradiction|lia].
  - rewrite IH. split.
    + intros [<-|H]; lia.
    + intro H. destruct (Z.eq_dec s a); [now left|right; lia].
Qed.

Lemma columns_NoDup (n : nat) : forall s, NoDup (columns n s).
Proof.
  induction n as [|n IH]; intro s; simpl; constructor.
  - intro H. apply columns_In_iff in H. lia.
  - apply IH.
Qed.

Lemma NoDup_flat_map {A B : Type} (f : A -> list B) (l : list A) :
  NoDup l ->
  (forall a, In a l -> NoDup (f a)) ->
  (forall a a' b, In a l -> In a' l -> In b (f a) -> In b (f a') -> a = a') ->
  NoDup (flat_map f l).
Proof.
  induction l as [|a l IH]; intros Hl Hf Hd; simpl; [constructor|].
  inversion Hl as [|? ? Ha Hl']; subst.
  apply NoDup_app.
  - apply Hf. now left.
  - apply IH; [exact Hl'| |].
    + intros a0 H0. apply Hf. now right.
    + intros a0 a1 b H0 H1. apply Hd; now right.
  - intros b Hb Hb'. apply in_flat_map in Hb'. destruct Hb' as [a' [Ha' Hb']].
    assert (a = a') by (apply (Hd a a' b); [now left|now right|assumption..]).
    subst a'. contradiction.
Qed.

Lemma findTiles_In (level : Level) (tile : TileChar) (p : Position) :
  In p (findTiles level tile) <-> getTile level (px p) (py p) = Some tile.
Proof.
  unfold findTiles. rewrite in_flat_map. split.
  - intros [y [Hy Hp]]. apply columns_In_iff in Hy.
    destruct (rowAt level y) as [r|] eqn:Er; [|contradiction].
    apply in_flat_map in Hp. destruct Hp as [x [Hx Hp]].
    apply columns_In_iff in Hx.
    destruct (is_tile (cellAt r x) tile) eqn:Et; [|contradiction].
    destruct Hp as [<-|[]]. simpl.
    apply is_tile_true in Et. unfold getTile.
    assert (E1 : (y <? 0) || (y >=? len level) = false).
    { apply orb_false_iff. split; [apply Z.ltb_ge; lia|].
      rewrite Z.geb_leb. apply Z.leb_gt. lia. }
    assert (E2 : (x <? 0) || (x >=? len r) = false).
    { apply orb_false_iff. split; [apply Z.ltb_ge; lia|].
      rewrite Z.geb_leb. apply Z.leb_gt. lia. }
    now rewrite E1, Er, E2.
  - intro H. destruct p as [x y]. simpl in H. exists y.
    unfold getTile in H.
    destruct ((y <? 0) || (y >=? len level)) eqn:E1; [discriminate|].
    apply orb_false_iff in E1. destruct E1 as [E1 E1'].
    destruct (rowAt level y) as [r|] eqn:Er; [|discriminate].
    destruct ((x <? 0) || (x >=? len r)) eqn:E2; [discriminate|].
    apply orb_false_iff in E2. destruct E2 as [E2 E2'].
    apply Z.ltb_ge in E1, E2. rewrite Z.geb_leb in E1', E2'.
    apply Z.leb_gt in E1', E2'.
    split; [apply columns_In_iff; lia|].
    apply in_flat_map. exists x. split; [apply columns_In_iff; lia|].
    rewrite H. simpl. rewrite tile_eqb_refl. now left.
Qed.

Lemma findTiles_NoDup (level : Level) (tile : TileChar) :
  NoDup (findTiles level tile).
Proof.
  unfold findTiles. apply NoDup_flat_map; [apply columns_NoDup| |].
  - intros y _. destruct (rowAt level y) as [r|]; [|constructor].
    apply NoDup_flat_map; [apply columns_NoDup| |].
    + intros x _. destruct (is_tile (cellAt r x) tile); repeat constructor.
      intros [].
    + intros x x' b _ _ Hb Hb'.
      destruct (is_tile (cellAt r x) tile); [|contradiction].
      destruct (is_tile (cellAt r x') tile); [|contradiction].
      destruct Hb as [<-|[]]. destruct Hb' as [Hb'|[]].
      now inversion Hb'.
  - intros y y' b _ _ Hb Hb'.
    assert (G : forall y0, In b (match rowAt level y0 with
                  | None => []
                  | Some r =>
                      flat_map
                        (fun x => if is_tile (cellAt r x) tile
                                  then [mkPos x y0] else [])
                        (columns (Z.to_nat (len r)) 0)
                  end) -> py b = y0).
    { intros y0 H0. destruct (rowAt level y0) as [r|]; [|contradiction].
      apply in_flat_map in H0. destruct H0 as [x [_ H0]].
      destruct (is_tile (cellAt r x) tile); [|contradiction].
      destruct H0 as [<-|[]]. reflexivity. }
    rewrite <- (G y Hb). now apply G.
Qed.

Lemma getSpawnPosition_none (level : Level) :
  getSpawnPosition level = None
  <-> forall x y, getTile level x y <> Some SPAWN.
Proof.
  unfold getSpawnPosition. split.
  - intros H x y Hxy.
    apply (findTiles_In level SPAWN (mkPos x y)) in Hxy.
    destruct (findTiles level SPAWN); [contradiction|discriminate].
  - intro H. destruct (findTiles level SPAWN) as [|p l] eqn:E; [reflexivity|].
    exfalso. apply (H (px p) (py p)). apply findTiles_In. rewrite E. now left.
Qed.

(** X2. [findTiles(level, tile)] lists exactly the positions at which
    [getTile] reads [tile], each of them once; so [getSpawnPosition] is
    [null] exactly when no cell holds a Spawn. *)
Theorem findTiles_exact (level : Level) (tile : TileChar) :
  (forall p, In p (findTiles level tile)
             <-> getTile level (px p) (py p) = Some tile) /\
  NoDup (findTiles level tile) /\
  (getSpawnPosition level = None
   <-> forall x y, getTile level x y <> Some SPAWN).
Proof.
  split; [intro p; apply findTiles_In|].
  split; [apply findTiles_NoDup|apply getSpawnPosition_none].
Qed.

(* ------------------------------------------------------------------ *)
(** ** [setTile]: the bounds-checked write *)

(** [setTile]: a copy of the level, written at [(x, y)] when that cell
    exists.  [newLevel[y].length] is read only after [y] passed its test. *)
Definition setTile (level : Level) (x y : Z) (tile : TileChar) : Level :=
  let newLevel := cloneLevel level in
  if (y >=? 0) && (y <? len newLevel) && (x >=? 0)
     && (x <? match rowAt newLevel y with Some r => len r | None => 0 end)
  then setCell newLevel x y tile
  else newLevel.

Definition getLevelDimensions (level : Level) : Z * Z :=
  (widthOf level, len level).

Lemma getTile_none_out (level : Level) (x y : Z) :
  (y >=? 0) && (y <? len level) && (x >=? 0)
  && (x <? match rowAt level y with Some r => len r | None => 0 end) = false ->
  getTile level x y = None.
Proof.
  intro H. unfold getTile.
  destruct ((y <? 0) || (y >=? len level)) eqn:Ey; [reflexivity|].
  apply orb_false_iff in Ey. destruct Ey as [Ey Ey'].
  apply Z.ltb_ge in Ey. rewrite Z.geb_leb in Ey'. apply Z.leb_gt in Ey'.
  destruct (rowAt level y) as [r|]; [|reflexivity].
  destruct ((x <? 0) || (x >=? len r)) eqn:Ex; [reflexivity|].
  apply orb_false_iff in Ex. destruct Ex as [Ex Ex'].
  apply Z.ltb_ge in Ex. rewrite Z.geb_leb in Ex'. apply Z.leb_gt in Ex'.
  exfalso.
  assert (E : (y >=? 0) && (y <? len level) && (x >=? 0) && (x <? len r) = true).
  { rewrite !andb_true_iff, !Z.geb_leb, !Z.leb_le, !Z.ltb_lt. lia. }
  congruence.
Qed.

Lemma setTile_setCell (level : Level) (x y : Z) (tile : TileChar) :
  setTile level x y tile = setCell level x y tile.
Proof.
  unfold setTile. rewrite cloneLevel_id.
  destruct ((y >=? 0) && (y <? len level) && (x >=? 0)
            && (x <? match rowAt level y with
                     | Some r => len r | None => 0 end)) eqn:E;
    [reflexivity|].
  apply getTile_none_out in E. unfold setCell. now rewrite E.
Qed.

(** X3. [setTile(level, x, y, tile)] keeps the dimensions; reading it back
    at [(x, y)] gives [tile] when the cell exists and [null] when it does
    not; every other cell reads as before; and a write outside the grid
    returns the level itself, cell for cell. *)
Theorem setTile_reads (level : Level) (x y : Z) (tile : TileChar) :
  getLevelDimensions (setTile level x y tile) = getLevelDimensions level /\
  getTile (setTile level x y tile) x y
  = option_map (fun _ => tile) (getTile level x y) /\
  (forall x' y', x' <> x \/ y' <> y ->
     getTile (setTile level x y tile) x' y' = getTile level x' y') /\
  (getTile level x y = None -> setTile level x y tile = level).
Proof.
  rewrite setTile_setCell. unfold getLevelDimensions.
  rewrite setCell_widthOf, setCell_len.
  split; [reflexivity|]. split; [|split].
  - destruct (getTile level x y) as [u|] eqn:E; simpl.
    + eapply getTile_setCell_same; exact E.
    + unfold setCell. now rewrite E.
  - intros x' y' H. now apply getTile_setCell_other.
  - intro E. unfold setCell. now rewrite E.
Qed.

(* ------------------------------------------------------------------ *)
(** ** [normalizeLevel] strips the entities and nothing else *)

Lemma normalizeTile_idem (t : TileChar) :
  normalizeTile (normalizeTile t) = normalizeTile t.
Proof. now destruct t. Qed.

Lemma getTile_map (f : TileChar -> TileChar) (level : Level) (x y : Z) :
  getTile (map (map f) level) x y = option_map f (getTile level x y).
Proof.
  unfold getTile, rowAt, cellAt, len. rewrite length_map.
  destruct ((y <? 0) || (y >=? Z.of_nat (List.length level))); [reflexivity|].
  destruct (y <? 0); [reflexivity|].
  rewrite nth_error_map.
  destruct (nth_error level (Z.to_nat y)) as [r|]; [|reflexivity]. simpl.
  rewrite length_map.
  destruct ((x <? 0) || (x >=? Z.of_nat (List.length r))); [reflexivity|].
  destruct (x <? 0); [reflexivity|].
  now rewrite nth_error_map.
Qed.

Lemma normalizeLevel_sameTerrain (level : Level) :
  sameTerrain (normalizeLevel level) level.
Proof.
  unfold sameTerrain, normalizeLevel. split; [|split].
  - unfold len. now rewrite length_map.
  - destruct level as [|r rest]; [reflexivity|]. simpl. unfold len.
    now rewrite length_map.
  - intros x y. rewrite getTile_map. unfold terrainOf.
    destruct (getTile level x y) as [t|]; [|reflexivity]. simpl.
    now rewrite normalizeTile_idem.
Qed.

(** X4. [normalizeLevel] returns a grid of the same dimensions that holds
    no Gold, Enemy or Spawn and reads the terrain tile elsewhere; applying
    it twice is applying it once; and the movement model does not see the
    difference: [getValidMoves] and [getReachablePositions] answer on the
    stripped level what they answer on the level. *)
Theorem normalizeLevel_strips (level : Level) :
  getLevelDimensions (normalizeLevel level) = getLevelDimensions level /\
  (forall x y, getTile (normalizeLevel level) x y
               = option_map normalizeTile (getTile level x y)) /\
  (forall tile, In tile [GOLD; ENEMY; SPAWN] ->
                findTiles (normalizeLevel level) tile = []) /\
  normalizeLevel (normalizeLevel level) = normalizeLevel level /\
  (forall x y dugPositions,
     getValidMoves (normalizeLevel level) x y dugPositions
     = getValidMoves level x y dugPositions) /\
  (forall startX startY,
     getReachablePositions (normalizeLevel level) startX startY
     = getReachablePositions level startX startY).
Proof.
  pose proof (normalizeLevel_sameTerrain level) as Hs.
  split; [|split; [|split; [|split; [|split]]]].
  - unfold getLevelDimensions. destruct Hs as [Hl [Hw _]]. now rewrite Hl, Hw.
  - intros x y. apply getTile_map.
  - intros tile Ht.
    destruct (findTiles (normalizeLevel level) tile) as [|p l] eqn:E;
      [reflexivity|].
    exfalso.
    assert (Hp : In p (findTiles (normalizeLevel level) tile))
      by (rewrite E; now left).
    unfold findTiles in Hp. apply in_flat_map in Hp.
    destruct Hp as [y [_ Hp]].
    destruct (rowAt (normalizeLevel level) y) as [r|] eqn:Er; [|contradiction].
    apply in_flat_map in Hp. destruct Hp as [x [_ Hp]].
    destruct (is_tile (cellAt r x) tile) eqn:Et; [|contradiction].
    apply is_tile_true in Et.
    unfold normalizeLevel, rowAt in Er.
    destruct (y <? 0); [discriminate|].
    rewrite nth_error_map in Er.
    destruct (nth_error level (Z.to_nat y)) as [r0|]; [|discriminate].
    simpl in Er. inversion Er; subst r. unfold cellAt in Et.
    destruct (x <? 0); [discriminate|].
    rewrite nth_error_map in Et.
    destruct (nth_error r0 (Z.to_nat x)) as [t0|]; [|discriminate].
    simpl in Et. inversion Et as [Et'].
    destruct Ht as [<-|[<-|[<-|[]]]]; destruct t0; discriminate.
  - unfold normalizeLevel. rewrite map_map. apply map_ext. intro r.
    rewrite map_map. apply map_ext. apply normalizeTile_idem.
  - intros x y dugPositions. now apply terrain_getValidMoves.
  - intros startX startY. now apply terrain_getReachablePositions.
Qed.

(* ------------------------------------------------------------------ *)
(** ** What a move may be *)

Lemma fallScan_In (level : Level) (x : Z) (dugPositions : StrSet) (height : Z)
    (m : Move) :
  forall (rowsLeft : nat) (landY : Z),
    In m (fallScan level x dugPositions height rowsLeft landY) ->
    mx m = x /\ dig m = None /\ landY - 1 <= my m < height.
Proof.
  induction rowsLeft as [|n IH]; intros landY H; simpl in H; [contradiction|].
  destruct (landY <? height) eqn:Hh; [|contradiction].
  apply Z.ltb_lt in Hh.
  destruct (negb (isPassable level x landY dugPositions)).
  - destruct H as [<-|[]]. simpl. repeat split; lia.
  - destruct (is_tile (getTile level x landY) LADDER
              || is_tile (getTile level x landY) ROPE).
    + destruct H as [<-|[]]. simpl. repeat split; lia.
    + apply IH in H. destruct H as [A [B C]]. repeat split; try assumption; lia.
Qed.

Ltac one_move H :=
  match type of H with
  | In _ (if ?c then _ else _) =>
      let E := fresh "E" in
      destruct c eqn:E; [|try contradiction]; simpl in H
  end.

(** X5. From a cell inside the grid's bounding box ([0 <= x < width],
    [0 <= y < height], the width being that of the first row),
    [getValidMoves] returns only positions inside that box. *)
Theorem getValidMoves_in_grid (level : Level) (x y : Z)
    (dugPositions : StrSet) (m : Move) :
  0 <= x < widthOf level -> 0 <= y < len level ->
  In m (getValidMoves level x y dugPositions) ->
  0 <= mx m < widthOf level /\ 0 <= my m < len level.
Proof.
  intros Hx Hy H. unfold getValidMoves in H.
  destruct (negb (hasGroundSupport level x y)
            && negb (is_tile (getTile level x y) LADDER
                     || is_tile (getTile level x y) ROPE)).
  - apply fallScan_In in H. destruct H as [-> [_ H]]. lia.
  - repeat (apply in_app_or in H; destruct H as [H|H]).
    + one_move H. destruct H as [<-|[]]. simpl. lia.
    + one_move H. destruct H as [<-|[]]. simpl.
      apply andb_true_iff in E. destruct E as [E _]. apply Z.ltb_lt in E. lia.
    + one_move H. destruct H as [<-|[]]. simpl.
      apply andb_true_iff in E. destruct E as [E _].
      apply andb_true_iff in E. destruct E as [_ E].
      apply Z.gtb_lt in E. lia.
    + one_move H. apply Z.ltb_lt in E.
      one_move H; [destruct H as [<-|[]]; simpl; lia|].
      one_move H. destruct H as [<-|[]]. simpl. lia.
    + one_move H. one_move H. destruct H as [<-|[]]. simpl. lia.
    + one_move H. one_move H. destruct H as [<-|[]]. simpl.
      apply andb_true_iff in E. destruct E as [_ E]. apply Z.ltb_lt in E. lia.
Qed.

Lemma getValidMoves_in_grid_witness :
  0 <= mx (mkMove 0 2 None) < widthOf pitLevel
  /\ 0 <= my (mkMove 0 2 None) < len pitLevel.
Proof.
  apply (@getValidMoves_in_grid pitLevel 0 1 [] (mkMove 0 2 None));
    [vm_compute; split; [discriminate|reflexivity]
    |vm_compute; split; [discriminate|reflexivity]
    |vm_compute; now left].
Defined.

(** X6. Every move [getValidMoves] returns is a vertical move in the
    entity's own column, or a step to the column next to it in the same
    row.  A sideways step without a dig enters a passable cell.  A move
    with a dig stays in the row, and digs the cell diagonally below in the
    direction of the step, which is a Brick not dug before; the cell it
    steps into is not tested. *)
Theorem getValidMoves_steps (level : Level) (x y : Z)
    (dugPositions : StrSet) (m : Move) :
  In m (getValidMoves level x y dugPositions) ->
  (mx m = x /\ dig m = None \/
   my m = y /\ (mx m = x - 1 \/ mx m = x + 1)) /\
  (dig m = None -> mx m <> x ->
   isPassable level (mx m) (my m) dugPositions = true) /\
  (forall d, dig m = Some d ->
     my m = y /\ px d = mx m /\ py d = y + 1 /\ mx m <> x /\
     getTile level (px d) (py d) = Some BRICK /\
     has (posKey (px d) (py d)) dugPositions = false /\
     hasGroundSupport level x y = true).
Proof.
  intro H. unfold getValidMoves in H.
  destruct (negb (hasGroundSupport level x y)
            && negb (is_tile (getTile level x y) LADDER
                     || is_tile (getTile level x y) ROPE)).
  - apply fallScan_In in H. destruct H as [Hm [Hd _]].
    split; [now left|]. split; [intros _ Hne; contradiction|].
    intros d Hd'. congruence.
  - repeat (apply in_app_or in H; destruct H as [H|H]).
    + one_move H. destruct H as [<-|[]]. simpl.
      apply andb_true_iff in E. destruct E as [_ E].
      split; [right; split; [reflexivity|now left]|].
      split; [intros _ _; exact E|discriminate].
    + one_move H. destruct H as [<-|[]]. simpl.
      apply andb_true_iff in E. destruct E as [_ E].
      split; [right; split; [reflexivity|now right]|].
      split; [intros _ _; exact E|discriminate].
    + one_move H. destruct H as [<-|[]]. simpl.
      split; [now left|]. split; [intros _ Hne; now elim Hne|discriminate].
    + one_move H.
      one_move H.
      * destruct H as [<-|[]]. simpl.
        split; [now left|]. split; [intros _ Hne; now elim Hne|discriminate].
      * one_move H. destruct H as [<-|[]]. simpl.
        split; [now left|]. split; [intros _ Hne; now elim Hne|discriminate].
    + one_move H. one_move H. destruct H as [<-|[]]. simpl.
      apply andb_true_iff in E. destruct E as [Es _].
      apply andb_true_iff in E0. destruct E0 as [E0 Ed].
      apply andb_true_iff in E0. destruct E0 as [_ Ec].
      apply negb_true_iff in Ed. unfold canDig in Ec.
      apply is_tile_true in Ec.
      split; [right; split; [reflexivity|now left]|].
      split; [discriminate|].
      intros d Hd. inversion Hd; subst d. simpl.
      repeat split; try assumption; lia.
    + one_move H. one_move H. destruct H as [<-|[]]. simpl.
      apply andb_true_iff in E. destruct E as [Es _].
      apply andb_true_iff in E0. destruct E0 as [E0 Ed].
      apply andb_true_iff in E0. destruct E0 as [_ Ec].
      apply negb_true_iff in Ed. unfold canDig in Ec.
      apply is_tile_true in Ec.
      split; [right; split; [reflexivity|now right]|].
      split; [discriminate|].
      intros d Hd. inversion Hd; subst d. simpl.
      repeat split; try assumption; lia.
Qed.

(** A dig move may step into a wall: on a floor of bricks next to a solid
    block, the entity digs to its lower right and moves into the block.
<<
    MB
    bb
>> *)
Definition wallLevel : Level := [ [SPAWN; SOLID]; [BRICK; BRICK] ].

Example dig_enters_wall :
  In (mkMove 1 0 (Some (mkPos 1 1))) (getValidMoves wallLevel 0 0 []) /\
  isPassable wallLevel 1 0 [] = false.
Proof. vm_compute. split; [now left|reflexivity]. Qed.

Lemma getValidMoves_steps_witness :
  (mx (mkMove 1 0 (Some (mkPos 1 1))) = 0
   /\ dig (mkMove 1 0 (Some (mkPos 1 1))) = None \/
   my (mkMove 1 0 (Some (mkPos 1 1))) = 0
   /\ (mx (mkMove 1 0 (Some (mkPos 1 1))) = 0 - 1
       \/ mx (mkMove 1 0 (Some (mkPos 1 1))) = 0 + 1)).
Proof.
  apply (@getValidMoves_steps wallLevel 0 0 [] (mkMove 1 0 (Some (mkPos 1 1)))).
  vm_compute. now left.
Defined.

(* ------------------------------------------------------------------ *)
(** ** The reachable set holds only positions the model can walk to *)

(** [reaches level startX startY x y dug]: a chain of moves of
    [getValidMoves], each taken with the bricks dug so far, leads from the
    start, nothing dug, to [(x, y)] with [dug] dug. *)
Inductive reaches (level : Level) (startX startY : Z)
  : Z -> Z -> StrSet -> Prop :=
| reaches_start : reaches level startX startY startX startY []
| reaches_move (x y : Z) (dug : StrSet) (m : Move) :
    reaches level startX startY x y dug ->
    In m (getValidMoves level x y dug) ->
    reaches level startX startY (mx m) (my m) (newDugPositions dug m).

Lemma In_add (k j : string) (s : StrSet) : In k (add j s) -> k = j \/ In k s.
Proof.
  unfold add. destruct (has j s); [now right|].
  intro H. apply in_app_or in H. destruct H as [H|[<-|[]]]; [now right|now left].
Qed.

Lemma In_add_keep (k j : string) (s : StrSet) : In k s -> In k (add j s).
Proof.
  unfold add. destruct (has j s); [easy|]. intro H. apply in_or_app. now left.
Qed.

Lemma In_add_new (j : string) (s : StrSet) : In j (add j s).
Proof.
  unfold add. destruct (has j s) eqn:E.
  - unfold has in E. apply existsb_exists in E. destruct E as [k [Hk E]].
    apply String.eqb_eq in E. now subst k.
  - apply in_or_app. right. now left.
Qed.

Lemma pushMoves_In (visited dugPositions : StrSet) (q : QState) :
  forall (moves : list Move) (queue : list QState),
    In q (pushMoves visited dugPositions moves queue) ->
    In q queue \/
    exists m, In m moves
              /\ q = mkQ (mx m) (my m) (newDugPositions dugPositions m).
Proof.
  unfold pushMoves.
  induction moves as [|m moves IH]; intros queue H; simpl in H; [now left|].
  apply IH in H. destruct H as [H|[m' [Hm' Hq]]].
  - destruct (negb (has (posKey (mx m) (my m)) visited)); [|now left].
    apply in_app_or in H. destruct H as [H|[<-|[]]]; [now left|].
    right. exists m. split; [now left|reflexivity].
  - right. exists m'. split; [now right|exact Hq].
Qed.

(** What the search keeps true of its queue and of its result. *)
Definition bfsSound (level : Level) (startX startY : Z) (st : BfsState) : Prop :=
  (forall q, In q (queue st) -> reaches level startX startY (qx q) (qy q) (qdug q))
  /\ (forall k, In k (reachable st) ->
        exists x y dug, k = posKey x y /\ reaches level startX startY x y dug).

Lemma bfsBody_sound (level : Level) (startX startY : Z) (st : BfsState) :
  bfsSound level startX startY st ->
  bfsSound level startX startY (bfsBody level st).
Proof.
  intro H. unfold bfsBody.
  destruct (queue st) as [|current rest] eqn:Eq; [exact H|].
  destruct H as [Hq Hr]. rewrite Eq in Hq.
  assert (Hc : reaches level startX startY (qx current) (qy current)
                 (qdug current)) by (apply Hq; now left).
  destruct (has (posKey (qx current) (qy current)) (visited st)).
  - split; simpl; [|exact Hr]. intros q Hin. apply Hq. now right.
  - split; simpl.
    + intros q Hin. apply pushMoves_In in Hin.
      destruct Hin as [Hin|[m [Hm ->]]]; [apply Hq; now right|].
      simpl. eapply reaches_move; [exact Hc|exact Hm].
    + intros k Hk. apply In_add in Hk. destruct Hk as [->|Hk]; [|now apply Hr].
      exists (qx current), (qy current), (qdug current). now split.
Qed.

Lemma bfsLoop_sound (level : Level) (startX startY : Z) :
  forall (n : nat) (st : BfsState),
    bfsSound level startX startY st ->
    bfsSound level startX startY (bfsLoop level n st).
Proof.
  induction n as [|n IH]; intros st H; simpl; [exact H|].
  destruct (queue st) eqn:Eq; [exact H|].
  apply IH. now apply bfsBody_sound.
Qed.

Lemma bfsBody_reachable_mono (level : Level) (st : BfsState) (k : string) :
  In k (reachable st) -> In k (reachable (bfsBody level st)).
Proof.
  intro H. unfold bfsBody. destruct (queue st) as [|c rest]; [exact H|].
  destruct (has (posKey (qx c) (qy c)) (visited st)); simpl; [exact H|].
  now apply In_add_keep.
Qed.

Lemma bfsLoop_reachable_mono (level : Level) (k : string) :
  forall (n : nat) (st : BfsState),
    In k (reachable st) -> In k (reachable (bfsLoop level n st)).
Proof.
  induction n as [|n IH]; intros st H; simpl; [exact H|].
  destruct (queue st); [exact H|].
  apply IH. now apply bfsBody_reachable_mono.
Qed.

Lemma getReachablePositionsWithin_sound (level : Level)
    (startX startY maxIterations : Z) (key : string) :
  In key (getReachablePositionsWithin level startX startY maxIterations) ->
  exists x y dug, key = posKey x y /\ reaches level startX startY x y dug.
Proof.
  unfold getReachablePositionsWithin.
  apply (bfsLoop_sound (Z.to_nat maxIterations)).
  split; simpl.
  - intros q [<-|[]]. simpl. constructor.
  - intros k [].
Qed.

(** X7. Every key of [getReachablePositions(level, startX, startY,
    maxIterations)] is the key of a position that a chain of
    [getValidMoves] moves reaches from the start, each move taken with the
    bricks dug on the way; and with at least one iteration allowed the
    start itself is in the set, whatever the level holds there. *)
Theorem getReachablePositions_sound (level : Level)
    (startX startY maxIterations : Z) :
  (forall key,
     In key (getReachablePositionsWithin level startX startY maxIterations) ->
     exists x y dug, key = posKey x y /\ reaches level startX startY x y dug) /\
  (0 < maxIterations ->
   In (posKey startX startY)
      (getReachablePositionsWithin level startX startY maxIterations)).
Proof.
  split; [intro key; apply getReachablePositionsWithin_sound|].
  intro Hpos. unfold getReachablePositionsWithin.
  destruct (Z.to_nat maxIterations) as [|n] eqn:En; [lia|].
  simpl. apply bfsLoop_reachable_mono. simpl. now left.
Qed.

(* ------------------------------------------------------------------ *)
(** ** The report of [validateLevel] *)

Lemma filter_split_Permutation {A : Type} (p : A -> bool) (l : list A) :
  Permutation (filter p l ++ filter (fun a => negb (p a)) l) l.
Proof.
  induction l as [|a l IH]; simpl; [constructor|].
  destruct (p a); simpl.
  - now constructor.
  - apply Permutation_sym. apply Permutation_cons_app.
    now apply Permutation_sym.
Qed.

(** X8. The report of [validateLevel]: the spawn it names is
    [getSpawnPosition(level)]; [reachableGold] and [unreachableGold]
    together are the Gold positions of the level, each once; with a spawn,
    the reachable ones are those whose key is in the reachable set from the
    spawn, the others are unreachable and have one issue line each; and
    [valid] holds exactly when no issue was recorded. *)
Theorem validateLevel_report (level : Level) :
  spawnPosition (validateLevel level) = getSpawnPosition level /\
  Permutation (reachableGold (validateLevel level)
               ++ unreachableGold (validateLevel level))
              (getGoldPositions level) /\
  (forall spawn, getSpawnPosition level = Some spawn ->
     let inReach p :=
       has (posKey (px p) (py p))
           (getReachablePositions level (px spawn) (py spawn)) in
     reachableGold (validateLevel level)
     = filter inReach (getGoldPositions level) /\
     unreachableGold (validateLevel level)
     = filter (fun p => negb (inReach p)) (getGoldPositions level) /\
     forall gold, In gold (unreachableGold (validateLevel level)) ->
                  In (goldIssue gold) (issues (validateLevel level))) /\
  (valid (validateLevel level) = true <-> issues (validateLevel level) = []).
Proof.
  unfold validateLevel.
  destruct (getSpawnPosition level) as [spawn|]; simpl.
  2:{ split; [reflexivity|]. split; [apply Permutation_refl|].
      split; [discriminate|]. split; discriminate. }
  unfold partitionGold. rewrite partitionGold_spec. simpl.
  split; [reflexivity|]. split; [apply filter_split_Permutation|].
  split.
  - intros s Hs. inversion Hs; subst s. simpl.
    split; [reflexivity|]. split; [reflexivity|].
    intros gold Hg. apply in_or_app. right. now apply in_map.
  - rewrite andb_true_iff, !len_zero_nil. split.
    + intros [_ H]. exact H.
    + intro H. split; [|exact H].
      apply app_eq_nil in H. destruct H as [_ H].
      now apply map_eq_nil in H.
Qed.

(* ------------------------------------------------------------------ *)
(** ** [validateLevelFull] *)

(** [ValidationResult & { canEscape, escapePositions }] *)
Record FullValidation : Type := mkFullValidation {
  result : ValidationResult;
  canEscape : bool;
  escapePositions : list Position }.

(** [solveResult.reason || 'Cannot complete level'] *)
Definition reasonOr (reason : option string) : string :=
  match reason with
  | Some r => if String.eqb r EmptyString then "Cannot complete level" else r
  | None => "Cannot complete level"
  end%string.

Definition validateLevelFull (level : Level) : FullValidation :=
  let basicResult := validateLevel level in
  let escapePositions := findEscapePositions level in
  if negb (valid basicResult) then
    mkFullValidation basicResult false escapePositions
  else
    let solveResult := canSolveLevel level in
    if negb (solvable solveResult) then
      mkFullValidation
        (mkValidation false (reachableGold basicResult)
           (unreachableGold basicResult) (spawnPosition basicResult)
           (issues basicResult ++ [reasonOr (reason solveResult)]))
        false escapePositions
    else
      mkFullValidation
        (mkValidation true (reachableGold basicResult)
           (unreachableGold basicResult) (spawnPosition basicResult)
           (issues basicResult))
        true escapePositions.

Lemma validateLevel_valid_issues (level : Level) :
  valid (validateLevel level) = true <-> issues (validateLevel level) = [].
Proof.
  unfold validateLevel.
  destruct (getSpawnPosition level) as [spawn|]; simpl; [|split; discriminate].
  unfold partitionGold. rewrite partitionGold_spec. simpl.
  rewrite andb_true_iff, !len_zero_nil. split.
  - intros [_ H]. exact H.
  - intro H. split; [|exact H].
    apply app_eq_nil in H. destruct H as [_ H]. now apply map_eq_nil in H.
Qed.

(** X9. [validateLevelFull] is valid exactly when [validateLevel] is valid
    and [canSolveLevel] finds a solution; [canEscape] is that same verdict;
    the verdict is [true] exactly when the issue list is empty (a failed
    solve adds its reason as an issue); the solver is not consulted, and
    the basic report is returned as it is, when basic validation fails; and
    the gold lists, the spawn and the escape positions are those of
    [validateLevel] and [findEscapePositions]. *)
Theorem validateLevelFull_verdict (level : Level) :
  let full := validateLevelFull level in
  valid (result full) = valid (validateLevel level) && isFullySolvable level /\
  canEscape full = valid (result full) /\
  (valid (result full) = true <-> issues (result full) = []) /\
  (valid (validateLevel level) = false -> result full = validateLevel level) /\
  reachableGold (result full) = reachableGold (validateLevel level) /\
  unreachableGold (result full) = unreachableGold (validateLevel level) /\
  spawnPosition (result full) = spawnPosition (validateLevel level) /\
  escapePositions full = findEscapePositions level.
Proof.
  pose proof (validateLevel_valid_issues level) as Hvi.
  unfold validateLevelFull, isFullySolvable. cbv zeta.
  destruct (valid (validateLevel level)) eqn:Ev; simpl.
  - destruct (solvable (canSolveLevel level)) eqn:Es; simpl.
    + repeat split; try reflexivity; try discriminate.
      intros _. now apply Hvi.
    + repeat split; try reflexivity; try discriminate.
      intro H. apply app_eq_nil in H. destruct H as [_ H]. discriminate.
  - rewrite Ev. repeat split; try reflexivity; try discriminate.
    intro H. apply Hvi in H. discriminate.
Qed.

(* ------------------------------------------------------------------ *)
(** ** Escape positions *)

Definition topTile (level : Level) (x : Z) : bool :=
  is_tile (getTile level x 0) EMPTY || is_tile (getTile level x 0) ROPE
  || is_tile (getTile level x 0) LADDER.

Lemma flat_map_nil_iff {A B : Type} (f : A -> list B) (l : list A) :
  flat_map f l = [] <-> forall a, In a l -> f a = [].
Proof.
  induction l as [|a l IH]; simpl.
  - split; [intros _ b []|reflexivity].
  - split.
    + intro H. apply app_eq_nil in H. destruct H as [H1 H2].
      intros b [<-|Hb]; [exact H1|]. now apply IH.
    + intro H. rewrite (H a (or_introl eq_refl)). simpl.
      apply IH. intros b Hb. apply H. now right.
Qed.

(** X10. Every position of [findEscapePositions(level)] is in the top row,
    in a column of the first row, on an Empty, Rope or Ladder tile; a
    Ladder in the top row is always one of them; and there is none exactly
    when no cell of the top row is Empty, Rope or Ladder. *)
Theorem findEscapePositions_top (level : Level) :
  (forall p, In p (findEscapePositions level) ->
     py p = 0 /\ 0 <= px p < widthOf level /\ topTile level (px p) = true) /\
  (forall x, 0 <= x < widthOf level -> getTile level x 0 = Some LADDER ->
     In (mkPos x 0) (findEscapePositions level)) /\
  (findEscapePositions level = [] <->
   forall x, 0 <= x < widthOf level -> topTile level x = false).
Proof.
  unfold findEscapePositions, topTile.
  set (cols := columns (Z.to_nat (widthOf level)) 0).
  set (first := flat_map _ cols).
  set (second := flat_map _ cols).
  assert (Hcols : forall x, In x cols <-> 0 <= x < widthOf level).
  { intro x. unfold cols. rewrite columns_In_iff. lia. }
  assert (Hfirst : forall p, In p first ->
            py p = 0 /\ 0 <= px p < widthOf level /\
            is_tile (getTile level (px p) 0) EMPTY
            || is_tile (getTile level (px p) 0) ROPE
            || is_tile (getTile level (px p) 0) LADDER = true).
  { intros p Hp. unfold first in Hp. apply in_flat_map in Hp.
    destruct Hp as [x [Hx Hp]]. apply Hcols in Hx.
    destruct (is_tile (getTile level x 0) LADDER) eqn:El.
    - destruct Hp as [<-|[]]. simpl. rewrite El.
      split; [reflexivity|]. split; [exact Hx|apply orb_true_r].
    - destruct (is_tile (getTile level x 0) EMPTY
                && is_tile (getTile level x 1) LADDER) eqn:Ee; [|contradiction].
      destruct Hp as [<-|[]]. simpl.
      apply andb_true_iff in Ee. destruct Ee as [Ee _]. rewrite Ee.
      split; [reflexivity|]. split; [exact Hx|reflexivity]. }
  assert (Hsecond : forall p, In p second <->
            py p = 0 /\ 0 <= px p < widthOf level /\
            is_tile (getTile level (px p) 0) EMPTY
            || is_tile (getTile level (px p) 0) ROPE
            || is_tile (getTile level (px p) 0) LADDER = true).
  { intro p. unfold second. rewrite in_flat_map. split.
    - intros [x [Hx Hp]]. apply Hcols in Hx.
      destruct (is_tile (getTile level x 0) EMPTY
                || is_tile (getTile level x 0) ROPE
                || is_tile (getTile level x 0) LADDER) eqn:E; [|contradiction].
      destruct Hp as [<-|[]]. simpl. now rewrite E.
    - intros [Hy [Hx Ht]]. exists (px p). split; [now apply Hcols|].
      rewrite Ht. left. destruct p as [a b]. simpl in *. now subst b. }
  split; [|split].
  - intros p Hp. destruct (len first =? 0); [now apply Hsecond|now apply Hfirst].
  - intros x Hx Ht.
    assert (Hin : In (mkPos x 0) first).
    { unfold first. apply in_flat_map. exists x. split; [now apply Hcols|].
      rewrite Ht. simpl. now left. }
    destruct (len first =? 0) eqn:E; [|exact Hin].
    apply len_zero_nil in E. rewrite E in Hin. contradiction.
  - destruct (len first =? 0) eqn:E.
    + split.
      * intros H x Hx.
        destruct (is_tile (getTile level x 0) EMPTY
                  || is_tile (getTile level x 0) ROPE
                  || is_tile (getTile level x 0) LADDER) eqn:Et; [|reflexivity].
        assert (Hin : In (mkPos x 0) second)
          by (apply Hsecond; simpl; now rewrite Et).
        rewrite H in Hin. contradiction.
      * intro H. destruct second as [|p l] eqn:Es; [reflexivity|].
        exfalso. assert (Hp : In p (p :: l)) by now left.
        apply Hsecond in Hp.
        destruct Hp as [_ [Hx Ht]]. rewrite (H _ Hx) in Ht. discriminate.
    + split.
      * intro H. rewrite H in E. discriminate.
      * intro H. exfalso.
        destruct first as [|p l] eqn:Es; [discriminate|].
        assert (Hp : In p (p :: l)) by now left.
        apply Hfirst in Hp.
        destruct Hp as [_ [Hx Ht]]. rewrite (H _ Hx) in Ht. discriminate.
Qed.

(* ------------------------------------------------------------------ *)
(** ** A solved level has a walk that collects the gold and escapes *)

(** [walks level startX startY path x y dug]: as [reaches], with the
    positions stood on, the last one first. *)
Inductive walks (level : Level) (startX startY : Z)
  : list Position -> Z -> Z -> StrSet -> Prop :=
| walks_start :
    walks level startX startY [mkPos startX startY] startX startY []
| walks_move (path : list Position) (x y : Z) (dug : StrSet) (m : Move) :
    walks level startX startY path x y dug ->
    In m (getValidMoves level x y dug) ->
    walks level startX startY (mkPos (mx m) (my m) :: path)
      (mx m) (my m) (newDugPositions dug m).

Lemma has_In (k : string) (s : StrSet) : has k s = true <-> In k s.
Proof.
  unfold has. rewrite existsb_exists. split.
  - intros [j [Hj E]]. apply String.eqb_eq in E. now subst j.
  - intro H. exists k. split; [exact H|apply String.eqb_refl].
Qed.

Lemma mapGet_mapSet (k k' : string) (v : Z) (m : list (string * Z)) :
  mapGet k (mapSet k' v m) = if String.eqb k k' then Some v else mapGet k m.
Proof.
  induction m as [|[j w] m IH]; simpl.
  - reflexivity.
  - destruct (String.eqb k' j) eqn:E; simpl.
    + apply String.eqb_eq in E. subst j.
      destruct (String.eqb k k'); reflexivity.
    + destruct (String.eqb k j) eqn:E'.
      * apply String.eqb_eq in E'. subst j.
        rewrite String.eqb_sym in E. now rewrite E.
      * exact IH.
Qed.

Lemma goldLookup_fold (Q : string -> Z -> Prop) :
  forall (l : list Position) (s : Z) (m : list (string * Z)),
    (forall k i, mapGet k m = Some i -> Q k i) ->
    (forall j p, nth_error l j = Some p ->
                 Q (posKey (px p) (py p)) (s + Z.of_nat j)) ->
    forall k i,
      mapGet k (fold_left
                  (fun m ig => mapSet (posKey (px (snd ig)) (py (snd ig)))
                                 (fst ig) m)
                  (indexed s l) m) = Some i ->
      Q k i.
Proof.
  induction l as [|a l IH]; intros s m Hm Hl k i H; simpl in H.
  - now apply Hm.
  - eapply IH; [| |exact H].
    + intros k0 i0 H0. rewrite mapGet_mapSet in H0.
      destruct (String.eqb k0 (posKey (px a) (py a))) eqn:E.
      * apply String.eqb_eq in E. subst k0. inversion H0; subst i0.
        replace s with (s + Z.of_nat 0) by (simpl; lia). now apply Hl.
      * now apply Hm.
    + intros j p Hj.
      replace (s + 1 + Z.of_nat j) with (s + Z.of_nat (S j)) by lia.
      now apply Hl.
Qed.

(** An index the gold lookup returns is the index of a Gold position with
    that key. *)
Lemma goldLookup_spec (goldPositions : list Position) (x y i : Z) :
  mapGet (posKey x y) (goldLookup goldPositions) = Some i ->
  0 <= i < len goldPositions /\
  nth_error goldPositions (Z.to_nat i) = Some (mkPos x y).
Proof.
  unfold goldLookup. intro H.
  refine (@goldLookup_fold
            (fun k i => forall x y, k = posKey x y ->
               0 <= i < len goldPositions /\
               nth_error goldPositions (Z.to_nat i) = Some (mkPos x y))
            goldPositions 0 [] _ _ (posKey x y) i H x y eq_refl).
  - intros k j H0. discriminate.
  - intros j p Hj a b Hk. apply posKey_injective in Hk.
    destruct Hk as [Ha Hb]. destruct p as [u v]. simpl in *. subst a b.
    rewrite Nat2Z.id. split; [|exact Hj].
    assert ((j < List.length goldPositions)%nat)
      by (apply nth_error_Some; congruence).
    unfold len. lia.
Qed.

Lemma shl1_small (n : nat) : (n <= 16)%nat -> shl1 (Z.of_nat n) = 2 ^ Z.of_nat n.
Proof.
  intro H. do 17 (destruct n as [|n]; [reflexivity|]). lia.
Qed.

Lemma shl1_bits (i j : Z) :
  0 <= i <= 16 -> 0 <= j -> Z.testbit (shl1 i) j = (i =? j).
Proof.
  intros Hi Hj. replace i with (Z.of_nat (Z.to_nat i)) at 1 by lia.
  rewrite shl1_small by lia. rewrite Z2Nat.id by lia.
  apply Z.pow2_bits_eqb. lia.
Qed.

Lemma insertByF_In (n a : FullNode) :
  forall l, In n (insertByF a l) -> n = a \/ In n l.
Proof.
  induction l as [|m l IH]; simpl; intro H.
  - destruct H as [<-|[]]. now left.
  - destruct (f a <? f m).
    + destruct H as [<-|H]; [now left|now right].
    + destruct H as [<-|H]; [right; now left|].
      apply IH in H. destruct H as [H|H]; [now left|right; now right].
Qed.

Lemma sortByF_In (n : FullNode) (l : list FullNode) :
  In n (sortByF l) -> In n l.
Proof.
  unfold sortByF.
  assert (G : forall l acc, In n (fold_left (fun acc n => insertByF n acc) l acc)
                            -> In n acc \/ In n l).
  { clear l. induction l as [|a l IH]; intros acc H; simpl in H; [now left|].
    apply IH in H. destruct H as [H|H]; [|right; now right].
    apply insertByF_In in H. destruct H as [->|H]; [right; now left|now left]. }
  intro H. apply G in H. destruct H as [[]|H]. exact H.
Qed.

Lemma escapeSet_In (escapes : list Position) (k : string) :
  forall s,
    In k (fold_left (fun s e => add (posKey (px e) (py e)) s) escapes s) ->
    In k s \/ exists e, In e escapes /\ k = posKey (px e) (py e).
Proof.
  induction escapes as [|e l IH]; intros s H; simpl in H; [now left|].
  apply IH in H. destruct H as [H|[e' [He' Hk]]].
  - apply In_add in H. destruct H as [->|H]; [|now left].
    right. exists e. split; [now left|reflexivity].
  - right. exists e'. split; [now right|exact Hk].
Qed.

Section SolverSound.

Variable level : Level.
Variable goldPositions escapePositions : list Position.
Variable spawn : Position.
Hypothesis fewGold : len goldPositions <= 16.

(** What the search keeps true of a node: a walk from the spawn ends in
    its position with its dug set, and every bit set in [collectedGold] is
    the index of a Gold position the walk stood on. *)
Definition nodeOk (n : FullNode) : Prop :=
  exists path,
    walks level (px spawn) (py spawn) path (nx n) (ny n) (ndug n) /\
    forall i, 0 <= i -> Z.testbit (collectedGold n) i = true ->
      exists p, nth_error goldPositions (Z.to_nat i) = Some p /\ In p path.

Lemma startNode_ok : nodeOk (startNode goldPositions escapePositions spawn).
Proof.
  exists [mkPos (px spawn) (py spawn)]. unfold startNode. simpl.
  split; [constructor|].
  intros i Hi Hb.
  destruct (mapGet (posKey (px spawn) (py spawn)) (goldLookup goldPositions))
    as [idx|] eqn:E.
  - apply goldLookup_spec in E. destruct E as [Hidx Hn].
    rewrite shl1_bits in Hb by lia. apply Z.eqb_eq in Hb. subst i.
    eexists. split; [exact Hn|now left].
  - rewrite Z.bits_0 in Hb. discriminate.
Qed.

Lemma expandNode_ok (visited : StrSet) (current : FullNode) :
  nodeOk current ->
  forall (moves : list Move) (open : list FullNode),
    (forall m, In m moves ->
       In m (getValidMoves level (nx current) (ny current) (ndug current))) ->
    (forall n, In n open -> nodeOk n) ->
    forall n,
      In n (expandNode goldPositions escapePositions visited current moves open) ->
      nodeOk n.
Proof.
  intros [path [Hw Hbits]]. unfold expandNode.
  induction moves as [|m moves IH]; intros open Hm Ho n Hn; simpl in Hn;
    [now apply Ho|].
  eapply IH; [| |exact Hn].
  - intros m' Hm'. apply Hm. now right.
  - intros n' Hn'.
    destruct (has _ visited); [now apply Ho|].
    apply in_app_or in Hn'. destruct Hn' as [Hn'|[<-|[]]]; [now apply Ho|].
    exists (mkPos (mx m) (my m) :: path). simpl. split.
    + eapply walks_move; [exact Hw|]. apply Hm. now left.
    + intros i Hi Hb.
      destruct (mapGet (posKey (mx m) (my m)) (goldLookup goldPositions))
        as [idx|] eqn:E.
      * apply goldLookup_spec in E. destruct E as [Hidx Hnth].
        rewrite Z.lor_spec in Hb. apply orb_true_iff in Hb.
        destruct Hb as [Hb|Hb].
        -- destruct (Hbits i Hi Hb) as [p [Hp Hin]].
           exists p. split; [exact Hp|now right].
        -- rewrite shl1_bits in Hb by lia. apply Z.eqb_eq in Hb. subst i.
           eexists. split; [exact Hnth|now left].
      * destruct (Hbits i Hi Hb) as [p [Hp Hin]].
        exists p. split; [exact Hp|now right].
Qed.

(** The state a winning node is in. *)
Definition wins (n : FullNode) : Prop :=
  collectedGold n = shl1 (len goldPositions) - 1 /\
  has (posKey (nx n) (ny n))
      (fold_left (fun s e => add (posKey (px e) (py e)) s) escapePositions [])
  = true.

Lemma astarBody_ok (st : AStarState) :
  (forall n, In n (openSet st) -> nodeOk n) ->
  match astarBody level goldPositions escapePositions st with
  | inl _ => exists n, nodeOk n /\ wins n
  | inr st' => forall n, In n (openSet st') -> nodeOk n
  end.
Proof.
  intro Ho. unfold astarBody.
  destruct (sortByF (openSet st)) as [|current rest] eqn:Es; [exact Ho|].
  assert (Hs : forall n, In n (current :: rest) -> nodeOk n).
  { intros n Hn. apply Ho. apply sortByF_In. now rewrite Es. }
  destruct ((collectedGold current =? shl1 (len goldPositions) - 1)
            && has (posKey (nx current) (ny current))
                 (fold_left (fun s e => add (posKey (px e) (py e)) s)
                    escapePositions [])) eqn:Ew.
  - exists current. split; [apply Hs; now left|].
    apply andb_true_iff in Ew. destruct Ew as [E1 E2].
    apply Z.eqb_eq in E1. now split.
  - destruct (has (nodeKey current) (avisited st)); simpl.
    + intros n Hn. apply Hs. now right.
    + intros n Hn.
      eapply expandNode_ok; [apply Hs; now left| | |exact Hn].
      * intros m Hm. exact Hm.
      * intros n' Hn'. apply Hs. now right.
Qed.

Lemma astarLoop_ok :
  forall (k : nat) (i : Z) (st : AStarState),
    (forall n, In n (openSet st) -> nodeOk n) ->
    astarLoop level goldPositions escapePositions k i st = Won ->
    exists n, nodeOk n /\ wins n.
Proof.
  induction k as [|k IH]; intros i st Ho H; simpl in H; [discriminate|].
  destruct (openSet st) eqn:Eo; [discriminate|].
  rewrite <- Eo in Ho. pose proof (astarBody_ok st Ho) as Hb.
  destruct (astarBody level goldPositions escapePositions st) as [|st'];
    [exact Hb|].
  eapply IH; [exact Hb|exact H].
Qed.

(** A winning node gives the walk. *)
Lemma wins_walk (n : FullNode) :
  nodeOk n -> wins n ->
  exists path x y dug,
    walks level (px spawn) (py spawn) path x y dug /\
    (forall gold, In gold goldPositions -> In gold path) /\
    In (mkPos x y) escapePositions.
Proof.
  intros [path [Hw Hbits]] [Hc He].
  exists path, (nx n), (ny n), (ndug n). split; [exact Hw|]. split.
  - intros gold Hg. apply In_nth_error in Hg. destruct Hg as [j Hj].
    assert (Hlt : (j < List.length goldPositions)%nat)
      by (apply nth_error_Some; congruence).
    destruct (Hbits (Z.of_nat j)) as [p [Hp Hin]]; [lia| |].
    + rewrite Hc.
      replace (len goldPositions)
        with (Z.of_nat (List.length goldPositions)) by reflexivity.
      rewrite shl1_small by (unfold len in fewGold; lia).
      replace (2 ^ Z.of_nat (List.length goldPositions) - 1)
        with (Z.ones (Z.of_nat (List.length goldPositions)))
        by (rewrite Z.ones_equiv; lia).
      apply Z.ones_spec_low. lia.
    + rewrite Nat2Z.id in Hp. congruence.
  - apply has_In in He. apply escapeSet_In in He.
    destruct He as [[]|[e [He Hk]]]. apply posKey_injective in Hk.
    destruct Hk as [Hx Hy]. destruct e as [a b]. simpl in *. now subst a b.
Qed.

End SolverSound.

(** X11. When [canSolveLevel] answers [solvable] on a level of at most 16
    Gold, the level has a Spawn and the movement model has a walk from it,
    a chain of [getValidMoves] moves each taken with the bricks dug so
    far, that stands on every Gold position and ends on one of
    [findEscapePositions(level)]. *)
Theorem canSolveLevel_sound (level : Level) (maxIterations : Z) :
  len (getGoldPositions level) <= 16 ->
  solvable (canSolveLevelWithin level maxIterations) = true ->
  exists spawn path x y dug,
    getSpawnPosition level = Some spawn /\
    walks level (px spawn) (py spawn) path x y dug /\
    (forall gold, In gold (getGoldPositions level) -> In gold path) /\
    In (mkPos x y) (findEscapePositions level).
Proof.
  intros Hfew H. unfold canSolveLevelWithin in H.
  destruct (getSpawnPosition level) as [spawn|]; [|discriminate].
  destruct (len (getGoldPositions level) =? 0); [discriminate|].
  destruct (len (getGoldPositions level) >? 16) eqn:E16;
    [rewrite Z.gtb_ltb in E16; apply Z.ltb_lt in E16; lia|].
  destruct (len (findEscapePositions level) =? 0); [discriminate|].
  unfold searchFrom in H.
  destruct (astarLoop _ _ _ _ _ _) as [|iterations] eqn:Erun.
  2:{ destruct (iterations >=? maxIterations); discriminate. }
  assert (Hinit : forall n,
            In n (openSet (mkAStar [startNode (getGoldPositions level)
                                      (findEscapePositions level) spawn] [])) ->
            nodeOk level (getGoldPositions level) spawn n).
  { intros n [<-|[]]. now apply startNode_ok. }
  destruct (@astarLoop_ok level (getGoldPositions level)
              (findEscapePositions level) spawn Hfew _ _ _ Hinit Erun)
    as [n [Hok Hwin]].
  destruct (@wins_walk level (getGoldPositions level)
              (findEscapePositions level) spawn Hfew n Hok Hwin)
    as [path [x [y [dug Hres]]]].
  exists spawn, path, x, y, dug. split; [reflexivity|exact Hres].
Qed.

Lemma canSolveLevel_sound_witness :
  exists spawn path x y dug,
    getSpawnPosition pitLevel = Some spawn /\
    walks pitLevel (px spawn) (py spawn) path x y dug /\
    (forall gold, In gold (getGoldPositions pitLevel) -> In gold path) /\
    In (mkPos x y) (findEscapePositions pitLevel).
Proof.
  apply (@canSolveLevel_sound pitLevel 100000).
  - vm_compute. discriminate.
  - vm_compute. reflexivity.
Defined.

(* ------------------------------------------------------------------ *)
(** ** What [placeEntities] puts on the grid *)

Lemma validPositions_cell (level : Level) (p : Position) :
  In p (validPositions level) ->
  exists t, getTile level (px p) (py p) = Some t /\
            (t = EMPTY \/ t = LADDER \/ t = ROPE).
Proof.
  unfold validPositions. intro H. apply in_flat_map in H.
  destruct H as [y [_ H]]. apply in_flat_map in H. destruct H as [x [_ H]].
  destruct ((is_tile (getTile level x y) EMPTY
             || is_tile (getTile level x y) LADDER
             || is_tile (getTile level x y) ROPE)
            && _) eqn:E; [|contradiction].
  destruct H as [<-|[]]. simpl.
  apply andb_true_iff in E. destruct E as [E _].
  destruct (getTile level x y) as [t|]; [|discriminate].
  exists t. split; [reflexivity|].
  destruct t; simpl in E; try discriminate; tauto.
Qed.

Lemma fallbackSpawn_cell (level : Level) (height : Z) (p : Position) :
  forall xs l,
    fallbackSpawn level height xs = Ok l -> In p l ->
    getTile level (px p) (py p) = Some EMPTY.
Proof.
  induction xs as [|x xs IH]; intros l H Hin; simpl in H.
  - inversion H; subst l. contradiction.
  - destruct (rowAt level (height - 2)) as [r|] eqn:Er; [|discriminate].
    destruct (is_tile (cellAt r x) EMPTY) eqn:Ec; [|now apply (IH l)].
    inversion H; subst l. destruct Hin as [<-|[]]. simpl.
    apply is_tile_true in Ec. apply getTile_some.
    unfold rowAt in Er. destruct (height - 2 <? 0) eqn:Ey; [discriminate|].
    unfold cellAt in Ec. destruct (x <? 0) eqn:Ex; [discriminate|].
    apply Z.ltb_ge in Ey, Ex.
    split; [exact Ex|]. split; [exact Ey|]. exists r. now split.
Qed.

(** An entity is only ever written over an Empty cell. *)
Lemma placeAll_keeps (tile t : TileChar) (x y : Z) :
  t <> EMPTY ->
  forall (ps : list Position) (level : Level),
    getTile level x y = Some t ->
    getTile (fold_left (placeOnEmpty tile) ps level) x y = Some t.
Proof.
  intro Ht. induction ps as [|p ps IH]; intros level H; simpl; [exact H|].
  apply IH. unfold placeOnEmpty.
  destruct (is_tile (getTile level (px p) (py p)) EMPTY) eqn:E; [|exact H].
  apply is_tile_true in E.
  destruct (Z.eq_dec x (px p)) as [->|Hx].
  - destruct (Z.eq_dec y (py p)) as [->|Hy]; [congruence|].
    now rewrite getTile_setCell_other by now right.
  - now rewrite getTile_setCell_other by now left.
Qed.

Lemma only_one {A : Type} (a : A) (l : list A) :
  NoDup l -> In a l -> (forall b, In b l -> b = a) -> l = [a].
Proof.
  intros Hn Ha Hall. destruct l as [|b l]; [contradiction|].
  assert (b = a) by (apply Hall; now left). subst b.
  destruct l as [|c l]; [reflexivity|].
  assert (c = a) by (apply Hall; right; now left). subst c.
  inversion Hn as [|? ? Hnot _]. exfalso. apply Hnot. now left.
Qed.

(** How a run of [placeEntities] that chose a spawn built its result. *)
Lemma placeEntities_shape
    (shuffle : Rng -> nat -> list Position -> list Position * nat)
    (structure : Level) (goldCount enemyCount : Z) (rng : Rng) (drawn : nat)
    (result : Placement) (spawn : Position) :
  (forall r n l, Permutation (fst (shuffle r n l)) l) ->
  placeEntities shuffle structure goldCount enemyCount rng drawn = Ok result ->
  chosenSpawn result = Some spawn ->
  let level1 := setCell structure (px spawn) (py spawn) SPAWN in
  exists golds enemies,
    placed result
    = fold_left (placeOnEmpty ENEMY) enemies
        (fold_left (placeOnEmpty GOLD) golds level1) /\
    (exists t, getTile structure (px spawn) (py spawn) = Some t /\
               (t = EMPTY \/ t = LADDER \/ t = ROPE)) /\
    (List.length golds <= Z.to_nat goldCount)%nat /\
    (List.length enemies <= Z.to_nat enemyCount)%nat /\
    (forall p, In p golds ->
       has (posKey (px p) (py p))
           (getReachablePositions level1 (px spawn) (py spawn)) = true).
Proof.
  intros Hperm Hrun Hspawn. cbv zeta.
  unfold placeEntities in Hrun. rewrite cloneLevel_id in Hrun.
  assert (Hcell : forall vsp,
            (if len (validPositions structure) =? 0
             then fallbackSpawn structure (len structure)
                    (columns (Z.to_nat (Z.min 10 (widthOf structure) - 1)) 1)
             else Ok (validPositions structure)) = Ok vsp ->
            forall p, In p vsp ->
                      exists t, getTile structure (px p) (py p) = Some t /\
                                (t = EMPTY \/ t = LADDER \/ t = ROPE)).
  { intros vsp E p Hp. destruct (len (validPositions structure) =? 0).
    - exists EMPTY. split; [|now left].
      eapply fallbackSpawn_cell; [exact E|exact Hp].
    - inversion E; subst vsp. now apply validPositions_cell. }
  destruct (if len (validPositions structure) =? 0
            then fallbackSpawn structure (len structure)
                   (columns (Z.to_nat (Z.min 10 (widthOf structure) - 1)) 1)
            else Ok (validPositions structure)) as [vsp|e]; cbn [bind] in Hrun;
    [|discriminate].
  specialize (Hcell vsp eq_refl).
  destruct (len vsp >? 0).
  2:{ inversion Hrun; subst result. simpl in Hspawn. discriminate. }
  destruct (pickSpawn (sortByYDesc vsp) (rng drawn)) as [sp|] eqn:Epick;
    [|discriminate].
  assert (Hsp : In sp vsp).
  { apply sortByYDesc_In. unfold pickSpawn in Epick.
    destruct (_ <? 0); [discriminate|]. eapply nth_error_In; exact Epick. }
  unfold assignCell in Hrun.
  destruct (rowAt structure (py sp)); cbn [bind] in Hrun; [|discriminate].
  set (level1 := setCell structure (px sp) (py sp) SPAWN) in *.
  set (reach := getReachablePositions level1 (px sp) (py sp)) in *.
  set (rgp := filter (fun p => has (posKey (px p) (py p)) reach) _) in *.
  pose proof (Hperm rng (S drawn) rgp) as Hp1.
  destruct (shuffle rng (S drawn) rgp) as [shuffledGold drawn2]. simpl in Hp1.
  set (golds := firstn (Z.to_nat (Z.min goldCount (len rgp))) shuffledGold) in *.
  destruct (shuffle rng drawn2 _) as [shuffledEnemies drawn3].
  inversion Hrun; subst result. clear Hrun. simpl in *.
  inversion Hspawn; subst sp. clear Hspawn.
  exists golds,
    (firstn (Z.to_nat (Z.min enemyCount (len shuffledEnemies))) shuffledEnemies).
  split; [reflexivity|]. split; [now apply Hcell|].
  split; [|split].
  - unfold golds. etransitivity; [apply firstn_le_length|].
    lia.
  - etransitivity; [apply firstn_le_length|].
    lia.
  - intros p Hin. apply firstn_incl in Hin.
    apply (Permutation_in _ Hp1) in Hin.
    unfold rgp in Hin. apply filter_In in Hin. apply Hin.
Qed.

Lemma spawned_tiles (structure : Level) (sx sy x y : Z) (t : TileChar) :
  structureGrid structure ->
  getTile (setCell structure sx sy SPAWN) x y = Some t ->
  normalizeTile t <> t ->
  x = sx /\ y = sy /\ t = SPAWN.
Proof.
  intros Hs H Hn.
  destruct (Z.eq_dec x sx) as [->|Hx].
  - destruct (Z.eq_dec y sy) as [->|Hy].
    + destruct (getTile structure sx sy) as [u|] eqn:Eu.
      * rewrite (getTile_setCell_same _ _ _ _ Eu) in H. inversion H. now split.
      * unfold setCell in H. rewrite Eu in H. congruence.
    + rewrite getTile_setCell_other in H by now right.
      apply Hs in H. contradiction.
  - rewrite getTile_setCell_other in H by now left.
    apply Hs in H. contradiction.
Qed.

Lemma placeEntities_places
    (shuffle : Rng -> nat -> list Position -> list Position * nat)
    (structure : Level) (goldCount enemyCount : Z) (rng : Rng) (drawn : nat)
    (result : Placement) (spawn : Position) :
  (forall r n l, Permutation (fst (shuffle r n l)) l) ->
  structureGrid structure ->
  placeEntities shuffle structure goldCount enemyCount rng drawn = Ok result ->
  chosenSpawn result = Some spawn ->
  findTiles (placed result) SPAWN = [spawn] /\
  len (findTiles (placed result) GOLD) <= Z.max 0 goldCount /\
  len (findTiles (placed result) ENEMY) <= Z.max 0 enemyCount /\
  spawnPosition (validateLevel (placed result)) = Some spawn /\
  unreachableGold (validateLevel (placed result)) = [].
Proof.
  intros Hperm Hstruct Hrun Hspawn.
  destruct (placeEntities_shape _ _ _ _ _ _ Hperm Hrun Hspawn)
    as [golds [enemies [Hplaced [[t0 [Hcell _]] [Hng [Hne Hreach]]]]]].
  set (level1 := setCell structure (px spawn) (py spawn) SPAWN) in *.
  set (level2 := fold_left (placeOnEmpty GOLD) golds level1) in *.
  assert (T12 : sameTerrain level1 level2) by (now apply placeAll_terrain).
  assert (T23 : sameTerrain level2 (placed result))
    by (rewrite Hplaced; now apply placeAll_terrain).
  assert (T13 := sameTerrain_trans T12 T23).
  assert (Hpos : forall p q : Position,
            px p = px q -> py p = py q -> p = q).
  { intros [a b] [c d]. simpl. now intros -> ->. }
  (* where each entity of the result comes from *)
  assert (Hs : forall p, In p (findTiles (placed result) SPAWN) -> p = spawn).
  { intros p Hp. apply findTiles_In in Hp. rewrite Hplaced in Hp.
    apply placeAll_origin in Hp. destruct Hp as [Hp|[E _]]; [|discriminate].
    apply placeAll_origin in Hp. destruct Hp as [Hp|[E _]]; [|discriminate].
    apply (@spawned_tiles structure _ _ _ _ _ Hstruct) in Hp; [|discriminate].
    destruct Hp as [Hx [Hy _]]. now apply Hpos. }
  assert (Hg : forall p, In p (findTiles (placed result) GOLD) -> In p golds).
  { intros p Hp. apply findTiles_In in Hp. rewrite Hplaced in Hp.
    apply placeAll_origin in Hp. destruct Hp as [Hp|[E _]]; [|discriminate].
    apply placeAll_origin in Hp. destruct Hp as [Hp|[_ [q [Hq [Hx Hy]]]]].
    - apply (@spawned_tiles structure _ _ _ _ _ Hstruct) in Hp; [|discriminate].
      destruct Hp as [_ [_ E]]. discriminate.
    - now rewrite (Hpos p q Hx Hy). }
  assert (He : forall p, In p (findTiles (placed result) ENEMY) -> In p enemies).
  { intros p Hp. apply findTiles_In in Hp. rewrite Hplaced in Hp.
    apply placeAll_origin in Hp. destruct Hp as [Hp|[_ [q [Hq [Hx Hy]]]]].
    - apply placeAll_origin in Hp. destruct Hp as [Hp|[E _]]; [|discriminate].
      apply (@spawned_tiles structure _ _ _ _ _ Hstruct) in Hp; [|discriminate].
      destruct Hp as [_ [_ E]]. discriminate.
    - now rewrite (Hpos p q Hx Hy). }
  assert (Hfind : findTiles (placed result) SPAWN = [spawn]).
  { apply only_one; [apply findTiles_NoDup| |exact Hs].
    apply findTiles_In. rewrite Hplaced.
    apply placeAll_keeps; [discriminate|].
    apply placeAll_keeps; [discriminate|].
    eapply getTile_setCell_same; exact Hcell. }
  split; [exact Hfind|]. split; [|split].
  - pose proof (NoDup_incl_length (findTiles_NoDup (placed result) GOLD) Hg).
    unfold len. lia.
  - pose proof (NoDup_incl_length (findTiles_NoDup (placed result) ENEMY) He).
    unfold len. lia.
  - unfold validateLevel, getSpawnPosition. rewrite Hfind.
    unfold partitionGold. rewrite partitionGold_spec. simpl.
    split; [reflexivity|].
    apply filter_negb_nil. intros gold Hgold.
    rewrite <- (terrain_getReachablePositions T13).
    apply Hreach. now apply Hg.
Qed.

(** X12. Let [placeEntities] return a level after choosing a spawn, on a
    structure grid, with any shuffle that permutes its argument.  Then the
    level holds exactly one Spawn, the chosen one; it holds at most
    [goldCount] Gold and at most [enemyCount] Enemy tiles; and
    [validateLevel] of it names that spawn and reports no unreachable
    gold. *)
Theorem placeEntities_census
    (shuffle : Rng -> nat -> list Position -> list Position * nat)
    (structure : Level) (goldCount enemyCount : Z) (rng : Rng) (drawn : nat)
    (result : Placement) (spawn : Position) :
  (forall r n l, Permutation (fst (shuffle r n l)) l) ->
  structureGrid structure ->
  placeEntities shuffle structure goldCount enemyCount rng drawn = Ok result ->
  chosenSpawn result = Some spawn ->
  findTiles (placed result) SPAWN = [spawn] /\
  len (findTiles (placed result) GOLD) <= Z.max 0 goldCount /\
  len (findTiles (placed result) ENEMY) <= Z.max 0 enemyCount /\
  spawnPosition (validateLevel (placed result)) = Some spawn /\
  unreachableGold (validateLevel (placed result)) = [].
Proof. apply placeEntities_places. Qed.

Lemma placeEntities_census_witness :
  findTiles
    [ [GOLD; GOLD; ENEMY; EMPTY];
      [BRICK; BRICK; LADDER; EMPTY];
      [SPAWN; EMPTY; LADDER; EMPTY];
      [SOLID; SOLID; SOLID; SOLID] ] SPAWN = [mkPos 0 2].
Proof.
  assert (Hperm : forall (r : Rng) (n : nat) (l : list Position),
             Permutation (fst (keepOrder r n l)) l)
    by (intros r n l; apply Permutation_refl).
  assert (Hgrid : structureGrid ladderStructure)
    by (apply structureGrid_check; reflexivity).
  exact (proj1 (@placeEntities_census keepOrder ladderStructure 2 1
                  (fun _ => 0%Q) 0%nat _ (mkPos 0 2)
                  Hperm Hgrid place_on_ladderStructure eq_refl)).
Defined.

(* ------------------------------------------------------------------ *)
(** ** What the repair pass may change *)

(** A cell before and after repairs: it keeps its tile, or, being Empty,
    Ladder or Rope, it has become Empty or Ladder. *)
Definition repaired (before after : option TileChar) : bool :=
  match before, after with
  | None, None => true
  | Some t, Some t' =>
      tile_eqb t t'
      || ((tile_eqb t EMPTY || tile_eqb t LADDER || tile_eqb t ROPE)
          && (tile_eqb t' EMPTY || tile_eqb t' LADDER))
  | _, _ => false
  end.

Lemma repaired_refl (o : option TileChar) : repaired o o = true.
Proof. destruct o as [t|]; [|reflexivity]. simpl. now rewrite tile_eqb_refl. Qed.

Lemma repaired_trans (a b c : option TileChar) :
  repaired a b = true -> repaired b c = true -> repaired a c = true.
Proof.
  destruct a as [t|], b as [u|], c as [v|]; simpl; try discriminate;
    try reflexivity.
  destruct t, u; simpl; try discriminate; destruct v; simpl;
    try reflexivity; try discriminate.
Qed.

Lemma setCell_repaired (level : Level) (x y a b : Z) (t u : TileChar) :
  getTile level x y = Some t ->
  repaired (Some t) (Some u) = true ->
  repaired (getTile level a b) (getTile (setCell level x y u) a b) = true.
Proof.
  intros Ht Hr.
  destruct (Z.eq_dec a x) as [->|Hx].
  - destruct (Z.eq_dec b y) as [->|Hy].
    + now rewrite (getTile_setCell_same _ _ _ _ Ht), Ht.
    + rewrite getTile_setCell_other by now right. apply repaired_refl.
  - rewrite getTile_setCell_other by now left. apply repaired_refl.
Qed.

Lemma repairCell_repaired (random : Rng) (height : Z) (st : Level * nat)
    (x y a b : Z) :
  repaired (getTile (fst st) a b)
           (getTile (fst (repairCell random height st x y)) a b) = true.
Proof.
  unfold repairCell.
  destruct (is_tile (getTile (fst st) x y) LADDER) eqn:El.
  - apply is_tile_true in El.
    assert (Er : is_tile (getTile (fst st) x y) ROPE = false)
      by (rewrite El; reflexivity).
    rewrite Er.
    destruct (y <? height - 2); [|apply repaired_refl].
    destruct (is_tile (getTile (fst st) x (y + 1)) EMPTY) eqn:Ee;
      [|apply repaired_refl].
    apply is_tile_true in Ee.
    destruct (Qltb (random (snd st)) lit_0_7); simpl.
    + eapply setCell_repaired; [exact Ee|reflexivity].
    + eapply setCell_repaired; [exact El|reflexivity].
  - destruct (is_tile (getTile (fst st) x y) ROPE) eqn:Er;
      [|apply repaired_refl].
    apply is_tile_true in Er.
    destruct (is_tile (getTile (fst st) x (y + 1)) BRICK
              || is_tile (getTile (fst st) x (y + 1)) SOLID);
      [|apply repaired_refl].
    simpl. eapply setCell_repaired; [exact Er|].
    destruct (Qltb (random (snd st)) lit_0_5); reflexivity.
Qed.

Lemma repairCell_dimensions (random : Rng) (height : Z) (st : Level * nat)
    (x y : Z) :
  getLevelDimensions (fst (repairCell random height st x y))
  = getLevelDimensions (fst st).
Proof.
  unfold repairCell, getLevelDimensions.
  repeat match goal with
         | |- context [if ?c then _ else _] => destruct c
         end; simpl; rewrite ?setCell_widthOf, ?setCell_len; reflexivity.
Qed.

(** A property of the grid that every cell repair keeps is kept by the
    whole pass. *)
Lemma postProcessStructure_invariant (random : Rng) (level : Level)
    (drawn : nat) (Inv : Level -> Prop) :
  (forall st x y, Inv (fst st) ->
                  Inv (fst (repairCell random (len level) st x y))) ->
  Inv level -> Inv (fst (postProcessStructure random level drawn)).
Proof.
  intros Hstep H0. unfold postProcessStructure. rewrite cloneLevel_id.
  generalize (columns (Z.to_nat (len level)) 0). intro ys.
  assert (G : forall (st : Level * nat),
             Inv (fst st) ->
             Inv (fst (fold_left
                         (repairRow random (len level)
                            (Z.to_nat (widthOf level))) ys st))).
  { induction ys as [|y ys IH]; intros st Hst; simpl; [exact Hst|].
    apply IH. unfold repairRow.
    generalize (columns (Z.to_nat (widthOf level)) 0). intro xs. revert st Hst.
    induction xs as [|x xs IHx]; intros st Hst; simpl; [exact Hst|].
    apply IHx. now apply Hstep. }
  now apply G.
Qed.

Lemma postProcessStructure_repaired (random : Rng) (level : Level)
    (drawn : nat) (x y : Z) :
  repaired (getTile level x y)
           (getTile (fst (postProcessStructure random level drawn)) x y) = true.
Proof.
  apply (@postProcessStructure_invariant random level drawn
           (fun l => repaired (getTile level x y) (getTile l x y) = true)).
  - intros st a b H. eapply repaired_trans; [exact H|].
    apply repairCell_repaired.
  - apply repaired_refl.
Qed.

(** X13. [postProcessStructure] returns a grid of the same dimensions in
    which every cell keeps its tile or, being Empty, Ladder or Rope, has
    become Empty or Ladder: Brick, Solid, Gold, Enemy and Spawn tiles are
    where they were and nowhere else, no Rope is added, and a grid of
    terrain tiles stays one. *)
Theorem postProcessStructure_keeps (random : Rng) (level : Level)
    (drawn : nat) :
  let processed := fst (postProcessStructure random level drawn) in
  getLevelDimensions processed = getLevelDimensions level /\
  (forall x y, repaired (getTile level x y) (getTile processed x y) = true) /\
  (forall x y t, In t [BRICK; SOLID; GOLD; ENEMY; SPAWN] ->
     (getTile processed x y = Some t <-> getTile level x y = Some t)) /\
  (forall x y, getTile processed x y = Some ROPE ->
               getTile level x y = Some ROPE) /\
  (structureGrid level -> structureGrid processed).
Proof.
  cbv zeta.
  pose proof (postProcessStructure_repaired random level drawn) as Hr.
  split; [|split; [exact Hr|split; [|split]]].
  - apply (@postProcessStructure_invariant random level drawn
             (fun l => getLevelDimensions l = getLevelDimensions level)).
    + intros st x y H. now rewrite repairCell_dimensions.
    + reflexivity.
  - intros x y t Ht. specialize (Hr x y).
    destruct (getTile level x y) as [u|],
             (getTile (fst (postProcessStructure random level drawn)) x y)
               as [v|]; simpl in Hr; try discriminate.
    + split; intro E; inversion E; subst;
        destruct Ht as [<-|[<-|[<-|[<-|[<-|[]]]]]];
        [destruct u|destruct u|destruct u|destruct u|destruct u
        |destruct v|destruct v|destruct v|destruct v|destruct v];
        simpl in Hr; try discriminate; reflexivity.
    + split; discriminate.
  - intros x y E. specialize (Hr x y). rewrite E in Hr.
    destruct (getTile level x y) as [u|]; simpl in Hr; [|discriminate].
    destruct u; simpl in Hr; try discriminate. reflexivity.
  - intros Hs x y t E. specialize (Hr x y). rewrite E in Hr.
    destruct (getTile level x y) as [u|] eqn:Eu; simpl in Hr; [|discriminate].
    apply Hs in Eu.
    destruct u, t; simpl in Hr; try discriminate; try reflexivity;
      simpl in Eu; discriminate.
Qed.

(** A fold whose steps only move the state along [R], and such that the
    step for [c] establishes [P c], which moving along [R] keeps. *)
Lemma fold_left_settles {S C : Type} (f : S -> C -> S) (R : S -> S -> Prop)
    (P : C -> S -> Prop) :
  (forall s, R s s) ->
  (forall s1 s2 s3, R s1 s2 -> R s2 s3 -> R s1 s3) ->
  (forall s c, R s (f s c)) ->
  (forall s c, P c (f s c)) ->
  (forall c s s', R s s' -> P c s -> P c s') ->
  forall l s,
    R s (fold_left f l s) /\ forall c, In c l -> P c (fold_left f l s).
Proof.
  intros Hrefl Htrans Hstep Hest Hkeep.
  induction l as [|a l IH]; intro s; simpl.
  - split; [apply Hrefl|intros c []].
  - destruct (IH (f s a)) as [HR HP]. split.
    + eapply Htrans; [apply Hstep|exact HR].
    + intros c [<-|Hc]; [|now apply HP].
      eapply Hkeep; [exact HR|apply Hest].
Qed.

Definition solidBelow (level : Level) (x y : Z) : bool :=
  is_tile (getTile level x (y + 1)) BRICK
  || is_tile (getTile level x (y + 1)) SOLID.

(** No Rope at [(x, y)] lies directly on a Brick or Solid tile. *)
Definition ropeOk (level : Level) (x y : Z) : Prop :=
  getTile level x y = Some ROPE -> solidBelow level x y = false.

(** Every cell of [l'] is the repair of the cell of [l]. *)
Definition repairedGrid (l l' : Level) : Prop :=
  forall a b, repaired (getTile l a b) (getTile l' a b) = true.

Lemma repaired_rope (o o' : option TileChar) :
  repaired o o' = true -> o' = Some ROPE -> o = Some ROPE.
Proof.
  intros H ->. destruct o as [u|]; simpl in H; [|discriminate].
  destruct u; simpl in H; try discriminate. reflexivity.
Qed.

Lemma repaired_solid (o o' : option TileChar) :
  repaired o o' = true ->
  is_tile o' BRICK || is_tile o' SOLID = is_tile o BRICK || is_tile o SOLID.
Proof.
  destruct o as [u|], o' as [v|]; simpl; try discriminate; try reflexivity.
  destruct u, v; simpl; try discriminate; reflexivity.
Qed.

Lemma ropeOk_kept (l l' : Level) (x y : Z) :
  repairedGrid l l' -> ropeOk l x y -> ropeOk l' x y.
Proof.
  intros HR Hok Hrope. unfold solidBelow.
  rewrite (@repaired_solid _ _ (HR x (y + 1))). apply Hok.
  eapply repaired_rope; [apply HR|exact Hrope].
Qed.

Lemma repairCell_ropeOk (random : Rng) (height : Z) (st : Level * nat)
    (x y : Z) :
  ropeOk (fst (repairCell random height st x y)) x y.
Proof.
  intro Hrope.
  assert (Hbefore : getTile (fst st) x y = Some ROPE).
  { eapply repaired_rope; [apply repairCell_repaired|exact Hrope]. }
  revert Hrope. unfold repairCell. rewrite Hbefore. simpl.
  unfold solidBelow.
  destruct (is_tile (getTile (fst st) x (y + 1)) BRICK
            || is_tile (getTile (fst st) x (y + 1)) SOLID) eqn:Es.
  - simpl. rewrite (getTile_setCell_same _ _ _ _ Hbefore).
    destruct (Qltb (random (snd st)) lit_0_5); discriminate.
  - intros _. exact Es.
Qed.

(** X14. After [postProcessStructure], no Rope in a column of the first
    row lies directly on a Brick or a Solid tile. *)
Theorem postProcessStructure_ropes (random : Rng) (level : Level)
    (drawn : nat) (x y : Z) :
  0 <= x < widthOf level ->
  getTile (fst (postProcessStructure random level drawn)) x y = Some ROPE ->
  getTile (fst (postProcessStructure random level drawn)) x (y + 1)
  <> Some BRICK /\
  getTile (fst (postProcessStructure random level drawn)) x (y + 1)
  <> Some SOLID.
Proof.
  intros Hx Hrope.
  assert (Hy : 0 <= y < len level).
  { pose proof (postProcessStructure_repaired random level drawn x y) as Hr.
    apply (@repaired_rope _ _ Hr) in Hrope.
    apply getTile_some in Hrope. destruct Hrope as [_ [Hy [r [Er _]]]].
    assert ((Z.to_nat y < List.length level)%nat)
      by (apply nth_error_Some; congruence).
    unfold len. lia. }
  assert (Hok : ropeOk (fst (postProcessStructure random level drawn)) x y).
  { unfold postProcessStructure. rewrite cloneLevel_id.
    set (R := fun st st' : Level * nat => repairedGrid (fst st) (fst st')).
    assert (Rrefl : forall s, R s s) by (intros s a b; apply repaired_refl).
    assert (Rtrans : forall s1 s2 s3, R s1 s2 -> R s2 s3 -> R s1 s3).
    { intros s1 s2 s3 H1 H2 a b. eapply repaired_trans; [apply H1|apply H2]. }
    assert (Hrow : forall st b,
              R st (repairRow random (len level) (Z.to_nat (widthOf level)) st b)
              /\ forall a, In a (columns (Z.to_nat (widthOf level)) 0) ->
                   ropeOk (fst (repairRow random (len level)
                                  (Z.to_nat (widthOf level)) st b)) a b).
    { intros st b. unfold repairRow.
      apply (@fold_left_settles (Level * nat) Z
               (fun st' a => repairCell random (len level) st' a b) R
               (fun a st' => ropeOk (fst st') a b)); try assumption.
      - intros s c a0 b0. apply repairCell_repaired.
      - intros s c. apply repairCell_ropeOk.
      - intros c s s' HR. now apply ropeOk_kept. }
    destruct (@fold_left_settles (Level * nat) Z
                (repairRow random (len level) (Z.to_nat (widthOf level))) R
                (fun b st' =>
                   forall a, In a (columns (Z.to_nat (widthOf level)) 0) ->
                             ropeOk (fst st') a b)
                Rrefl Rtrans
                (fun s c => proj1 (Hrow s c))
                (fun s c => proj2 (Hrow s c))
                (fun c s s' HR H a Ha => @ropeOk_kept _ _ a c HR (H a Ha))
                (columns (Z.to_nat (len level)) 0) (level, drawn))
      as [_ Hall].
    apply Hall; apply columns_In_iff; lia. }
  specialize (Hok Hrope). unfold solidBelow in Hok.
  apply orb_false_iff in Hok. destruct Hok as [Hb Hs].
  split; intro E; rewrite E in *; discriminate.
Qed.

(** A rope over an open cell stays; one laid on the floor is replaced. *)
Definition ropeLevel : Level := [ [ROPE; EMPTY]; [EMPTY; ROPE]; [SOLID; SOLID] ].

Example ropeLevel_processed :
  postProcessStructure (fun _ => 0%Q) ropeLevel 0
  = ([ [ROPE; EMPTY]; [EMPTY; EMPTY]; [SOLID; SOLID] ], 1%nat).
Proof. reflexivity. Qed.

Lemma postProcessStructure_ropes_witness :
  getTile (fst (postProcessStructure (fun _ => 0%Q) ropeLevel 0)) 0 (0 + 1)
  <> Some BRICK /\
  getTile (fst (postProcessStructure (fun _ => 0%Q) ropeLevel 0)) 0 (0 + 1)
  <> Some SOLID.
Proof.
  apply (@postProcessStructure_ropes (fun _ => 0%Q) ropeLevel 0%nat 0 0).
  - vm_compute. split; [discriminate|reflexivity].
  - reflexivity.
Defined.

(* ------------------------------------------------------------------ *)
(** ** A trained generator produces terrain only *)

(** A table whose outcomes are terrain tiles. *)
Definition terrainTable (transitions : Transitions Q) : Prop :=
  forall k tileMap t p,
    trGet k transitions = Some tileMap -> In (t, p) tileMap ->
    normalizeTile t = t.

Lemma weighted_In (r : Q) (tileMap : TileMap Q) :
  forall cumulative t,
    weighted r cumulative tileMap = Some t -> exists p, In (t, p) tileMap.
Proof.
  induction tileMap as [|[u p] m IH]; intros c t H; cbn [weighted] in H;
    [discriminate|].
  destruct (Qle_bool r (roundDouble (c + p))).
  - inversion H; subst u. exists p. now left.
  - apply IH in H. destruct H as [q Hq]. exists q. now right.
Qed.

Lemma fallbackTile_terrain (r : Q) :
  normalizeTile (fallbackTile r) = fallbackTile r.
Proof.
  unfold fallbackTile.
  repeat match goal with
         | |- context [if ?c then _ else _] => destruct c
         end; reflexivity.
Qed.

Lemma sampleTile_terrain (transitions : Transitions Q)
    (context : MarkovContext) (r : Q) :
  terrainTable transitions ->
  normalizeTile (sampleTile transitions context r)
  = sampleTile transitions context r.
Proof.
  intro Ht. unfold sampleTile.
  destruct (trGet (getContextKey context) transitions) as [[|[first p] m]|] eqn:E;
    try apply fallbackTile_terrain.
  destruct (weighted r 0 ((first, p) :: m)) as [t|] eqn:Ew.
  - apply weighted_In in Ew. destruct Ew as [q Hq]. eapply Ht; [exact E|exact Hq].
  - eapply Ht; [exact E|now left].
Qed.

Lemma getTile_rect_bounds (w h : nat) (level : Level) (x y : Z) (t : TileChar) :
  rect w h level -> getTile level x y = Some t ->
  0 <= x < Z.of_nat w /\ 0 <= y < Z.of_nat h.
Proof.
  intros [Hh Hw] H. apply getTile_some in H.
  destruct H as [Hx [Hy [r [Er Et]]]].
  assert ((Z.to_nat y < List.length level)%nat)
    by (apply nth_error_Some; congruence).
  assert ((Z.to_nat x < List.length r)%nat)
    by (apply nth_error_Some; congruence).
  rewrite Forall_forall in Hw.
  rewrite (Hw r (nth_error_In _ _ Er)) in *. lia.
Qed.

Lemma generateStructure_terrain (transitions : Transitions Q)
    (width height : nat) (rng : Rng) (drawn : nat) (st : Level * nat) :
  terrainTable transitions -> (1 <= height)%nat ->
  generateStructure transitions width height rng drawn = Ok st ->
  rect width height (fst st) /\
  (forall x, 0 <= x < Z.of_nat width ->
             getTile (fst st) x (Z.of_nat height - 1) = Some SOLID) /\
  structureGrid (fst st).
Proof.
  intros Ht Hh E.
  destruct (generateStructure_runs transitions width rng drawn Hh)
    as [st' [E' [R [_ [F C]]]]].
  rewrite E in E'. inversion E'; subst st'. clear E'.
  split; [exact R|]. split; [exact F|].
  intros x y t Hxy.
  destruct (@getTile_rect_bounds _ _ _ _ _ _ R Hxy) as [Hx Hy].
  destruct (Z.eq_dec y (Z.of_nat height - 1)) as [->|Hne].
  - rewrite F in Hxy by exact Hx. now inversion Hxy.
  - specialize (C (Z.to_nat x) (Z.to_nat y)).
    rewrite !Z2Nat.id in C by lia.
    rewrite C in Hxy by lia. inversion Hxy.
    now apply sampleTile_terrain.
Qed.

Lemma In_tmGet {N : Type} (t : TileChar) (v : N) (m : TileMap N) :
  In (t, v) m -> exists v', tmGet t m = Some v'.
Proof.
  induction m as [|[u w] m IH]; intro H; [contradiction|]. simpl.
  destruct (tile_eqb t u) eqn:E; [now exists w|].
  destruct H as [H|H]; [|now apply IH].
  inversion H; subst. rewrite tile_eqb_refl in E. discriminate.
Qed.

Lemma indexed_In {A : Type} (a : A) :
  forall (l : list A) (s i : Z), In (i, a) (indexed s l) -> In a l.
Proof.
  induction l as [|b l IH]; intros s i H; simpl in H; [contradiction|].
  destruct H as [H|H]; [inversion H; now left|right; eapply IH; exact H].
Qed.

Lemma observations_terrain (levels : list Level) (k : string) (t : TileChar) :
  In (k, t) (observations levels) -> normalizeTile t = t.
Proof.
  unfold observations, cellsOf. intro H.
  apply in_flat_map in H. destruct H as [level [_ H]].
  apply in_flat_map in H. destruct H as [[y row] [Hrow H]].
  apply in_map_iff in H. destruct H as [[x u] [E Hu]].
  simpl in E. inversion E; subst t. clear E.
  apply indexed_In in Hrow. apply indexed_In in Hu.
  unfold normalizeLevel in Hrow. apply in_map_iff in Hrow.
  destruct Hrow as [row0 [<- _]]. apply in_map_iff in Hu.
  destruct Hu as [u0 [<- _]]. apply normalizeTile_idem.
Qed.

Lemma train_terrainTable (previous : Transitions Q) (levels : list Level) :
  terrainTable (train previous levels).
Proof.
  intros k tileMap t p Hk Hin. unfold train in Hk.
  rewrite trGet_map_normalize in Hk.
  pose proof (countLevels_represents levels k) as R.
  destruct (trGet k (countLevels levels)) as [tm|]; [|discriminate].
  simpl in Hk. inversion Hk; subst tileMap. clear Hk.
  destruct R as [_ [_ Hg]].
  unfold normalizeCounts in Hin. apply in_map_iff in Hin.
  destruct Hin as [[u c] [E Hu]]. simpl in E. inversion E; subst u. clear E.
  apply In_tmGet in Hu. destruct Hu as [c' Hc']. rewrite Hg in Hc'.
  destruct (occurrences k t (observations levels) =? 0) eqn:Eo; [discriminate|].
  unfold occurrences in Eo.
  destruct (filter _ (observations levels)) as [|[j u] rest] eqn:Ef;
    [discriminate|].
  assert (Hin : In (j, u) ((j, u) :: rest)) by now left.
  rewrite <- Ef in Hin. apply filter_In in Hin. destruct Hin as [Hobs Hb].
  simpl in Hb. apply andb_true_iff in Hb. destruct Hb as [Hj Hu].
  apply tile_eqb_eq in Hu. subst u.
  eapply observations_terrain; exact Hobs.
Qed.

(** X15. The table [train] builds has only terrain tiles (Empty, Brick,
    Solid, Ladder, Rope) as outcomes, whatever entities the corpus holds;
    and with such a table, or with no table at all, the grid that
    [generateStructure] returns for a height of at least 1 holds terrain
    tiles only. *)
Theorem train_generates_terrain (previous : Transitions Q)
    (levels : list Level) :
  terrainTable (train previous levels) /\
  terrainTable [] /\
  forall transitions width height rng drawn st,
    terrainTable transitions -> (1 <= height)%nat ->
    generateStructure transitions width height rng drawn = Ok st ->
    forall x y t, getTile (fst st) x y = Some t ->
                  In t [EMPTY; BRICK; SOLID; LADDER; ROPE].
Proof.
  split; [apply train_terrainTable|]. split; [intros k m t p H; discriminate|].
  intros transitions width height rng drawn st Ht Hh E x y t Hxy.
  destruct (@generateStructure_terrain _ _ _ _ _ _ Ht Hh E) as [_ [_ Hs]].
  apply Hs in Hxy. destruct t; simpl in *; try discriminate; tauto.
Qed.

(* ------------------------------------------------------------------ *)
(** ** [sampleTile] walks the cumulative distribution *)

(** The value of [cumulative] after the entries of [entries], started at
    [cumulative]: every step is the double addition [cumulative += prob]. *)
Definition runningSum (cumulative : Q) (entries : TileMap Q) : Q :=
  fold_left (fun sum entry => roundDouble (sum + snd entry)) entries cumulative.

Lemma runningSum_snoc (c : Q) (entries : TileMap Q) (t : TileChar) (p : Q) :
  runningSum c (entries ++ [(t, p)]) = roundDouble (runningSum c entries + p).
Proof. unfold runningSum. now rewrite fold_left_app. Qed.

Lemma runningSum_cons (c : Q) (entries : TileMap Q) (t : TileChar) (p : Q) :
  runningSum c ((t, p) :: entries) = runningSum (roundDouble (c + p)) entries.
Proof. reflexivity. Qed.

(** Every entry up to and including the last one of [entries] left the
    running sum below [r]. *)
Definition allBelow (r cumulative : Q) (entries : TileMap Q) : Prop :=
  forall b t q a,
    entries = b ++ (t, q) :: a -> (runningSum cumulative (b ++ [(t, q)]) < r)%Q.

Lemma allBelow_cons (r c : Q) (u : TileChar) (q : Q) (entries : TileMap Q) :
  (roundDouble (c + q) < r)%Q ->
  allBelow r (roundDouble (c + q)) entries ->
  allBelow r c ((u, q) :: entries).
Proof.
  intros Hlt H b t q' a E. destruct b as [|[u' q''] b]; simpl in E.
  - inversion E; subst. exact Hlt.
  - inversion E; subst. simpl app. rewrite runningSum_cons.
    eapply H. reflexivity.
Qed.

Lemma weighted_walk (r : Q) :
  forall (tileMap : TileMap Q) (cumulative : Q),
    (exists before t p after,
       tileMap = before ++ (t, p) :: after /\
       weighted r cumulative tileMap = Some t /\
       (r <= runningSum cumulative (before ++ [(t, p)]))%Q /\
       allBelow r cumulative before)
    \/ (weighted r cumulative tileMap = None /\ allBelow r cumulative tileMap).
Proof.
  induction tileMap as [|[u q] m IH]; intro c.
  - right. split; [reflexivity|]. intros [|x b] t q a E; discriminate E.
  - cbn [weighted]. destruct (Qle_bool r (roundDouble (c + q))) eqn:E.
    + left. exists [], u, q, m. split; [reflexivity|]. split; [reflexivity|].
      apply Qle_bool_iff in E. split; [exact E|].
      intros [|x b] t q' a E'; discriminate E'.
    + assert (Hlt : (roundDouble (c + q) < r)%Q).
      { apply Qnot_le_lt. intro H. apply Qle_bool_iff in H. congruence. }
      destruct (IH (roundDouble (c + q)))
        as [[before [t [p [after [Em [Ew [H1 H2]]]]]]]|[Ew H2]].
      * left. exists ((u, q) :: before), t, p, after.
        split; [now rewrite Em|]. split; [exact Ew|].
        split; [exact H1|]. now apply allBelow_cons.
      * right. split; [exact Ew|]. now apply allBelow_cons.
Qed.

(** X16. When the table has a non-empty row for the context, [sampleTile]
    walks the row with the running sum that the code keeps, each step the
    double addition [cumulative += prob] ([runningSum], which rounds every
    addition to the nearest double).  It returns the tile of the first
    entry at which that running sum reaches the draw [r]: every entry
    before it left the running sum below [r].  When no entry's running sum
    reaches [r] (which rounding allows even for a row of probabilities
    that add up to 1), it returns the tile of the row's first entry. *)
Theorem sampleTile_running_sum (transitions : Transitions Q)
    (context : MarkovContext) (r : Q) (tileMap : TileMap Q) :
  trGet (getContextKey context) transitions = Some tileMap ->
  tileMap <> [] ->
  (exists before p after,
     tileMap = before ++ (sampleTile transitions context r, p) :: after /\
     (r <= runningSum 0 (before ++ [(sampleTile transitions context r, p)]))%Q /\
     allBelow r 0 before)
  \/ (allBelow r 0 tileMap /\
      exists p rest, tileMap = (sampleTile transitions context r, p) :: rest).
Proof.
  intros Hk Hne. unfold sampleTile. rewrite Hk.
  destruct tileMap as [|[first q] m]; [congruence|].
  destruct (weighted_walk r ((first, q) :: m) 0)
    as [[before [t [p [after [Em [Ew [H1 H2]]]]]]]|[Ew H2]]; rewrite Ew.
  - left. exists before, p, after. repeat split; assumption.
  - right. split; [exact H2|]. now exists q, m.
Qed.

(** A row of two equally likely tiles. *)
Definition evenTable : Transitions Q :=
  [ ("X|X|X"%string, [(BRICK, 1 # 2); (EMPTY, 1 # 2)]) ].

Example sampleTile_even :
  sampleTile evenTable (mkContext None None None) (1 # 4) = BRICK /\
  sampleTile evenTable (mkContext None None None) (3 # 4) = EMPTY.
Proof. split; reflexivity. Qed.

(** The row that the code stores after counting 4, 1, 1, 1: the doubles
    nearest to 4/7 and 1/7.  Their double sum stops at [1 - 2^-52], below the
    largest draw [1 - 2^-53]; for that draw no entry is reached and the
    first tile is returned. *)
Definition seventhsRow : TileMap Q :=
  [ (EMPTY, roundDouble (4 # 7)); (BRICK, roundDouble (1 # 7));
    (SOLID, roundDouble (1 # 7)); (LADDER, roundDouble (1 # 7)) ].

Definition seventhsTable : Transitions Q := [ ("X|X|X"%string, seventhsRow) ].

Example seventhsRow_stored :
  seventhsRow
  = map (fun entry => (fst entry, roundDouble (snd entry)))
        (normalizeCounts [(EMPTY, 4); (BRICK, 1); (SOLID, 1); (LADDER, 1)]).
Proof. vm_compute. reflexivity. Qed.

Example seventhsRow_sum :
  Qred (runningSum 0 seventhsRow) = 4503599627370495 # 4503599627370496.
Proof. vm_compute. reflexivity. Qed.

Example sampleTile_sevenths :
  sampleTile seventhsTable (mkContext None None None) maxDraw = EMPTY /\
  sampleTile seventhsTable (mkContext None None None) (999 # 1000) = LADDER.
Proof. split; vm_compute; reflexivity. Qed.

Lemma sampleTile_running_sum_witness :
  (exists before p after,
     seventhsRow
     = before
       ++ (sampleTile seventhsTable (mkContext None None None) maxDraw, p)
          :: after /\
     (maxDraw
      <= runningSum 0
           (before
            ++ [(sampleTile seventhsTable (mkContext None None None) maxDraw,
                 p)]))%Q /\
     allBelow maxDraw 0 before)
  \/ (allBelow maxDraw 0 seventhsRow /\
      exists p rest,
        seventhsRow
        = (sampleTile seventhsTable (mkContext None None None) maxDraw, p)
          :: rest).
Proof.
  apply (@sampleTile_running_sum seventhsTable (mkContext None None None)
           maxDraw seventhsRow).
  - reflexivity.
  - discriminate.
Defined.

(* ------------------------------------------------------------------ *)
(** ** What [generateRaw] returns *)

Lemma placeOnEmpty_rect (tile : TileChar) (w h : nat) (level : Level)
    (pos : Position) :
  rect w h level -> rect w h (placeOnEmpty tile level pos).
Proof.
  intro R. unfold placeOnEmpty.
  destruct (is_tile (getTile level (px pos) (py pos)) EMPTY); [|exact R].
  now apply setCell_rect.
Qed.

Lemma placeAll_rect (tile : TileChar) (w h : nat) (ps : list Position) :
  forall level, rect w h level -> rect w h (fold_left (placeOnEmpty tile) ps level).
Proof.
  induction ps as [|p ps IH]; intros level R; simpl; [exact R|].
  apply IH. now apply placeOnEmpty_rect.
Qed.

(** A run of [placeEntities] that found no spawn returns the structure. *)
Lemma placeEntities_no_spawn
    (shuffle : Rng -> nat -> list Position -> list Position * nat)
    (structure : Level) (goldCount enemyCount : Z) (rng : Rng) (drawn : nat)
    (result : Placement) :
  placeEntities shuffle structure goldCount enemyCount rng drawn = Ok result ->
  chosenSpawn result = None ->
  placed result = structure.
Proof.
  intros Hrun Hnone. unfold placeEntities in Hrun.
  rewrite cloneLevel_id in Hrun.
  destruct (if len (validPositions structure) =? 0
            then fallbackSpawn structure (len structure)
                   (columns (Z.to_nat (Z.min 10 (widthOf structure) - 1)) 1)
            else Ok (validPositions structure)) as [vsp|e]; cbn [bind] in Hrun;
    [|discriminate].
  destruct (len vsp >? 0).
  2:{ inversion Hrun; subst result. reflexivity. }
  destruct (pickSpawn (sortByYDesc vsp) (rng drawn)) as [sp|]; [|discriminate].
  unfold assignCell in Hrun.
  destruct (rowAt structure (py sp)); cbn [bind] in Hrun; [|discriminate].
  destruct (shuffle rng (S drawn) _) as [shuffledGold drawn2].
  destruct (shuffle rng drawn2 _) as [shuffledEnemies drawn3].
  inversion Hrun; subst result. simpl in Hnone. discriminate.
Qed.

Lemma structureGrid_no_entity (level : Level) (tile : TileChar) :
  structureGrid level -> normalizeTile tile <> tile ->
  findTiles level tile = [].
Proof.
  intros Hs Ht. destruct (findTiles level tile) as [|p l] eqn:E; [reflexivity|].
  assert (Hp : In p (findTiles level tile)) by (rewrite E; now left).
  apply findTiles_In in Hp. apply Hs in Hp. contradiction.
Qed.

Lemma postProcessStructure_terrain (random : Rng) (level : Level) (drawn : nat) :
  structureGrid level ->
  structureGrid (fst (postProcessStructure random level drawn)).
Proof.
  intros Hs x y t E.
  pose proof (postProcessStructure_repaired random level drawn x y) as Hr.
  rewrite E in Hr.
  destruct (getTile level x y) as [u|] eqn:Eu; simpl in Hr; [|discriminate].
  apply Hs in Eu.
  destruct u, t; simpl in Hr; try discriminate; try reflexivity;
    simpl in Eu; discriminate.
Qed.

(** X17. With a table of terrain outcomes (such as [train] builds), a
    shuffle that permutes, and at least one row, every level [generateRaw]
    returns has the configured width and height and a Solid bottom row;
    it holds at most one Spawn, at most [goldCount] Gold and at most
    [enemyCount] Enemy tiles; and [validateLevel] of it reports no
    unreachable gold. *)
Theorem generateRaw_level (transitions : Transitions Q)
    (shuffle : Rng -> nat -> list Position -> list Position * nat)
    (config : GeneratorConfig.t) (rng random : Rng) (w w' : Draws)
    (level : Level) :
  let width := orDefault (GeneratorConfig.width config) (Z.to_nat LEVEL_WIDTH) in
  let height :=
    orDefault (GeneratorConfig.height config) (Z.to_nat LEVEL_HEIGHT) in
  let goldCount := orDefault (GeneratorConfig.goldCount config) 5 in
  let enemyCount := orDefault (GeneratorConfig.enemyCount config) 2 in
  (forall r n l, Permutation (fst (shuffle r n l)) l) ->
  terrainTable transitions ->
  (1 <= height)%nat ->
  generateRaw transitions shuffle config rng random w = Ok (level, w') ->
  rect width height level /\
  (forall x, 0 <= x < Z.of_nat width ->
             getTile level x (Z.of_nat height - 1) = Some SOLID) /\
  len (findTiles level SPAWN) <= 1 /\
  len (findTiles level GOLD) <= Z.max 0 goldCount /\
  len (findTiles level ENEMY) <= Z.max 0 enemyCount /\
  unreachableGold (validateLevel level) = [].
Proof.
  intros width height goldCount enemyCount Hperm Htable Hh Hrun.
  unfold generateRaw in Hrun.
  fold width height goldCount enemyCount in Hrun.
  destruct (generateStructure transitions width height rng (rngDrawn w))
    as [st|e] eqn:Eg; cbn [bind] in Hrun; [|discriminate].
  destruct (@generateStructure_terrain _ _ _ _ _ _ Htable Hh Eg)
    as [R0 [F0 S0]].
  set (processed := fst (postProcessStructure random (fst st) (randomDrawn w)))
    in *.
  assert (R1 : rect width height processed)
    by (now apply postProcessStructure_rect).
  assert (S1 : structureGrid processed)
    by (now apply postProcessStructure_terrain).
  assert (F1 : forall x, 0 <= x < Z.of_nat width ->
                 getTile processed x (Z.of_nat height - 1) = Some SOLID).
  { intros x Hx.
    pose proof (postProcessStructure_repaired random (fst st) (randomDrawn w)
                  x (Z.of_nat height - 1)) as Hr.
    rewrite (F0 x Hx) in Hr. fold processed in Hr.
    destruct (getTile processed x (Z.of_nat height - 1)) as [v|];
      simpl in Hr; [|discriminate].
    destruct v; simpl in Hr; try discriminate. reflexivity. }
  destruct (placeEntities shuffle processed goldCount enemyCount rng (snd st))
    as [p|e] eqn:Ep; cbn [bind] in Hrun; [|discriminate].
  inversion Hrun; subst level w'. clear Hrun.
  destruct (chosenSpawn p) as [spawn|] eqn:Es.
  - destruct (@placeEntities_places _ _ _ _ _ _ _ _ Hperm S1 Ep Es)
      as [Hsp [Hg [He [_ Hu]]]].
    destruct (@placeEntities_shape _ _ _ _ _ _ _ _ Hperm Ep Es)
      as [golds [enemies [Hplaced [[t0 [Hcell Ht0]] _]]]].
    split; [|split; [|split; [|split; [|split]]]]; try assumption.
    + rewrite Hplaced. apply placeAll_rect. apply placeAll_rect.
      now apply setCell_rect.
    + intros x Hx. rewrite Hplaced.
      apply placeAll_keeps; [discriminate|].
      apply placeAll_keeps; [discriminate|].
      rewrite getTile_setCell_other; [now apply F1|].
      destruct (Z.eq_dec x (px spawn)) as [->|Hne]; [|now left].
      right. intro Hy. rewrite <- Hy, (F1 _ Hx) in Hcell.
      inversion Hcell; subst t0. destruct Ht0 as [H|[H|H]]; discriminate.
    + rewrite Hsp. simpl. unfold len. simpl. lia.
  - rewrite (@placeEntities_no_spawn _ _ _ _ _ _ _ Ep Es).
    rewrite !structureGrid_no_entity by (assumption || discriminate).
    split; [exact R1|]. split; [exact F1|].
    split; [unfold len; simpl; lia|]. split; [unfold len; simpl; lia|].
    split; [unfold len; simpl; lia|].
    unfold validateLevel, getSpawnPosition, getGoldPositions.
    rewrite !structureGrid_no_entity by (assumption || discriminate).
    reflexivity.
Qed.

Lemma generateRaw_level_witness :
  rect 3 3 [ [EMPTY; EMPTY; EMPTY]; [SPAWN; GOLD; GOLD]; [SOLID; SOLID; SOLID] ]
  /\ unreachableGold
       (validateLevel
          [ [EMPTY; EMPTY; EMPTY]; [SPAWN; GOLD; GOLD]; [SOLID; SOLID; SOLID] ])
     = [].
Proof.
  assert (Hperm : forall (r : Rng) (n : nat) (l : list Position),
             Permutation (fst (keepOrder r n l)) l)
    by (intros r n l; apply Permutation_refl).
  assert (Htable : terrainTable []) by (intros k m t p H; discriminate).
  assert (Hrun : generateRaw [] keepOrder smallConfig (fun _ => 0%Q)
                   (fun _ => 0%Q) (mkDraws 0 0)
                 = Ok ([ [EMPTY; EMPTY; EMPTY]; [SPAWN; GOLD; GOLD];
                         [SOLID; SOLID; SOLID] ], mkDraws 7 0))
    by (vm_compute; reflexivity).
  destruct (@generateRaw_level [] keepOrder smallConfig (fun _ => 0%Q)
              (fun _ => 0%Q) (mkDraws 0 0) (mkDraws 7 0) _
              Hperm Htable (le_S _ _ (le_S _ _ (le_n 1))) Hrun)
    as [R [_ [_ [_ [_ U]]]]].
  split; [exact R|exact U].
Defined.

(* ------------------------------------------------------------------ *)
(** ** How many attempts [generate] makes *)

Section Attempts.

Variable rawStep : Draws -> outcome (Level * Draws).
Variable requireFullSolve : bool.

Lemma generateLoop_attempts :
  forall (n : nat) (attempts : Z) (best : Best) (w : Draws)
         (r : GenerationResult.t),
    (bestScore best = None \/ bestLevel best <> None) ->
    generateLoop rawStep requireFullSolve n attempts best w = Ok r ->
    attempts <= GenerationResult.attempts r <= attempts + Z.of_nat n /\
    (GenerationResult.level r = None -> n = 0%nat /\ bestLevel best = None).
Proof.
  induction n as [|n IH]; intros attempts best w r Hinv H.
  - simpl in H. inversion H; subst r. simpl. split; [lia|]. now split.
  - cbn [generateLoop] in H.
    destruct (rawStep w) as [[level w1]|e]; cbn [bind fst snd] in H;
      [|discriminate].
    set (validation := validateLevel level) in *.
    set (fullySolvable :=
           if valid validation then isFullySolvable level else false) in *.
    set (score := if fullySolvable then baseScore validation + 50
                  else baseScore validation) in *.
    set (best' := if match bestScore best with
                     | None => true | Some b => score >? b end
                  then mkBest (Some level) (Some validation) (Some score)
                         fullySolvable
                  else best) in *.
    assert (Hbest' : bestLevel best' <> None).
    { unfold best'. destruct Hinv as [Hnone|Hsome].
      - rewrite Hnone. discriminate.
      - destruct (match bestScore best with
                  | None => true | Some b => score >? b end);
          [discriminate|exact Hsome]. }
    assert (Hrec : generateLoop rawStep requireFullSolve n (attempts + 1)
                     best' w1 = Ok r ->
              attempts <= GenerationResult.attempts r
                <= attempts + Z.of_nat (S n) /\
              (GenerationResult.level r = None ->
               S n = 0%nat /\ bestLevel best = None)).
    { intro Hr. apply IH in Hr; [|now right]. destruct Hr as [Ha Hb].
      split; [lia|]. intro Hn. apply Hb in Hn. destruct Hn as [_ Hn].
      contradiction. }
    destruct requireFullSolve.
    + destruct (valid validation && fullySolvable); [|now apply Hrec].
      inversion H; subst r. simpl. split; [lia|discriminate].
    + destruct (valid validation); [|now apply Hrec].
      inversion H; subst r. simpl. split; [lia|discriminate].
Qed.

End Attempts.

(** X18. When [generate] returns, the [attempts] it reports lie between 0
    and [maxAttempts]; its [level] is [null] exactly when [maxAttempts] is
    zero or negative, and then no attempt is made: the result is
    [{level: null, validation: null, attempts: 0, fullySolvable: false}]. *)
Theorem generate_attempts (transitions : Transitions Q)
    (shuffle : Rng -> nat -> list Position -> list Position * nat)
    (config : GeneratorConfig.t) (maxAttempts : Z) (rng random : Rng)
    (requireFullSolve : bool) (w : Draws) (r : GenerationResult.t) :
  generate transitions shuffle config maxAttempts rng random
    requireFullSolve w = Ok r ->
  0 <= GenerationResult.attempts r <= Z.max 0 maxAttempts /\
  (GenerationResult.level r = None <-> maxAttempts <= 0) /\
  (maxAttempts <= 0 -> r = GenerationResult.mk None None 0 false).
Proof.
  intro H. unfold generate in H.
  assert (Hzero : maxAttempts <= 0 -> r = GenerationResult.mk None None 0 false).
  { intro Hm. replace (Z.to_nat maxAttempts) with 0%nat in H by lia.
    simpl in H. now inversion H. }
  apply generateLoop_attempts in H; [|now left].
  destruct H as [Ha Hn]. split; [lia|]. split; [|exact Hzero].
  split.
  - intro E. apply Hn in E. lia.
  - intro Hm. rewrite (Hzero Hm). reflexivity.
Qed.

Lemma generate_attempts_witness :
  exists r,
    generate [] keepOrder smallConfig 2 (fun _ => 0%Q) (fun _ => 0%Q) false
      (mkDraws 0 0) = Ok r /\
    0 <= GenerationResult.attempts r <= Z.max 0 2 /\
    GenerationResult.level r <> None.
Proof.
  eexists. split; [exact generate_small|].
  destruct (@generate_attempts [] keepOrder smallConfig 2 (fun _ => 0%Q)
              (fun _ => 0%Q) false (mkDraws 0 0) _ generate_small)
    as [Ha [Hl _]].
  split; [exact Ha|]. intro E. apply Hl in E. lia.
Defined.

(* ------------------------------------------------------------------ *)
(** ** The offline trainer and the runtime trainer agree *)

(** [MarkovTrainer.train] of the training script: the cells are read by
    index, and the context by index tests instead of [getTile]. *)
Module Script.

(** [normalized[y][x]], where row [y] exists. *)
Definition readAt (normalized : Level) (x y : Z) : option TileChar :=
  match rowAt normalized y with Some r => cellAt r x | None => None end.

Definition contextAt (normalized : Level) (x y : Z) : MarkovContext :=
  mkContext
    (if y >? 0 then readAt normalized x (y - 1) else None)
    (if x >? 0 then readAt normalized (x - 1) y else None)
    (if (y >? 0) && (x >? 0) then readAt normalized (x - 1) (y - 1) else None).

(** The two [for] loops over one normalised level. *)
Definition countLevel (normalized : Level) (transitions : Transitions Z)
  : Transitions Z :=
  fold_left
    (fun tr y =>
       match rowAt normalized y with
       | None => tr
       | Some row =>
           fold_left
             (fun tr' x =>
                match cellAt row x with
                | None => tr'
                | Some tile =>
                    observe (getContextKey (contextAt normalized x y)) tile tr'
                end)
             (columns (Z.to_nat (len row)) 0) tr
       end)
    (columns (Z.to_nat (len normalized)) 0) transitions.

Definition train (levels : list Level) : Transitions Q :=
  map (fun kv => (fst kv, normalizeCounts (snd kv)))
      (fold_left (fun tr level => countLevel (normalizeLevel level) tr)
                 levels []).

End Script.

Lemma getTile_readAt (level : Level) (x y : Z) :
  getTile level x y = Script.readAt level x y.
Proof.
  unfold getTile, Script.readAt.
  destruct ((y <? 0) || (y >=? len level)) eqn:Ey.
  - unfold rowAt. destruct (y <? 0) eqn:E0; [reflexivity|].
    simpl in Ey. rewrite Z.geb_leb in Ey. apply Z.leb_le in Ey.
    apply Z.ltb_ge in E0.
    assert (E : nth_error level (Z.to_nat y) = None)
      by (apply nth_error_None; unfold len in Ey; lia).
    now rewrite E.
  - destruct (rowAt level y) as [r|]; [|reflexivity].
    destruct ((x <? 0) || (x >=? len r)) eqn:Ex; [|reflexivity].
    unfold cellAt. destruct (x <? 0) eqn:E0; [reflexivity|].
    simpl in Ex. rewrite Z.geb_leb in Ex. apply Z.leb_le in Ex.
    apply Z.ltb_ge in E0. symmetry. apply nth_error_None.
    unfold len in Ex. lia.
Qed.

Lemma contextAt_getContext (level : Level) (x y : Z) :
  0 <= x -> 0 <= y ->
  Script.contextAt level x y = getContext level x y.
Proof.
  intros Hx Hy. unfold Script.contextAt, getContext.
  rewrite !getTile_readAt.
  assert (Hneg : forall a b, b < 0 -> Script.readAt level a b = None).
  { intros a b Hb. unfold Script.readAt, rowAt.
    assert (E : (b <? 0) = true) by (apply Z.ltb_lt; lia). now rewrite E. }
  assert (Hnegx : forall a b, a < 0 -> Script.readAt level a b = None).
  { intros a b Ha. unfold Script.readAt.
    destruct (rowAt level b); [|reflexivity]. unfold cellAt.
    assert (E : (a <? 0) = true) by (apply Z.ltb_lt; lia). now rewrite E. }
  f_equal.
  - destruct (y >? 0) eqn:E; [reflexivity|].
    rewrite Z.gtb_ltb in E. apply Z.ltb_ge in E.
    symmetry. apply Hneg. lia.
  - destruct (x >? 0) eqn:E; [reflexivity|].
    rewrite Z.gtb_ltb in E. apply Z.ltb_ge in E.
    symmetry. apply Hnegx. lia.
  - destruct (y >? 0) eqn:E; simpl.
    + destruct (x >? 0) eqn:E'; [reflexivity|].
      rewrite Z.gtb_ltb in E'. apply Z.ltb_ge in E'.
      symmetry. apply Hnegx. lia.
    + rewrite Z.gtb_ltb in E. apply Z.ltb_ge in E.
      symmetry. apply Hneg. lia.
Qed.

(** A loop over the indices of a list, reading by index, is the loop over
    the list with its indices. *)
Lemma fold_left_by_index {A B : Type} (f : A -> Z -> B -> A) (l : list B) :
  forall (a : A),
    fold_left
      (fun a' i =>
         match (if i <? 0 then None else nth_error l (Z.to_nat i)) with
         | None => a'
         | Some b => f a' i b
         end)
      (columns (List.length l) 0) a
    = fold_left (fun a' ib => f a' (fst ib) (snd ib)) (indexed 0 l) a.
Proof.
  assert (G : forall (suffix prefix : list B) (a : A),
             l = prefix ++ suffix ->
             fold_left
               (fun a' i =>
                  match (if i <? 0 then None else nth_error l (Z.to_nat i)) with
                  | None => a'
                  | Some b => f a' i b
                  end)
               (columns (List.length suffix) (len prefix)) a
             = fold_left (fun a' ib => f a' (fst ib) (snd ib))
                 (indexed (len prefix) suffix) a).
  { induction suffix as [|b suffix IH]; intros prefix a Hl; simpl;
      [reflexivity|].
    assert (E0 : (len prefix <? 0) = false)
      by (apply Z.ltb_ge; unfold len; lia).
    rewrite E0.
    assert (En : nth_error l (Z.to_nat (len prefix)) = Some b).
    { rewrite Hl. unfold len. rewrite Nat2Z.id.
      rewrite nth_error_app2 by lia. now rewrite Nat.sub_diag. }
    rewrite En.
    replace (len prefix + 1) with (len (prefix ++ [b]))
      by (unfold len; rewrite length_app; simpl; lia).
    apply IH. rewrite Hl. now rewrite <- app_assoc. }
  intro a. apply (G l [] a). reflexivity.
Qed.

Lemma indexed_bounds {A : Type} (a : A) :
  forall (l : list A) (s i : Z), In (i, a) (indexed s l) -> s <= i.
Proof.
  induction l as [|b l IH]; intros s i H; simpl in H; [contradiction|].
  destruct H as [H|H]; [inversion H; lia|]. apply IH in H. lia.
Qed.

Lemma fold_left_ext_In {A B : Type} (f g : A -> B -> A) (l : list B) :
  (forall a b, In b l -> f a b = g a b) ->
  forall a, fold_left f l a = fold_left g l a.
Proof.
  induction l as [|b l IH]; intros H a; simpl; [reflexivity|].
  rewrite H by now left. apply IH. intros a' b' Hb. apply H. now right.
Qed.

Lemma script_countLevel (normalized : Level) (tr : Transitions Z) :
  Script.countLevel normalized tr = countLevel normalized tr.
Proof.
  unfold Script.countLevel, countLevel, rowAt, len.
  rewrite Nat2Z.id.
  rewrite (@fold_left_by_index (Transitions Z) (list TileChar)
             (fun tr y row =>
                fold_left
                  (fun tr' x =>
                     match cellAt row x with
                     | None => tr'
                     | Some tile =>
                         observe (getContextKey
                                    (Script.contextAt normalized x y)) tile tr'
                     end)
                  (columns (Z.to_nat (Z.of_nat (List.length row))) 0) tr)
             normalized tr).
  apply fold_left_ext_In. intros a [y row] Hrow. simpl.
  apply indexed_bounds in Hrow.
  unfold cellAt. rewrite Nat2Z.id.
  rewrite (@fold_left_by_index (Transitions Z) TileChar
             (fun tr' x tile =>
                observe (getContextKey (Script.contextAt normalized x y))
                        tile tr')
             row a).
  apply fold_left_ext_In. intros a' [x tile] Htile. simpl.
  apply indexed_bounds in Htile.
  now rewrite contextAt_getContext.
Qed.

(** X19. The offline script's [MarkovTrainer.train], which reads the
    neighbours by index with [y > 0] and [x > 0] tests, builds the same
    table as the runtime [MarkovLevelGenerator.train], which reads them
    with [getTile]: on every corpus, ragged grids included. *)
Theorem script_train_agrees (previous : Transitions Q) (levels : list Level) :
  Script.train levels = train previous levels.
Proof.
  unfold Script.train, train, countLevels. f_equal.
  apply fold_left_ext_eq. intros tr level. apply script_countLevel.
Qed.

(* ------------------------------------------------------------------ *)
(** ** [parseLevel] and [levelToString] *)

(** Text is a list of code units below 256, one [ascii] each; a grid read
    from text holds whatever characters the text holds ([as TileChar[]]
    checks nothing). *)
Definition Text : Type := list ascii.

Definition newline : ascii := "010"%char.

(** The white space and line terminators that [trim] removes, among the
    code units below 256: tab, line feed, vertical tab, form feed, carriage
    return, space and no-break space. *)
Definition isSpace (c : ascii) : bool :=
  let n := nat_of_ascii c in
  ((9 <=? n)%nat && (n <=? 13)%nat) || (n =? 32)%nat || (n =? 160)%nat.

Fixpoint trimStart (s : Text) : Text :=
  match s with
  | [] => []
  | c :: s' => if isSpace c then trimStart s' else s
  end.

Fixpoint trimEnd (s : Text) : Text :=
  match s with
  | [] => []
  | c :: s' =>
      match trimEnd s' with
      | [] => if isSpace c then [] else [c]
      | t => c :: t
      end
  end.

Definition trim (s : Text) : Text := trimEnd (trimStart s).

(** [s.split('\n')] *)
Fixpoint splitLines (s : Text) : list Text :=
  match s with
  | [] => [[]]
  | c :: s' =>
      if Ascii.eqb c newline then [] :: splitLines s'
      else match splitLines s' with
           | [] => [[c]]
           | line :: rest => (c :: line) :: rest
           end
  end.

(** [rows.join('\n')] *)
Fixpoint joinLines (rows : list Text) : Text :=
  match rows with
  | [] => []
  | [row] => row
  | row :: rest => row ++ newline :: joinLines rest
  end.

(** [parseLevel]: [levelString.trim().split('\n').map(line => [...line])]. *)
Definition parseLevel (levelString : string) : list Text :=
  splitLines (trim (list_ascii_of_string levelString)).

(** The characters of a grid of tiles. *)
Definition charsOf (level : Level) : list Text := map (map tile_char) level.

(** [levelToString]: [level.map(row => row.join('')).join('\n')]. *)
Definition gridToString (rows : list Text) : string :=
  string_of_list_ascii (joinLines rows).

Definition levelToString (level : Level) : string := gridToString (charsOf level).

Example parse_two_rows :
  parseLevel " .M
BB
"%string = [ ["."; "M"]; ["B"; "B"] ]%char.
Proof. reflexivity. Qed.

Lemma splitLines_not_nil (s : Text) : splitLines s <> [].
Proof.
  destruct s as [|c s]; simpl; [discriminate|].
  destruct (Ascii.eqb c newline); [discriminate|].
  destruct (splitLines s); discriminate.
Qed.

Lemma splitLines_line (row : Text) :
  ~ In newline row -> splitLines row = [row].
Proof.
  induction row as [|c row IH]; intro H; simpl; [reflexivity|].
  destruct (Ascii.eqb c newline) eqn:E.
  - apply Ascii.eqb_eq in E. subst c. exfalso. apply H. now left.
  - rewrite IH; [reflexivity|]. intro Hin. apply H. now right.
Qed.

Lemma splitLines_app (row s : Text) :
  ~ In newline row ->
  splitLines (row ++ newline :: s) = row :: splitLines s.
Proof.
  induction row as [|c row IH]; intro H; simpl.
  - reflexivity.
  - destruct (Ascii.eqb c newline) eqn:E.
    + apply Ascii.eqb_eq in E. subst c. exfalso. apply H. now left.
    + rewrite IH; [reflexivity|]. intro Hin. apply H. now right.
Qed.

Lemma splitLines_joinLines (rows : list Text) :
  rows <> [] -> (forall row, In row rows -> ~ In newline row) ->
  splitLines (joinLines rows) = rows.
Proof.
  induction rows as [|row rest IH]; intros Hne Hrows; [congruence|].
  destruct rest as [|row2 rest].
  - simpl. apply splitLines_line. apply Hrows. now left.
  - change (joinLines (row :: row2 :: rest))
      with (row ++ newline :: joinLines (row2 :: rest)).
    rewrite splitLines_app by (apply Hrows; now left).
    rewrite IH; [reflexivity|discriminate|].
    intros r Hr. apply Hrows. now right.
Qed.

Lemma joinLines_splitLines (s : Text) : joinLines (splitLines s) = s.
Proof.
  induction s as [|c s IH]; simpl; [reflexivity|].
  destruct (Ascii.eqb c newline) eqn:E.
  - apply Ascii.eqb_eq in E. subst c.
    pose proof (splitLines_not_nil s) as Hne.
    destruct (splitLines s) as [|l ls] eqn:El; [congruence|].
    simpl. simpl in IH. now rewrite IH.
  - pose proof (splitLines_not_nil s) as Hne.
    destruct (splitLines s) as [|l ls] eqn:El; [congruence|].
    destruct ls as [|l2 ls]; simpl in *; now rewrite <- IH.
Qed.

Lemma trimEnd_keeps (s : Text) (c : ascii) :
  isSpace c = false -> trimEnd (s ++ [c]) = s ++ [c].
Proof.
  intro Hc. induction s as [|a s IH]; simpl.
  - now rewrite Hc.
  - rewrite IH. destruct (s ++ [c]) eqn:E; [|reflexivity].
    destruct s; discriminate.
Qed.

Lemma tile_char_not_space (t : TileChar) :
  isSpace (tile_char t) = false /\ tile_char t <> newline.
Proof. destruct t; split; (reflexivity || discriminate). Qed.

Lemma joinLines_last (rows : list Text) :
  rows <> [] -> exists before, joinLines rows = before ++ last rows [].
Proof.
  induction rows as [|row rest IH]; intro Hne; [congruence|].
  destruct rest as [|row2 rest].
  - exists []. reflexivity.
  - destruct IH as [before Hb]; [discriminate|].
    exists (row ++ newline :: before).
    change (joinLines (row :: row2 :: rest))
      with (row ++ newline :: joinLines (row2 :: rest)).
    rewrite Hb. change (last (row :: row2 :: rest) [])
      with (last (row2 :: rest) []).
    now rewrite <- app_assoc.
Qed.

Lemma charsOf_last (level : Level) :
  last (charsOf level) [] = map tile_char (last level []).
Proof.
  induction level as [|r rest IH]; [reflexivity|].
  destruct rest as [|r2 rest]; [reflexivity|exact IH].
Qed.

(** X20. Writing a grid of tiles with [levelToString] and reading it back
    with [parseLevel] gives the characters of the grid, provided the grid
    is a single row or has at least one row with a non-empty first row and
    a non-empty last row.  (Otherwise [trim] eats the line breaks at the
    ends, or the empty text is read as one empty row.)  In the other
    direction, [levelToString(parseLevel(text))] is [text.trim()]. *)
Theorem parseLevel_levelToString (level : Level) :
  (level <> [] /\
   (List.length level = 1%nat \/ (hd [] level <> [] /\ last level [] <> []))
   -> parseLevel (levelToString level) = charsOf level) /\
  (forall text : string,
     gridToString (parseLevel text)
     = string_of_list_ascii (trim (list_ascii_of_string text))).
Proof.
  split.
  2:{ intro text. unfold gridToString, parseLevel.
      now rewrite joinLines_splitLines. }
  intros [Hne Hshape].
  unfold parseLevel, levelToString, gridToString.
  rewrite list_ascii_of_string_of_list_ascii.
  assert (Hrows : forall row, In row (charsOf level) -> ~ In newline row).
  { intros row Hrow Hin. unfold charsOf in Hrow. apply in_map_iff in Hrow.
    destruct Hrow as [r [<- _]]. apply in_map_iff in Hin.
    destruct Hin as [t [Ht _]]. now apply (proj2 (tile_char_not_space t)). }
  assert (Hne' : charsOf level <> [])
    by (destruct level; [congruence|discriminate]).
  assert (Htrim : trim (joinLines (charsOf level)) = joinLines (charsOf level)).
  { destruct (joinLines (charsOf level)) as [|c0 s0] eqn:Ej; [reflexivity|].
    assert (Hends : hd [] level <> [] /\ last level [] <> []).
    { destruct Hshape as [H1|H]; [|exact H].
      destruct level as [|r [|r2 rest]]; try discriminate.
      simpl in *. destruct r; [discriminate|]. split; discriminate. }
    destruct Hends as [Hhd Hlast].
    (* the text starts with a tile *)
    assert (Hc0 : isSpace c0 = false).
    { destruct level as [|r rest]; [congruence|]. simpl in Hhd.
      destruct r as [|t r]; [congruence|].
      destruct rest; simpl in Ej; inversion Ej;
        apply (proj1 (tile_char_not_space t)). }
    (* and ends with one *)
    destruct (joinLines_last Hne') as [before Hb].
    assert (Hl : exists r t, last (charsOf level) [] = r ++ [tile_char t]).
    { rewrite charsOf_last.
      destruct (last level []) as [|t0 r0] eqn:El; [congruence|].
      destruct (@exists_last _ (t0 :: r0)) as [r [t Hrt]]; [discriminate|].
      rewrite Hrt, map_app. simpl. now exists (map tile_char r), t. }
    destruct Hl as [r [t Hrt]].
    unfold trim. rewrite <- Ej. rewrite Ej at 1. simpl. rewrite Hc0.
    rewrite <- Ej, Hb, Hrt, app_assoc.
    apply trimEnd_keeps. apply (proj1 (tile_char_not_space t)). }
  rewrite Htrim. now apply splitLines_joinLines.
Qed.

(** The grids that do not survive the round trip. *)
Example parse_empty_level : parseLevel (levelToString []) = [ [] ].
Proof. reflexivity. Qed.

Example parse_empty_first_row :
  parseLevel (levelToString [ []; [EMPTY] ]) = [ ["."%char] ].
Proof. reflexivity. Qed.

(* ------------------------------------------------------------------ *)
(** ** Keys identify what they are keys of *)

Lemma stateKey_injective (x y c x' y' c' : Z) :
  stateKey x y c = stateKey x' y' c' -> x = x' /\ y = y' /\ c = c'.
Proof.
  unfold stateKey. intro H.
  assert (E : forall a b d,
            splitComma (zstr a ++ "," ++ zstr b ++ "," ++ zstr d)
            = (zstr a, Some (posKey b d))).
  { intros a b d. apply splitComma_app. apply zstr_noComma. }
  pose proof (E x y c) as E1. rewrite H, E in E1.
  inversion E1 as [[Hx Hk]].
  apply posKey_injective in Hk.
  assert (Hxx : zparse (zstr x') = zparse (zstr x)) by now rewrite Hx.
  rewrite !zparse_zstr in Hxx. inversion Hxx. destruct Hk as [-> ->].
  repeat split; reflexivity.
Qed.

Lemma orX_injective (a b : option TileChar) : orX a = orX b -> a = b.
Proof.
  destruct a as [[]|], b as [[]|]; simpl; intro H;
    try reflexivity; discriminate H.
Qed.

(** X21. The keys are faithful: two solver states have the same
    [stateKey] only when they agree on [x], [y] and the collected-gold
    mask, and two contexts have the same [getContextKey] only when they
    agree on the tile above, the tile to the left and the tile above-left
    (a missing neighbour, written [X], is not confused with any tile). *)
Theorem keys_injective :
  (forall x y c x' y' c',
     stateKey x y c = stateKey x' y' c' <-> (x = x' /\ y = y' /\ c = c')) /\
  (forall context context',
     getContextKey context = getContextKey context' <-> context = context').
Proof.
  split.
  - intros x y c x' y' c'. split; [apply stateKey_injective|].
    now intros [-> [-> ->]].
  - intros [a l al] [a' l' al']. split; [|now intros ->].
    unfold getContextKey. simpl. intro H. inversion H as [[Ha Hl Hal]].
    apply orX_injective in Ha, Hl, Hal. now subst.
Qed.

(* ------------------------------------------------------------------ *)
(** ** The offline script's mirror augmentation *)

Lemma flipLevelHorizontal_involutive (level : Level) :
  flipLevelHorizontal (flipLevelHorizontal level) = level.
Proof.
  unfold flipLevelHorizontal. rewrite map_map.
  rewrite <- (map_id level) at 2. apply map_ext. apply rev_involutive.
Qed.

(** X22. [flipLevelHorizontal] mirrors each row: flipping twice gives the
    level back, the height and each row's length are kept, the cell at
    column [x] of a row of length [n] is the cell at column [n - 1 - x] of
    the original, and stripping entities commutes with flipping.
    [augmentLevels] returns twice as many levels: each level followed by
    its mirror image. *)
Theorem flipLevelHorizontal_mirrors (level : Level) :
  flipLevelHorizontal (flipLevelHorizontal level) = level /\
  len (flipLevelHorizontal level) = len level /\
  (forall x y row, rowAt level y = Some row -> 0 <= x < len row ->
     getTile (flipLevelHorizontal level) x y = getTile level (len row - 1 - x) y) /\
  normalizeLevel (flipLevelHorizontal level)
  = flipLevelHorizontal (normalizeLevel level) /\
  (forall levels,
     len (augmentLevels levels) = 2 * len levels /\
     forall i lv, nth_error levels i = Some lv ->
       nth_error (augmentLevels levels) (2 * i) = Some lv /\
       nth_error (augmentLevels levels) (2 * i + 1)
       = Some (flipLevelHorizontal lv)).
Proof.
  split; [apply flipLevelHorizontal_involutive|].
  split; [unfold flipLevelHorizontal, len; now rewrite length_map|].
  split; [|split].
  - intros x y row Hrow Hx.
    assert (Hy : 0 <= y < len level)
      by (apply rowAt_some_iff; now exists row).
    unfold getTile, flipLevelHorizontal.
    replace (len (map (@rev TileChar) level)) with (len level)
      by (unfold len; now rewrite length_map).
    assert (Ey : (y <? 0) || (y >=? len level) = false).
    { apply orb_false_iff. split; [apply Z.ltb_ge; lia|].
      rewrite Z.geb_leb. apply Z.leb_gt. lia. }
    rewrite Ey, Hrow.
    assert (Er : rowAt (map (@rev TileChar) level) y = Some (rev row)).
    { unfold rowAt in *. destruct (y <? 0); [discriminate|].
      rewrite nth_error_map, Hrow. reflexivity. }
    rewrite Er.
    replace (len (rev row)) with (len row)
      by (unfold len; now rewrite length_rev).
    assert (Ex : (x <? 0) || (x >=? len row) = false).
    { apply orb_false_iff. split; [apply Z.ltb_ge; lia|].
      rewrite Z.geb_leb. apply Z.leb_gt. lia. }
    assert (Ex' : (len row - 1 - x <? 0) || (len row - 1 - x >=? len row)
                  = false).
    { apply orb_false_iff. split; [apply Z.ltb_ge; lia|].
      rewrite Z.geb_leb. apply Z.leb_gt. lia. }
    rewrite Ex, Ex'. unfold cellAt.
    assert (E0 : (x <? 0) = false) by (apply Z.ltb_ge; lia).
    assert (E1 : (len row - 1 - x <? 0) = false) by (apply Z.ltb_ge; lia).
    rewrite E0, E1, nth_error_rev.
    unfold len in *.
    assert (El : (Z.to_nat x <? List.length row)%nat = true)
      by (apply Nat.ltb_lt; lia).
    rewrite El. f_equal. lia.
  - unfold normalizeLevel, flipLevelHorizontal. rewrite !map_map.
    apply map_ext. intro r. now rewrite map_rev.
  - intro levels. split.
    + unfold augmentLevels, len.
      induction levels as [|l ls IH]; simpl; [reflexivity|]. lia.
    + induction levels as [|l ls IH]; intros i lv Hi.
      * destruct i; discriminate.
      * destruct i as [|i]; simpl in Hi.
        -- inversion Hi; subst. split; reflexivity.
        -- replace (2 * S i)%nat with (S (S (2 * i))) by lia.
           replace (S (S (2 * i)) + 1)%nat with (S (S (2 * i + 1))) by lia.
           simpl. now apply IH.
Qed.

(* ------------------------------------------------------------------ *)
(** ** What [isSolvable] decides *)

(** X23. [isSolvable(level)] holds exactly when the level has a Spawn
    standing on ground support (or on a ladder or rope), has at least one
    Gold, and the key of every Gold is in the reachable set computed from
    the Spawn. *)
Theorem isSolvable_iff (level : Level) :
  isSolvable level = true <->
  exists spawn,
    getSpawnPosition level = Some spawn /\
    hasGroundSupport level (px spawn) (py spawn) = true /\
    getGoldPositions level <> [] /\
    forall gold, In gold (getGoldPositions level) ->
      has (posKey (px gold) (py gold))
          (getReachablePositions level (px spawn) (py spawn)) = true.
Proof. unfold isSolvable. apply validateLevel_valid_iff. Qed.

(* ------------------------------------------------------------------ *)
(** ** A search that finishes has explored every move *)

Lemma pushMoves_keeps (visited dugPositions : StrSet) (q : QState) :
  forall (moves : list Move) (queue : list QState),
    In q queue -> In q (pushMoves visited dugPositions moves queue).
Proof.
  unfold pushMoves.
  induction moves as [|m moves IH]; intros queue H; simpl; [exact H|].
  apply IH. destruct (negb (has (posKey (mx m) (my m)) visited)); [|exact H].
  apply in_or_app. now left.
Qed.

Lemma pushMoves_pushes (visited dugPositions : StrSet) (m : Move) :
  forall (moves : list Move) (queue : list QState),
    In m moves ->
    has (posKey (mx m) (my m)) visited = true \/
    In (mkQ (mx m) (my m) (newDugPositions dugPositions m))
       (pushMoves visited dugPositions moves queue).
Proof.
  induction moves as [|a moves IH]; intros queue H; [contradiction|].
  destruct H as [->|H].
  - destruct (has (posKey (mx m) (my m)) visited) eqn:E; [now left|].
    right. unfold pushMoves. simpl. rewrite E. simpl.
    apply (@pushMoves_keeps visited dugPositions _ moves).
    apply in_or_app. right. now left.
  - destruct (IH (if negb (has (posKey (mx a) (my a)) visited)
                  then queue ++ [mkQ (mx a) (my a)
                                   (newDugPositions dugPositions a)]
                  else queue) H) as [Hv|Hq]; [now left|].
    right. exact Hq.
Qed.

(** The state [(x, y, dug)] a key was visited in, with all its moves
    accounted for: each leads to a visited key or is waiting in the
    queue. *)
Definition explored (level : Level) (startX startY : Z) (st : BfsState)
    (k : string) : Prop :=
  exists x y dug,
    k = posKey x y /\ reaches level startX startY x y dug /\
    forall m, In m (getValidMoves level x y dug) ->
      In (posKey (mx m) (my m)) (visited st) \/
      exists q, In q (queue st)
                /\ posKey (qx q) (qy q) = posKey (mx m) (my m).

Definition bfsClosed (level : Level) (startX startY : Z) (st : BfsState)
  : Prop :=
  bfsSound level startX startY st /\
  reachable st = visited st /\
  forall k, In k (visited st) -> explored level startX startY st k.

Lemma bfsBody_closed (level : Level) (startX startY : Z) (st : BfsState) :
  bfsClosed level startX startY st ->
  bfsClosed level startX startY (bfsBody level st).
Proof.
  intros [Hs [Hrv Hex]].
  split; [now apply bfsBody_sound|].
  unfold bfsBody.
  destruct (queue st) as [|current rest] eqn:Eq; [now split|].
  assert (Hc : reaches level startX startY (qx current) (qy current)
                 (qdug current)).
  { destruct Hs as [Hs _]. apply Hs. rewrite Eq. now left. }
  destruct (has (posKey (qx current) (qy current)) (visited st)) eqn:Ev; simpl.
  - split; [exact Hrv|].
    intros k Hk. destruct (Hex k Hk) as [x [y [dug [Ek [Hr Hm]]]]].
    exists x, y, dug. split; [exact Ek|]. split; [exact Hr|].
    intros m Hin. destruct (Hm m Hin) as [H|[q [Hq Hkey]]]; [now left|].
    rewrite Eq in Hq. destruct Hq as [<-|Hq].
    + left. rewrite <- Hkey. now apply has_In.
    + right. exists q. now split.
  - split; [now rewrite Hrv|].
    intros k Hk. apply In_add in Hk. destruct Hk as [->|Hk].
    + exists (qx current), (qy current), (qdug current).
      split; [reflexivity|]. split; [exact Hc|].
      intros m Hin.
      destruct (@pushMoves_pushes
                  (add (posKey (qx current) (qy current)) (visited st))
                  (qdug current) m _ rest Hin) as [Hv|Hq].
      * left. now apply has_In.
      * right. eexists. split; [exact Hq|reflexivity].
    + destruct (Hex k Hk) as [x [y [dug [Ek [Hr Hm]]]]].
      exists x, y, dug. split; [exact Ek|]. split; [exact Hr|].
      intros m Hin. destruct (Hm m Hin) as [H|[q [Hq Hkey]]].
      * left. now apply In_add_keep.
      * rewrite Eq in Hq. destruct Hq as [<-|Hq].
        -- left. rewrite <- Hkey. apply In_add_new.
        -- right. exists q. split; [|exact Hkey].
           now apply pushMoves_keeps.
Qed.

Lemma bfsLoop_closed (level : Level) (startX startY : Z) :
  forall (n : nat) (st : BfsState),
    bfsClosed level startX startY st ->
    bfsClosed level startX startY (bfsLoop level n st).
Proof.
  induction n as [|n IH]; intros st H; simpl; [exact H|].
  destruct (queue st) eqn:Eq; [exact H|].
  apply IH. now apply bfsBody_closed.
Qed.

Lemma bfsInit_closed (level : Level) (startX startY : Z) :
  bfsClosed level startX startY (bfsInit startX startY).
Proof.
  split; [|split].
  - split; simpl.
    + intros q [<-|[]]. simpl. constructor.
    + intros k [].
  - reflexivity.
  - intros k [].
Qed.

(** The search ran to the end: the loop stopped on an empty queue. *)
Definition searchFinished (level : Level) (startX startY maxIterations : Z)
  : Prop :=
  queue (bfsLoop level (Z.to_nat maxIterations) (bfsInit startX startY)) = [].

Lemma finished_closed (level : Level) (startX startY maxIterations : Z)
    (key : string) :
  searchFinished level startX startY maxIterations ->
  In key (getReachablePositionsWithin level startX startY maxIterations) ->
  exists x y dug,
    key = posKey x y /\ reaches level startX startY x y dug /\
    forall m, In m (getValidMoves level x y dug) ->
      In (posKey (mx m) (my m))
         (getReachablePositionsWithin level startX startY maxIterations).
Proof.
  unfold searchFinished, getReachablePositionsWithin. intros Hq Hk.
  destruct (@bfsLoop_closed level startX startY (Z.to_nat maxIterations) _
              (bfsInit_closed level startX startY)) as [_ [Hrv Hex]].
  rewrite Hrv in *. destruct (Hex key Hk) as [x [y [dug [Ek [Hr Hm]]]]].
  exists x, y, dug. split; [exact Ek|]. split; [exact Hr|].
  intros m Hin. destruct (Hm m Hin) as [H|[q [Hin' _]]]; [exact H|].
  rewrite Hq in Hin'. contradiction.
Qed.

(** X24. When [getReachablePositions] stops because its queue is empty
    (not because the iteration budget ran out), every key of the set
    stands for a state [(x, y, dug)], reached by a chain of moves from the
    start, all of whose moves lead to keys of the set: no move from the
    state a position was first visited in is left unexplored. *)
Theorem getReachablePositions_closed (level : Level)
    (startX startY maxIterations : Z) (key : string) :
  searchFinished level startX startY maxIterations ->
  In key (getReachablePositionsWithin level startX startY maxIterations) ->
  exists x y dug,
    key = posKey x y /\ reaches level startX startY x y dug /\
    forall m, In m (getValidMoves level x y dug) ->
      In (posKey (mx m) (my m))
         (getReachablePositionsWithin level startX startY maxIterations).
Proof. apply finished_closed. Qed.

Lemma getReachablePositions_closed_witness :
  exists x y dug,
    "0,2"%string = posKey x y /\ reaches pitLevel 0 1 x y dug /\
    forall m, In m (getValidMoves pitLevel x y dug) ->
      In (posKey (mx m) (my m)) (getReachablePositionsWithin pitLevel 0 1 50000).
Proof.
  apply (@getReachablePositions_closed pitLevel 0 1 50000 "0,2"%string).
  - vm_compute. reflexivity.
  - vm_compute. right. now left.
Defined.

(* ------------------------------------------------------------------ *)
(** ** Without bricks the reachable set is exact *)

(** The positions a chain of moves reaches without digging. *)
Inductive walkable (level : Level) (startX startY : Z) : Z -> Z -> Prop :=
| walkable_start : walkable level startX startY startX startY
| walkable_move (x y : Z) (m : Move) :
    walkable level startX startY x y ->
    In m (getValidMoves level x y []) ->
    walkable level startX startY (mx m) (my m).

Definition noBrick (level : Level) : Prop :=
  forall x y, getTile level x y <> Some BRICK.

Lemma noBrick_check (level : Level) :
  forallb (forallb (fun t => negb (tile_eqb t BRICK))) level = true ->
  noBrick level.
Proof.
  intros H x y Ht. apply getTile_some in Ht.
  destruct Ht as [_ [_ [r [Hr Hc]]]].
  rewrite forallb_forall in H. apply nth_error_In in Hr, Hc.
  specialize (H r Hr). rewrite forallb_forall in H.
  specialize (H BRICK Hc). discriminate.
Qed.

(** A move that digs, digs a Brick. *)
Lemma getValidMoves_dig_brick (level : Level) (x y : Z) (dugPositions : StrSet)
    (m : Move) (d : Position) :
  In m (getValidMoves level x y dugPositions) -> dig m = Some d ->
  getTile level (px d) (py d) = Some BRICK.
Proof.
  intros H Hd. unfold getValidMoves in H.
  destruct (negb (hasGroundSupport level x y)
            && negb (is_tile (getTile level x y) LADDER
                     || is_tile (getTile level x y) ROPE)).
  - apply fallScan_In in H. destruct H as [_ [H _]]. congruence.
  - repeat (apply in_app_or in H; destruct H as [H|H]).
    + one_move H. destruct H as [<-|[]]. discriminate.
    + one_move H. destruct H as [<-|[]]. discriminate.
    + one_move H. destruct H as [<-|[]]. discriminate.
    + one_move H. one_move H; [destruct H as [<-|[]]; discriminate|].
      one_move H. destruct H as [<-|[]]. discriminate.
    + one_move H. one_move H. destruct H as [<-|[]]. simpl in Hd.
      inversion Hd; subst d. simpl.
      apply andb_true_iff in E0. destruct E0 as [E0 _].
      apply andb_true_iff in E0. destruct E0 as [_ Ec].
      now apply is_tile_true in Ec.
    + one_move H. one_move H. destruct H as [<-|[]]. simpl in Hd.
      inversion Hd; subst d. simpl.
      apply andb_true_iff in E0. destruct E0 as [E0 _].
      apply andb_true_iff in E0. destruct E0 as [_ Ec].
      now apply is_tile_true in Ec.
Qed.

Lemma noBrick_reaches (level : Level) (startX startY x y : Z) (dug : StrSet) :
  noBrick level -> reaches level startX startY x y dug ->
  dug = [] /\ walkable level startX startY x y.
Proof.
  intros Hno H. induction H as [|x y dug m H [IHd IHw] Hm].
  - split; [reflexivity|constructor].
  - subst dug. split.
    + unfold newDugPositions. destruct (dig m) as [d|] eqn:Ed; [|reflexivity].
      exfalso. eapply Hno. eapply getValidMoves_dig_brick; eassumption.
    + eapply walkable_move; eassumption.
Qed.

(** X25. On a level without Brick tiles, when the search stops on an
    empty queue, [getReachablePositions] is exact: it holds the key of a
    position if and only if a chain of [getValidMoves] moves leads from
    the start to that position. *)
Theorem getReachablePositions_exact (level : Level)
    (startX startY maxIterations x y : Z) :
  noBrick level ->
  searchFinished level startX startY maxIterations ->
  (In (posKey x y)
      (getReachablePositionsWithin level startX startY maxIterations)
   <-> walkable level startX startY x y).
Proof.
  intros Hno Hfin. split.
  - intro Hin. apply getReachablePositionsWithin_sound in Hin.
    destruct Hin as [x' [y' [dug [Ek Hr]]]].
    apply posKey_injective in Ek. destruct Ek as [-> ->].
    now apply (@noBrick_reaches _ _ _ _ _ _ Hno Hr).
  - intro Hw. induction Hw as [|x y m Hw IH Hm].
    + unfold getReachablePositionsWithin.
      unfold searchFinished in Hfin.
      destruct (Z.to_nat maxIterations) as [|n]; [discriminate Hfin|].
      simpl. apply bfsLoop_reachable_mono. simpl. now left.
    + destruct (@finished_closed _ _ _ _ _ Hfin IH)
        as [x' [y' [dug [Ek [Hr Hcl]]]]].
      apply posKey_injective in Ek. destruct Ek as [<- <-].
      destruct (@noBrick_reaches _ _ _ _ _ _ Hno Hr) as [-> _].
      now apply Hcl.
Qed.

Lemma getReachablePositions_exact_witness :
  In (posKey 0 2) (getReachablePositionsWithin pitLevel 0 1 50000)
  <-> walkable pitLevel 0 1 0 2.
Proof.
  apply (@getReachablePositions_exact pitLevel 0 1 50000 0 2).
  - apply noBrick_check. reflexivity.
  - vm_compute. reflexivity.
Defined.

(* ------------------------------------------------------------------ *)
(** ** [canReach]: the single-goal search *)

(** [Node] of the single-goal search ([parent] is never read). *)
Record PathNode : Type := mkPathNode {
  pnx : Z; pny : Z; png : Z; pnh : Z; pnf : Z; pndug : StrSet }.

(** [openSet.sort((a, b) => a.f - b.f)], as for the full solver. *)
Fixpoint insertByPathF (n : PathNode) (l : list PathNode) : list PathNode :=
  match l with
  | [] => [n]
  | m :: l' => if pnf n <? pnf m then n :: l else m :: insertByPathF n l'
  end.

Definition sortByPathF (l : list PathNode) : list PathNode :=
  fold_left (fun acc n => insertByPathF n acc) l [].

Record ReachState : Type := mkReach {
  pathOpen : list PathNode; closedSet : StrSet }.

Section CanReach.

Variable level : Level.
Variables goalX goalY : Z.

(** The [for (const move of moves)] loop. *)
Definition pushPathMoves (closed : StrSet) (current : PathNode)
    (moves : list Move) (open : list PathNode) : list PathNode :=
  fold_left
    (fun o move =>
       if has (posKey (mx move) (my move)) closed then o
       else
         let g' := png current + 1 in
         let h' := manhattan (mx move) (my move) goalX goalY in
         o ++ [mkPathNode (mx move) (my move) g' h' (g' + h')
                 (newDugPositions (pndug current) move)])
    moves open.

(** One iteration: [inl tt] is [return true]. *)
Definition canReachBody (st : ReachState) : unit + ReachState :=
  match sortByPathF (pathOpen st) with
  | [] => inr st
  | current :: rest =>
      if (pnx current =? goalX) && (pny current =? goalY) then inl tt
      else
        let key := posKey (pnx current) (pny current) in
        if has key (closedSet st) then inr (mkReach rest (closedSet st))
        else
          let closed' := add key (closedSet st) in
          let moves :=
            getValidMoves level (pnx current) (pny current) (pndug current) in
          inr (mkReach (pushPathMoves closed' current moves rest) closed')
  end.

Fixpoint canReachLoop (iterationsLeft : nat) (st : ReachState) : bool :=
  match iterationsLeft with
  | O => false
  | S n =>
      match pathOpen st with
      | [] => false
      | _ :: _ =>
          match canReachBody st with
          | inl _ => true
          | inr st' => canReachLoop n st'
          end
      end
  end.

Definition canReachWithin (startX startY maxIterations : Z) : bool :=
  let h0 := manhattan startX startY goalX goalY in
  canReachLoop (Z.to_nat maxIterations)
    (mkReach [mkPathNode startX startY 0 h0 h0 []] []).

End CanReach.

(** The default [maxIterations = 10000]. *)
Definition canReach (level : Level) (startX startY goalX goalY : Z) : bool :=
  canReachWithin level goalX goalY startX startY 10000.

Example pit_canReach :
  canReach pitLevel 0 1 1 0 = true /\ canReach sealedLevel 0 1 0 0 = false.
Proof. vm_compute. split; reflexivity. Qed.

Lemma insertByPathF_In (n a : PathNode) :
  forall l, In n (insertByPathF a l) -> n = a \/ In n l.
Proof.
  induction l as [|m l IH]; simpl; intro H.
  - destruct H as [<-|[]]. now left.
  - destruct (pnf a <? pnf m).
    + destruct H as [<-|H]; [now left|now right].
    + destruct H as [<-|H]; [right; now left|].
      apply IH in H. destruct H as [H|H]; [now left|right; now right].
Qed.

Lemma sortByPathF_In (n : PathNode) (l : list PathNode) :
  In n (sortByPathF l) -> In n l.
Proof.
  unfold sortByPathF.
  assert (G : forall l acc,
             In n (fold_left (fun acc n => insertByPathF n acc) l acc)
             -> In n acc \/ In n l).
  { clear l. induction l as [|a l IH]; intros acc H; simpl in H; [now left|].
    apply IH in H. destruct H as [H|H]; [|right; now right].
    apply insertByPathF_In in H.
    destruct H as [->|H]; [right; now left|now left]. }
  intro H. apply G in H. destruct H as [[]|H]. exact H.
Qed.

Section CanReachSound.

Variable level : Level.
Variables startX startY goalX goalY : Z.

Definition pathOk (n : PathNode) : Prop :=
  reaches level startX startY (pnx n) (pny n) (pndug n).

Lemma pushPathMoves_ok (closed : StrSet) (current : PathNode) :
  pathOk current ->
  forall (moves : list Move) (open : list PathNode),
    (forall m, In m moves ->
       In m (getValidMoves level (pnx current) (pny current) (pndug current))) ->
    (forall n, In n open -> pathOk n) ->
    forall n, In n (pushPathMoves goalX goalY closed current moves open) ->
              pathOk n.
Proof.
  intro Hc. unfold pushPathMoves.
  induction moves as [|m moves IH]; intros open Hm Ho n Hn; simpl in Hn;
    [now apply Ho|].
  eapply IH; [| |exact Hn].
  - intros m' Hm'. apply Hm. now right.
  - intros n' Hn'. destruct (has _ closed); [now apply Ho|].
    apply in_app_or in Hn'. destruct Hn' as [Hn'|[<-|[]]]; [now apply Ho|].
    unfold pathOk. simpl. eapply reaches_move; [exact Hc|].
    apply Hm. now left.
Qed.

Lemma canReachLoop_sound :
  forall (k : nat) (st : ReachState),
    (forall n, In n (pathOpen st) -> pathOk n) ->
    canReachLoop level goalX goalY k st = true ->
    exists dug, reaches level startX startY goalX goalY dug.
Proof.
  induction k as [|k IH]; intros st Ho H; simpl in H; [discriminate|].
  destruct (pathOpen st) eqn:Eo; [discriminate|]. rewrite <- Eo in Ho.
  unfold canReachBody in H.
  destruct (sortByPathF (pathOpen st)) as [|current rest] eqn:Es.
  - now apply (IH st).
  - assert (Hs : forall n, In n (current :: rest) -> pathOk n).
    { intros n Hn. apply Ho. apply sortByPathF_In. now rewrite Es. }
    destruct ((pnx current =? goalX) && (pny current =? goalY)) eqn:Eg.
    + apply andb_true_iff in Eg. destruct Eg as [Ex Ey].
      apply Z.eqb_eq in Ex, Ey. exists (pndug current).
      rewrite <- Ex, <- Ey. apply Hs. now left.
    + destruct (has (posKey (pnx current) (pny current)) (closedSet st)).
      * apply (IH _) in H; [exact H|]. simpl. intros n Hn. apply Hs. now right.
      * apply (IH _) in H; [exact H|]. simpl. intros n Hn.
        eapply pushPathMoves_ok; [apply Hs; now left| | |exact Hn].
        -- intros m Hm. exact Hm.
        -- intros n' Hn'. apply Hs. now right.
Qed.

End CanReachSound.

(** X26. [canReach] answers [true] only when a chain of [getValidMoves]
    moves, each taken with the bricks dug so far, leads from the start to
    the goal; and with at least one iteration allowed it answers [true]
    when the goal is the start. *)
Theorem canReach_sound (level : Level)
    (startX startY goalX goalY maxIterations : Z) :
  (canReachWithin level goalX goalY startX startY maxIterations = true ->
   exists dug, reaches level startX startY goalX goalY dug) /\
  (0 < maxIterations ->
   canReachWithin level startX startY startX startY maxIterations = true).
Proof.
  split.
  - unfold canReachWithin. intro H.
    apply (@canReachLoop_sound level startX startY goalX goalY) in H;
      [exact H|].
    intros n [<-|[]]. unfold pathOk. simpl. constructor.
  - intro Hpos. unfold canReachWithin.
    destruct (Z.to_nat maxIterations) as [|n] eqn:En; [lia|].
    simpl. unfold canReachBody. simpl. now rewrite !Z.eqb_refl.
Qed.

(* ------------------------------------------------------------------ *)
(** ** The TotalRecall training script *)

Module TotalRecall.

(** [TILE_MAP[char] || '.']: the tile a TotalRecall character stands for,
    Empty for a character the map does not know. *)
Definition mapTile (char : ascii) : TileChar :=
  if Ascii.eqb char " " then EMPTY
  else if Ascii.eqb char "#" then BRICK
  else if Ascii.eqb char "@" then SOLID
  else if Ascii.eqb char "H" then LADDER
  else if Ascii.eqb char "-" then ROPE
  else if Ascii.eqb char "X" then BRICK
  else if Ascii.eqb char "S" then LADDER
  else EMPTY.

(** [levelStr[idx] || ' '] *)
Definition charAt (levelStr : string) (idx : Z) : ascii :=
  match String.get (Z.to_nat idx) levelStr with
  | Some c => c
  | None => " "%char
  end.

(** [parseLevel]: 16 rows of 28 tiles, read row by row. *)
Definition parseLevel (levelStr : string) : Level :=
  map (fun y =>
         map (fun x => mapTile (charAt levelStr (y * LEVEL_WIDTH + x)))
             (columns (Z.to_nat LEVEL_WIDTH) 0))
      (columns (Z.to_nat LEVEL_HEIGHT) 0).

(** The counting loops of [trainMarkov] over one parsed level. *)
Definition countLevel (level : Level) (transitions : Transitions Z)
  : Transitions Z :=
  fold_left
    (fun tr y =>
       fold_left
         (fun tr' x =>
            match Script.readAt level x y with
            | None => tr'
            | Some tile =>
                observe (getContextKey (Script.contextAt level x y)) tile tr'
            end)
         (columns (Z.to_nat LEVEL_WIDTH) 0) tr)
    (columns (Z.to_nat LEVEL_HEIGHT) 0) transitions.

Definition trainMarkov (levels : list string) : Transitions Q :=
  map (fun kv => (fst kv, normalizeCounts (snd kv)))
      (fold_left (fun tr levelStr => countLevel (parseLevel levelStr) tr)
                 levels []).

End TotalRecall.

Example totalRecall_parse_short :
  nth_error (TotalRecall.parseLevel "#H@-$X") 0
  = Some ([BRICK; LADDER; SOLID; ROPE; EMPTY; BRICK] ++ repeat EMPTY 22).
Proof. reflexivity. Qed.

Lemma mapTile_terrain (c : ascii) :
  normalizeTile (TotalRecall.mapTile c) = TotalRecall.mapTile c.
Proof.
  unfold TotalRecall.mapTile.
  repeat match goal with
         | |- context [if ?b then _ else _] => destruct b
         end; reflexivity.
Qed.

Lemma totalRecall_rect (levelStr : string) :
  rect (Z.to_nat LEVEL_WIDTH) (Z.to_nat LEVEL_HEIGHT)
       (TotalRecall.parseLevel levelStr).
Proof.
  unfold rect, TotalRecall.parseLevel. split.
  - now rewrite length_map, columns_length.
  - apply Forall_forall. intros r Hr. apply in_map_iff in Hr.
    destruct Hr as [y [<- _]]. now rewrite length_map, columns_length.
Qed.

Lemma totalRecall_normalized (levelStr : string) :
  normalizeLevel (TotalRecall.parseLevel levelStr)
  = TotalRecall.parseLevel levelStr.
Proof.
  unfold normalizeLevel, TotalRecall.parseLevel. rewrite map_map.
  apply map_ext. intro y. rewrite map_map. apply map_ext. intro x.
  apply mapTile_terrain.
Qed.

Lemma totalRecall_countLevel (level : Level) (tr : Transitions Z) :
  rect (Z.to_nat LEVEL_WIDTH) (Z.to_nat LEVEL_HEIGHT) level ->
  TotalRecall.countLevel level tr = Script.countLevel level tr.
Proof.
  intros [Hh Hw]. unfold TotalRecall.countLevel, Script.countLevel.
  replace (Z.to_nat (len level)) with (Z.to_nat LEVEL_HEIGHT)
    by (unfold len; rewrite Hh; lia).
  apply fold_left_ext_In. intros a y Hy. apply columns_In in Hy.
  destruct (rowAt level y) as [row|] eqn:Er.
  2:{ exfalso.
      assert (H : exists r, rowAt level y = Some r).
      { apply rowAt_some_iff. unfold len. rewrite Hh.
        rewrite Z2Nat.id by (unfold LEVEL_HEIGHT; lia). lia. }
      destruct H as [r Hr]. congruence. }
  assert (Hrow : List.length row = Z.to_nat LEVEL_WIDTH).
  { rewrite Forall_forall in Hw. apply Hw.
    unfold rowAt in Er. destruct (y <? 0); [discriminate|].
    eapply nth_error_In; exact Er. }
  replace (Z.to_nat (len row)) with (Z.to_nat LEVEL_WIDTH)
    by (unfold len; rewrite Hrow; lia).
  apply fold_left_ext_In. intros a' x _.
  unfold Script.readAt. now rewrite Er.
Qed.

(** X27. The TotalRecall script's [parseLevel] always returns 16 rows of
    28 terrain tiles, whatever the text: a short text is padded with
    Empty, an unknown character reads as Empty, and a long text is cut.
    Its [trainMarkov] builds the table that the runtime [train] builds
    from those parsed grids. *)
Theorem totalRecall_train :
  (forall levelStr,
     rect (Z.to_nat LEVEL_WIDTH) (Z.to_nat LEVEL_HEIGHT)
          (TotalRecall.parseLevel levelStr) /\
     structureGrid (TotalRecall.parseLevel levelStr) /\
     forall x y, 0 <= x < LEVEL_WIDTH -> 0 <= y < LEVEL_HEIGHT ->
       getTile (TotalRecall.parseLevel levelStr) x y
       = Some (TotalRecall.mapTile
                 (TotalRecall.charAt levelStr (y * LEVEL_WIDTH + x)))) /\
  (forall previous levels,
     TotalRecall.trainMarkov levels
     = train previous (map TotalRecall.parseLevel levels)).
Proof.
  split.
  - intro levelStr.
    assert (Hcell : forall x y, 0 <= x < LEVEL_WIDTH -> 0 <= y < LEVEL_HEIGHT ->
              getTile (TotalRecall.parseLevel levelStr) x y
              = Some (TotalRecall.mapTile
                        (TotalRecall.charAt levelStr (y * LEVEL_WIDTH + x)))).
    { intros x y Hx Hy. apply getTile_some.
      split; [lia|]. split; [lia|].
      unfold TotalRecall.parseLevel.
      exists (map (fun x0 => TotalRecall.mapTile
                               (TotalRecall.charAt levelStr
                                  (y * LEVEL_WIDTH + x0)))
                  (columns (Z.to_nat LEVEL_WIDTH) 0)).
      assert (Hn : forall n i, 0 <= i < Z.of_nat n ->
                nth_error (columns n 0) (Z.to_nat i) = Some i).
      { intros n i Hi.
        destruct (nth_error (columns n 0) (Z.to_nat i)) as [b|] eqn:E.
        - apply columns_nth in E. destruct E as [-> _]. f_equal. lia.
        - apply nth_error_None in E. rewrite columns_length in E. lia. }
      split.
      - rewrite nth_error_map, Hn; [reflexivity|].
        unfold LEVEL_HEIGHT in *. lia.
      - rewrite nth_error_map, Hn; [reflexivity|].
        unfold LEVEL_WIDTH in *. lia. }
    split; [apply totalRecall_rect|]. split; [|exact Hcell].
    intros x y t Ht.
    destruct (@getTile_rect_bounds _ _ _ _ _ _ (totalRecall_rect levelStr) Ht)
      as [Hx Hy].
    rewrite Hcell in Ht by (unfold LEVEL_WIDTH, LEVEL_HEIGHT in *; lia).
    inversion Ht. apply mapTile_terrain.
  - intros previous levels.
    unfold TotalRecall.trainMarkov, train, countLevels. f_equal.
    rewrite fold_left_map. apply fold_left_ext_eq. intros tr levelStr.
    rewrite totalRecall_normalized, <- script_countLevel.
    apply totalRecall_countLevel. apply totalRecall_rect.
Qed.

(* ------------------------------------------------------------------ *)
(** ** [PatternMarkovGenerator]: counting square patterns *)

Module Pattern.

(** [normalized[y + dy]?.[x + dx] || '.'] *)
Definition tileOrDot (o : option TileChar) : ascii :=
  match o with Some t => tile_char t | None => "."%char end.

(** The pattern whose top-left corner is [(x, y)]. *)
Definition patternAt (normalized : Level) (patternSize x y : Z) : list ascii :=
  flat_map
    (fun dy =>
       map (fun dx => tileOrDot (Script.readAt normalized (x + dx) (y + dy)))
           (columns (Z.to_nat patternSize) 0))
    (columns (Z.to_nat patternSize) 0).

(** [normalized[y]?.length || 0] *)
Definition rowLength (normalized : Level) (y : Z) : Z :=
  match rowAt normalized y with Some r => len r | None => 0 end.

(** [extractPatterns]: the loops run while [y <= length - patternSize] and
    [x <= rowLength - patternSize]. *)
Definition extractPatterns (patternSize : Z) (level : Level) : list string :=
  let normalized := normalizeLevel level in
  flat_map
    (fun y =>
       map (fun x => string_of_list_ascii (patternAt normalized patternSize x y))
           (columns (Z.to_nat (rowLength normalized y - patternSize + 1)) 0))
    (columns (Z.to_nat (len normalized - patternSize + 1)) 0).

(** [this.patterns.set(pattern, (this.patterns.get(pattern) || 0) + 1)] *)
Definition count (patterns : list (string * Z)) (pattern : string)
  : list (string * Z) :=
  mapSet pattern
    (match mapGet pattern patterns with Some c => c | None => 0 end + 1)
    patterns.

(** [train]: the table held before is cleared. *)
Definition train (patternSize : Z) (levels : list Level) : list (string * Z) :=
  fold_left
    (fun patterns level =>
       fold_left count (extractPatterns patternSize level) patterns)
    levels [].

Definition getPatternCount (patterns : list (string * Z)) : Z := len patterns.

End Pattern.

Example pattern_ladderStructure :
  Pattern.extractPatterns 3 ladderStructure
  = [ "...bb#..#"; "...b#..#."; "bb#..#BBB"; "b#..#.BBB" ]%string.
Proof. reflexivity. Qed.

Lemma string_length_of_list (l : list ascii) :
  String.length (string_of_list_ascii l) = List.length l.
Proof. induction l as [|c l IH]; simpl; [reflexivity|now rewrite IH]. Qed.

Lemma length_flat_map_const {A B : Type} (f : A -> list B) (n : nat) (l : list A) :
  (forall a, In a l -> List.length (f a) = n) ->
  List.length (flat_map f l) = (List.length l * n)%nat.
Proof.
  induction l as [|a l IH]; intro H; simpl; [reflexivity|].
  rewrite length_app, H by now left. rewrite IH; [reflexivity|].
  intros b Hb. apply H. now right.
Qed.

(** How often [pattern] occurs in a list of patterns. *)
Definition timesIn (pattern : string) (l : list string) : Z :=
  len (filter (String.eqb pattern) l).

Lemma count_fold (pattern : string) :
  forall (l : list string) (patterns : list (string * Z)),
    mapGet pattern (fold_left Pattern.count l patterns)
    = if timesIn pattern l =? 0 then mapGet pattern patterns
      else Some (match mapGet pattern patterns with Some c => c | None => 0 end
                 + timesIn pattern l).
Proof.
  unfold timesIn.
  induction l as [|p l IH]; intro patterns; simpl; [reflexivity|].
  rewrite IH. unfold Pattern.count. rewrite !mapGet_mapSet.
  destruct (String.eqb pattern p) eqn:E.
  - apply String.eqb_eq in E. subst p.
    replace (len (pattern :: filter (String.eqb pattern) l))
      with (len (filter (String.eqb pattern) l) + 1)
      by (unfold len; simpl; lia).
    assert (Hpos : 0 <= len (filter (String.eqb pattern) l))
      by (unfold len; lia).
    destruct (len (filter (String.eqb pattern) l) + 1 =? 0) eqn:E1;
      [apply Z.eqb_eq in E1; lia|].
    destruct (len (filter (String.eqb pattern) l) =? 0) eqn:E0.
    + apply Z.eqb_eq in E0. rewrite E0. f_equal.
    + f_equal. lia.
  - reflexivity.
Qed.

(** X28. [PatternMarkovGenerator]: for a pattern size of at least 1,
    every pattern [extractPatterns] returns is a text of
    [patternSize * patternSize] characters, all of them terrain
    characters; a grid of [h] rows of [w] cells gives
    [(h - patternSize + 1) * (w - patternSize + 1)] patterns, none when
    the size exceeds a dimension; and after [train] the count stored for a
    pattern is the number of times it was extracted from the corpus, the
    patterns never extracted having no entry. *)
Theorem pattern_counts (patternSize : Z) :
  1 <= patternSize ->
  (forall level pattern,
     In pattern (Pattern.extractPatterns patternSize level) ->
     Z.of_nat (String.length pattern) = patternSize * patternSize /\
     forall c, In c (list_ascii_of_string pattern) ->
               In c [tile_char EMPTY; tile_char BRICK; tile_char SOLID;
                     tile_char LADDER; tile_char ROPE]) /\
  (forall w h level, rect w h level ->
     len (Pattern.extractPatterns patternSize level)
     = Z.max 0 (Z.of_nat h - patternSize + 1)
       * Z.max 0 (Z.of_nat w - patternSize + 1)) /\
  (forall levels pattern,
     mapGet pattern (Pattern.train patternSize levels)
     = let n := timesIn pattern
                  (flat_map (Pattern.extractPatterns patternSize) levels) in
       if n =? 0 then None else Some n).
Proof.
  intro Hps. split; [|split].
  - intros level pattern Hin. unfold Pattern.extractPatterns in Hin.
    apply in_flat_map in Hin. destruct Hin as [y [_ Hin]].
    apply in_map_iff in Hin. destruct Hin as [x [<- _]].
    rewrite string_length_of_list, list_ascii_of_string_of_list_ascii.
    unfold Pattern.patternAt. split.
    + rewrite (@length_flat_map_const _ _ _ (Z.to_nat patternSize)).
      * rewrite columns_length. nia.
      * intros dy _. now rewrite length_map, columns_length.
    + intros c Hc. apply in_flat_map in Hc. destruct Hc as [dy [_ Hc]].
      apply in_map_iff in Hc. destruct Hc as [dx [<- _]].
      rewrite <- getTile_readAt. unfold normalizeLevel. rewrite getTile_map.
      destruct (getTile level (x + dx) (y + dy)) as [t|]; simpl;
        [destruct t; simpl; tauto|tauto].
  - intros w h level R. unfold Pattern.extractPatterns.
    assert (Rn : rect w h (normalizeLevel level)).
    { destruct R as [Hh Hw]. unfold normalizeLevel. split.
      - now rewrite length_map.
      - apply Forall_forall. intros r Hr. apply in_map_iff in Hr.
        destruct Hr as [r0 [<- Hr0]]. rewrite length_map.
        rewrite Forall_forall in Hw. now apply Hw. }
    unfold len at 1.
    rewrite (@length_flat_map_const _ _ _
               (Z.to_nat (Z.of_nat w - patternSize + 1))).
    + rewrite columns_length, (rect_len Rn). lia.
    + intros y Hy. rewrite length_map, columns_length.
      apply columns_In in Hy. rewrite (rect_len Rn) in Hy.
      unfold Pattern.rowLength.
      destruct (rowAt (normalizeLevel level) y) as [r|] eqn:Er.
      * destruct Rn as [_ Hw]. rewrite Forall_forall in Hw.
        unfold rowAt in Er. destruct (y <? 0); [discriminate|].
        apply nth_error_In in Er. unfold len. now rewrite (Hw r Er).
      * exfalso.
        assert (H : exists r, rowAt (normalizeLevel level) y = Some r).
        { apply rowAt_some_iff. rewrite (rect_len Rn). lia. }
        destruct H as [r Hr]. congruence.
  - intros levels pattern. unfold Pattern.train. cbv zeta.
    rewrite <- (@fold_left_flat_map _ _ _ Pattern.count
                  (Pattern.extractPatterns patternSize) levels []).
    rewrite count_fold. simpl.
    destruct (timesIn pattern
                (flat_map (Pattern.extractPatterns patternSize) levels) =? 0);
      reflexivity.
Qed.

Lemma pattern_counts_witness :
  len (Pattern.extractPatterns 3 ladderStructure)
  = Z.max 0 (Z.of_nat 4 - 3 + 1) * Z.max 0 (Z.of_nat 4 - 3 + 1).
Proof.
  destruct (@pattern_counts 3) as [_ [H _]]; [lia|].
  apply (H 4%nat 4%nat ladderStructure). split; [reflexivity|].
  repeat constructor.
Defined.

(* ------------------------------------------------------------------ *)
(** ** Only bricks are dug *)

Lemma reaches_dug_bricks (level : Level) (startX startY x y : Z)
    (dug : StrSet) :
  reaches level startX startY x y dug ->
  forall k, In k dug ->
    exists a b, k = posKey a b /\ getTile level a b = Some BRICK.
Proof.
  intro H. induction H as [|x y dug m H IH Hm]; intros k Hk; [contradiction|].
  unfold newDugPositions in Hk. destruct (dig m) as [d|] eqn:Ed.
  - apply In_add in Hk. destruct Hk as [->|Hk]; [|now apply IH].
    exists (px d), (py d). split; [reflexivity|].
    eapply getValidMoves_dig_brick; eassumption.
  - now apply IH.
Qed.

(** X29. In every state the searches reach from a start with nothing dug,
    each key of the dug set is the key of a Brick cell of the level: no
    other tile is ever dug, so a cell that is not a Brick is passable in
    such a state exactly when its tile is passable. *)
Theorem only_bricks_dug (level : Level) (startX startY x y : Z)
    (dug : StrSet) :
  reaches level startX startY x y dug ->
  (forall k, In k dug ->
     exists a b, k = posKey a b /\ getTile level a b = Some BRICK) /\
  (forall a b, getTile level a b <> Some BRICK ->
     isPassable level a b dug = isPassable level a b []).
Proof.
  intro H. pose proof (reaches_dug_bricks H) as Hd. split; [exact Hd|].
  intros a b Hnb. unfold isPassable.
  destruct (getTile level a b) as [t|] eqn:Et; [|reflexivity].
  destruct (has (posKey a b) dug) eqn:Eh; [|reflexivity].
  exfalso. apply has_In in Eh. destruct (Hd _ Eh) as [a' [b' [Ek Hb]]].
  apply posKey_injective in Ek. destruct Ek as [<- <-]. congruence.
Qed.

Lemma only_bricks_dug_witness :
  (forall k, In k (newDugPositions [] (mkMove 1 0 (Some (mkPos 1 1)))) ->
     exists a b, k = posKey a b /\ getTile wallLevel a b = Some BRICK) /\
  (forall a b, getTile wallLevel a b <> Some BRICK ->
     isPassable wallLevel a b
       (newDugPositions [] (mkMove 1 0 (Some (mkPos 1 1))))
     = isPassable wallLevel a b []).
Proof.
  apply (@only_bricks_dug wallLevel 0 0 1 0).
  apply (@reaches_move wallLevel 0 0 0 0 [] (mkMove 1 0 (Some (mkPos 1 1)))).
  - constructor.
  - vm_compute. now left.
Defined.

(* ------------------------------------------------------------------ *)
(** ** The order of the corpus does not change the probabilities *)

Lemma occurrences_Permutation (k : string) (t : TileChar)
    (obs obs' : list (string * TileChar)) :
  Permutation obs obs' -> occurrences k t obs = occurrences k t obs'.
Proof.
  intro H. unfold occurrences, len. f_equal.
  apply Permutation_length.
  induction H; simpl.
  - constructor.
  - destruct (_ && _); [now constructor|assumption].
  - destruct (String.eqb k (fst y) && tile_eqb t (snd y)),
             (String.eqb k (fst x) && tile_eqb t (snd x));
      try apply Permutation_refl. apply perm_swap.
  - eapply Permutation_trans; eassumption.
Qed.

Lemma keyOccurrences_Permutation (k : string)
    (obs obs' : list (string * TileChar)) :
  Permutation obs obs' -> keyOccurrences k obs = keyOccurrences k obs'.
Proof.
  intro H. unfold keyOccurrences, len. f_equal.
  apply Permutation_length.
  induction H; simpl.
  - constructor.
  - destruct (String.eqb k (fst x)); [now constructor|assumption].
  - destruct (String.eqb k (fst y)), (String.eqb k (fst x));
      try apply Permutation_refl. apply perm_swap.
  - eapply Permutation_trans; eassumption.
Qed.

Lemma observations_Permutation (levels levels' : list Level) :
  Permutation levels levels' ->
  Permutation (observations levels) (observations levels').
Proof.
  intro H. unfold observations. induction H; simpl.
  - constructor.
  - now apply Permutation_app_head.
  - rewrite !app_assoc. apply Permutation_app_tail. apply Permutation_app_comm.
  - eapply Permutation_trans; eassumption.
Qed.

Lemma occurrences_le_key (k : string) (t : TileChar)
    (obs : list (string * TileChar)) :
  0 <= occurrences k t obs <= keyOccurrences k obs.
Proof.
  unfold occurrences, keyOccurrences, len.
  induction obs as [|o obs IH]; simpl; [lia|].
  destruct (String.eqb k (fst o)); simpl; [|exact IH].
  destruct (tile_eqb t (snd o)); simpl; lia.
Qed.

Lemma train_lookup (previous : Transitions Q) (levels : list Level)
    (k : string) (t : TileChar) :
  match trGet k (train previous levels) with
  | None => None
  | Some tileMap => tmGet t tileMap
  end
  = if occurrences k t (observations levels) =? 0 then None
    else Some (inject_Z (occurrences k t (observations levels))
               / inject_Z (keyOccurrences k (observations levels)))%Q.
Proof.
  unfold train. rewrite trGet_map_normalize.
  pose proof (countLevels_represents levels k) as R.
  destruct (trGet k (countLevels levels)) as [tm|]; simpl.
  - destruct R as [_ [Ht Hg]]. unfold normalizeCounts.
    rewrite tmGet_scaled, Hg, Ht.
    destruct (occurrences k t (observations levels) =? 0); reflexivity.
  - assert (H0 : occurrences k t (observations levels) = 0).
    { pose proof (occurrences_le_key k t (observations levels)). lia. }
    now rewrite H0.
Qed.

(** X30. Training on the same grids in another order gives every tile the
    same probability in every context (the tables may list their entries
    in another order, which the cumulative walk of [sampleTile] follows). *)
Theorem train_order_independent (previous previous' : Transitions Q)
    (levels levels' : list Level) (k : string) (t : TileChar) :
  Permutation levels levels' ->
  match trGet k (train previous levels) with
  | None => None
  | Some tileMap => tmGet t tileMap
  end
  = match trGet k (train previous' levels') with
    | None => None
    | Some tileMap => tmGet t tileMap
    end.
Proof.
  intro H. rewrite !train_lookup.
  pose proof (observations_Permutation H) as Ho.
  now rewrite (occurrences_Permutation k t Ho),
              (keyOccurrences_Permutation k Ho).
Qed.

(** Two one-row grids whose first cells differ: the order of the corpus
    shows in the order of the entries. *)
Example train_order_shows :
  train [] [ [ [EMPTY; BRICK] ]; [ [BRICK; EMPTY] ] ]
  <> train [] [ [ [BRICK; EMPTY] ]; [ [EMPTY; BRICK] ] ].
Proof. vm_compute. discriminate. Qed.

Lemma train_order_independent_witness :
  match trGet "X|X|X" (train [] [ [ [EMPTY; BRICK] ]; [ [BRICK; EMPTY] ] ]) with
  | None => None
  | Some tileMap => tmGet BRICK tileMap
  end
  = match trGet "X|X|X"
            (train [] [ [ [BRICK; EMPTY] ]; [ [EMPTY; BRICK] ] ]) with
    | None => None
    | Some tileMap => tmGet BRICK tileMap
    end.
Proof.
  apply (@train_order_independent [] []
           [ [ [EMPTY; BRICK] ]; [ [BRICK; EMPTY] ] ]
           [ [ [BRICK; EMPTY] ]; [ [EMPTY; BRICK] ] ]
           "X|X|X"%string BRICK).
  apply perm_swap.
Defined.
